(** * A shallow embedding of the skyr URL parser

    The development follows [src/url_parser_context.cpp] (the state
    handlers and their helpers) and [src/url_parse.cpp] (the driver
    [basic_parse] and the entry point [parse]).

    - a C++ [char] is an [ascii]; a [std::string] / [string_view] is a
      [string];
    - the iterator [it] of the parser context is the index of the byte
      it points at, a [Z] (the handlers move it below zero for a moment
      before the driver increments it again);
    - [optional<T>] is [option T];
    - a state handler is a function from the context and the current
      byte to the action it returns and the context it leaves, or to
      [None] where the C++ has no defined result (an empty optional is
      dereferenced, [path[0]] of an empty path is written);
    - the driver loop [while (true)] is a recursion on fuel whose
      sufficiency is proved below. *)

From Stdlib Require Import ZArith List Bool Ascii String Lia DecimalString.
Import ListNotations.
Open Scope string_scope.
Open Scope Z_scope.

(** ** Characters in the "C" locale *)

Definition code (c : ascii) : Z := Z.of_N (N_of_ascii c).

Definition NUL : ascii := "000"%char.

Definition in_range (lo hi : Z) (c : ascii) : bool :=
  (lo <=? code c) && (code c <=? hi).

Definition isdigit (c : ascii) : bool := in_range 48 57 c.
Definition isupper (c : ascii) : bool := in_range 65 90 c.
Definition islower (c : ascii) : bool := in_range 97 122 c.
Definition isalpha (c : ascii) : bool := isupper c || islower c.
Definition isalnum (c : ascii) : bool := isalpha c || isdigit c.
Definition isxdigit (c : ascii) : bool :=
  isdigit c || in_range 65 70 c || in_range 97 102 c.
(* space, \t, \n, \v, \f, \r *)
Definition isspace (c : ascii) : bool := in_range 9 13 c || (code c =? 32).

Definition tolower (c : ascii) : ascii :=
  if isupper c then ascii_of_N (N_of_ascii c + 32) else c.

Definition eqc (a b : ascii) : bool := Ascii.eqb a b.

(** ** Strings *)

Definition push_back (s : string) (c : ascii) : string := s ++ String c "".

Definition empty (s : string) : bool :=
  match s with EmptyString => true | _ => false end.

Definition size (s : string) : Z := Z.of_nat (String.length s).

Fixpoint string_map (f : ascii -> ascii) (s : string) : string :=
  match s with
  | EmptyString => EmptyString
  | String c r => String (f c) (string_map f r)
  end.

Fixpoint find_if (p : ascii -> bool) (s : string) : bool :=
  match s with
  | EmptyString => false
  | String c r => p c || find_if p r
  end.

Fixpoint drop_until (p : ascii -> bool) (s : string) : string :=
  match s with
  | EmptyString => EmptyString
  | String c r => if p c then s else drop_until p r
  end.

Fixpoint remove_if (p : ascii -> bool) (s : string) : string :=
  match s with
  | EmptyString => EmptyString
  | String c r => if p c then remove_if p r else String c (remove_if p r)
  end.

Definition reverse (s : string) : string :=
  string_of_list_ascii (rev (list_ascii_of_string s)).

Fixpoint back (s : string) : ascii :=
  match s with
  | EmptyString => NUL
  | String c EmptyString => c
  | String _ r => back r
  end.

(* [front()] of an empty view reads the terminating NUL of the owning
   [std::string]. *)
Definition front (s : string) : ascii :=
  match s with EmptyString => NUL | String c _ => c end.

Definition lower (s : string) : string := string_map tolower s.

(** [is_in(c, view)], line 21. *)
Fixpoint is_in (c : ascii) (view : string) : bool :=
  match view with
  | EmptyString => false
  | String d r => eqc c d || is_in c r
  end.

(** ** Reading through an iterator

    The view of the context is laid over the owning [std::string], so
    the byte at index [size] is the terminating NUL.  Any other index
    outside the view has no defined content. *)

Definition deref (view : string) (i : Z) : option ascii :=
  if i <? 0 then None
  else match String.get (Z.to_nat i) view with
       | Some c => Some c
       | None => if i =? size view then Some NUL else None
       end.

(** ** Input sanitization, lines 27-66 *)

(* The array holds the five bytes written and its own terminator, and
   [sizeof] counts all six. *)
Definition whitespace : string :=
  String NUL (String "027" (String "004" (String "018" (String "031" (String NUL ""))))).

Definition is_whitespace (ch : ascii) : bool :=
  negb (isspace ch || is_in ch whitespace).

Definition remove_leading_whitespace (input : string) : string * bool :=
  let rest := drop_until is_whitespace input in
  (rest, String.eqb rest input).

Definition remove_trailing_whitespace (input : string) : string * bool :=
  let rest := reverse (drop_until is_whitespace (reverse input)) in
  (rest, String.eqb rest input).

Definition is_tab_or_newline (c : ascii) : bool :=
  is_in c (String "009" (String "013" (String "010" ""))).

Definition remove_tabs_and_newlines (input : string) : string * bool :=
  let rest := remove_if is_tab_or_newline input in
  (rest, String.eqb rest input).

(** [is_forbidden_host_point], line 68; [sizeof] counts the terminator,
    which is the NUL the array starts with anyway. *)
Definition forbidden_host_points : string :=
  String NUL (String "009" (String "010" (String "013" " #%/:?@[\]"))).

Definition is_forbidden_host_point (c : ascii) : bool :=
  is_in c forbidden_host_points.

(** ** Percent codec *)

Definition hex_digit (n : Z) : ascii :=
  if n <? 10 then ascii_of_N (Z.to_N (48 + n)) else ascii_of_N (Z.to_N (55 + n)).

Definition percent_encode (c : ascii) : string :=
  String "%" (String (hex_digit (code c / 16)) (String (hex_digit (code c mod 16)) "")).

(** Modelled from the spec: [details::pct_encode_char] of
    [skyr/url/details/encode.hpp] is not among the sources.  Section 4.1:
    a byte below 0x20 or above 0x7E is always written [%XX] in upper-case
    hex, a byte of the escape set is written [%XX], any other byte is
    written as it is.  Call sites that pass no set (the C0-control
    policy) stand for the empty set. *)
Definition pct_encode_char (c : ascii) (includes : string) : string :=
  if (code c <? 32) || (126 <? code c) then percent_encode c
  else if is_in c includes then percent_encode c
  else String c "".

(** [hex_to_dec], line 98. *)
Definition hex_to_dec (c : ascii) : Z :=
  let c_lower := tolower c in
  if isdigit c_lower then code c_lower - 48 else code c_lower - 97 + 10.

(** Modelled from the spec: [details::pct_decode] of
    [skyr/url/details/decode.hpp] is not among the sources.  Section 4.1:
    left to right, [%] followed by two hex digits gives the decoded byte,
    any other [%] is copied; the decode never aborts, so the result is
    always [Some]. *)
Fixpoint pct_decode_go (s : string) : string :=
  match s with
  | EmptyString => EmptyString
  | String c r =>
      match r with
      | String h (String l r') =>
          if eqc c "%" && isxdigit h && isxdigit l
          then String (ascii_of_N (Z.to_N (hex_to_dec h * 16 + hex_to_dec l)))
                      (pct_decode_go r')
          else String c (pct_decode_go r)
      | _ => String c (pct_decode_go r)
      end
  end.

Definition pct_decode (input : string) : option string := Some (pct_decode_go input).

(** ** Scheme registry *)

(** Modelled from the spec: [url_schemes.hpp] is not among the sources.
    Section 3, scheme registry: the static table
    [{ftp->21, file->-, http->80, https->443, ws->80, wss->443}];
    [is_special] is membership, [default_port] the mapped value. *)
Definition special_schemes : list (string * option Z) :=
  [ ("ftp", Some 21); ("file", None); ("http", Some 80);
    ("https", Some 443); ("ws", Some 80); ("wss", Some 443) ].

Fixpoint lookup_scheme (scheme : string) (table : list (string * option Z))
  : option (option Z) :=
  match table with
  | [] => None
  | (name, port) :: rest =>
      if String.eqb scheme name then Some port else lookup_scheme scheme rest
  end.

Definition is_special (scheme : string) : bool :=
  match lookup_scheme scheme special_schemes with Some _ => true | None => false end.

Definition default_port (scheme : string) : option Z :=
  match lookup_scheme scheme special_schemes with Some p => p | None => None end.

Definition is_default_port (scheme : string) (port : Z) : bool :=
  match default_port scheme with Some p => p =? port | None => false end.

(** ** Numbers in text *)

(** [std::to_string] on an unsigned value. *)
Definition to_string (n : Z) : string :=
  NilZero.string_of_uint (N.to_uint (Z.to_N n)).

(** The value of a digit of [strtoul]: decimal digits, then the letters
    of either case from 10 on. *)
Definition digit_value (c : ascii) : option Z :=
  if isdigit c then Some (code c - 48)
  else if islower c then Some (code c - 97 + 10)
  else if isupper c then Some (code c - 65 + 10)
  else None.

Definition radix_digit (R : Z) (c : ascii) : option Z :=
  match digit_value c with
  | Some d => if d <? R then Some d else None
  | None => None
  end.

(** The longest run of radix-[R] digits at the head of [s]: its value
    and the number of digits read. *)
Fixpoint read_digits (R : Z) (s : string) (acc : Z) (n : Z) : Z * Z :=
  match s with
  | EmptyString => (acc, n)
  | String c r =>
      match radix_digit R c with
      | Some d => read_digits R r (acc * R + d) (n + 1)
      | None => (acc, n)
      end
  end.

Definition ULONG_MAX : Z := 18446744073709551615.

Definition skip_0x (R : Z) (s : string) : string :=
  match s with
  | String z (String x (String h r)) =>
      if (R =? 16) && eqc z "0" && eqc (tolower x) "x" &&
         (match radix_digit 16 h with Some _ => true | None => false end)
      then String h r else s
  | _ => s
  end.

(** [strtoul(s, &end, R)] of the C library with a 64-bit [unsigned long]:
    leading white space, an optional sign, for radix 16 an optional [0x],
    then as many digits as there are; whatever follows is left unread.
    The result is [(end - s, value, ERANGE)], with [end = s] when no
    digit was found. *)
Definition strtoul (s : string) (R : Z) : Z * Z * bool :=
  let s1 := drop_until (fun c => negb (isspace c)) s in
  let '(neg, s2) :=
    match s1 with
    | String c r => if eqc c "-" then (true, r)
                    else if eqc c "+" then (false, r) else (false, s1)
    | EmptyString => (false, s1)
    end in
  let s3 := skip_0x R s2 in
  let '(v, n) := read_digits R s3 0 0 in
  if n =? 0 then (0, 0, false)
  else
    let last := size s - size s3 + n in
    if ULONG_MAX <? v then (last, ULONG_MAX, true)
    else (last, if neg then (ULONG_MAX + 1 - v) mod (ULONG_MAX + 1) else v, false).

(** [std::stoul(s, nullptr, R)]: [invalid_argument] when nothing was
    converted, [out_of_range] on [ERANGE]; [None] stands for either
    exception.  The position argument is null, so the text after the
    digits is not looked at. *)
Definition stoul (s : string) (R : Z) : option Z :=
  let '(last, v, erange) := strtoul s R in
  if last =? 0 then None
  else if erange then None
  else Some v.

(** [std::atoi] on a string of digits that passed [is_valid_port]. *)
Definition atoi (s : string) : Z := fst (read_digits 10 s 0 0).

(** ** IPv4, lines 253-360 *)

Definition substr (n : nat) (s : string) : string :=
  String.substring n (String.length s - n) s.

Definition parse_ipv4_number (input : string) : option Z :=
  let '(input, R) :=
    if (2 <=? size input) && eqc (front input) "0" &&
       eqc (tolower (front (substr 1 input))) "x"
    then (substr 2 input, 16)
    else if (2 <=? size input) && eqc (front input) "0"
    then (substr 1 input, 8)
    else (input, 10) in
  if empty input then Some 0
  else stoul input R.

(** The first loop of [parse_ipv4_address]: a new part at every dot,
    any other byte appended to the last part. *)
Definition split_step (parts : list string) (ch : ascii) : list string :=
  if eqc ch "." then parts ++ [EmptyString]
  else removelast parts ++ [push_back (last parts EmptyString) ch].

Definition split_parts (input : string) : list string :=
  fold_left split_step (list_ascii_of_string input) [EmptyString].

(** The second loop: stop at the first part that is empty or is not a
    number. *)
Fixpoint parse_parts (parts : list string) : option (list Z) :=
  match parts with
  | [] => Some []
  | part :: rest =>
      if empty part then None
      else match parse_ipv4_number part with
           | None => None
           | Some number =>
               match parse_parts rest with
               | None => None
               | Some numbers => Some (number :: numbers)
               end
           end
  end.

(** Lines 324-357 on the vector [numbers], which is not empty there.
    [std::pow(256, k)] is exact for the exponents that occur, and so is
    the sum in [double]: every term is below [2^32]. *)
Fixpoint ipv4_sum (numbers : list Z) (counter : Z) (ipv4 : Z) : Z :=
  match numbers with
  | [] => ipv4
  | number :: rest => ipv4_sum rest (counter + 1) (ipv4 + number * 256 ^ (3 - counter))
  end.

Definition ipv4_fold (numbers : list Z) : option Z :=
  if existsb (fun number => 255 <? number) (removelast numbers) then None
  else if 256 ^ (5 - Z.of_nat (List.length numbers)) <=? last numbers 0 then None
  else Some (ipv4_sum (removelast numbers) 0 (last numbers 0)).

(** Modelled from the spec: [ipv4_address::to_string] is not among the
    sources.  Section 4.2: "Emit as four dotted decimals (network byte
    order)". *)
Definition ipv4_to_string (ipv4 : Z) : string :=
  to_string (ipv4 / 256 ^ 3 mod 256) ++ "." ++
  to_string (ipv4 / 256 ^ 2 mod 256) ++ "." ++
  to_string (ipv4 / 256 mod 256) ++ "." ++
  to_string (ipv4 mod 256).

(* lines 283-299: the parts, without a single empty last one *)
Definition ipv4_parts (input : string) : list string :=
  let parts := split_parts input in
  if empty (last parts EmptyString)
  then (if 1 <? Z.of_nat (List.length parts) then removelast parts else parts)
  else parts.

Definition parse_ipv4_address (input : string) : option string :=
  let parts := ipv4_parts input in
  if 4 <? Z.of_nat (List.length parts) then Some input
  else match parse_parts parts with
       | None => Some input
       | Some numbers =>
           match ipv4_fold numbers with
           | None => None
           | Some ipv4 => Some (ipv4_to_string ipv4)
           end
       end.

(** ** Lookahead, lines 74-96

    [rd] reads the storage under the iterator; [None] is a read outside
    of it. *)
Fixpoint starts_with_from (rd : Z -> option ascii) (last it : Z) (chars : string)
  : option bool :=
  match chars with
  | EmptyString => Some true
  | String ch rest =>
      match rd it with
      | None => None
      | Some c =>
          if negb (eqc c ch) then Some false
          else if it + 1 =? last then Some (empty rest)
          else starts_with_from rd last (it + 1) rest
      end
  end.

Definition remaining_starts_with (rd : Z -> option ascii) (first last : Z)
  (chars : string) : option bool :=
  starts_with_from rd last (first + 1) chars.

(** ** IPv6, lines 110-251 *)

(* The view handed to [parse_ipv6_address] is the buffer without its
   brackets: the byte at its end is the closing bracket. *)
Definition peek (view : string) (i : Z) : ascii :=
  match (if i <? 0 then None else String.get (Z.to_nat i) view) with
  | Some c => c
  | None => "]"%char
  end.

Definition set_piece (address : list Z) (i : Z) (v : Z) : list Z :=
  firstn (Z.to_nat i) address ++ [v] ++ skipn (S (Z.to_nat i)) address.

Definition piece (address : list Z) (i : Z) : Z := nth (Z.to_nat i) address 0.

(* while ((length < 4) && isxdigit( *it )) *)
Fixpoint read_hex (fuel : nat) (view : string) (it value length : Z) : Z * Z * Z :=
  match fuel with
  | O => (it, value, length)
  | S fuel' =>
      if (length <? 4) && isxdigit (peek view it)
      then read_hex fuel' view (it + 1) (value * 16 + hex_to_dec (peek view it)) (length + 1)
      else (it, value, length)
  end.

(* while (isdigit( *it )), lines 189-207 *)
Fixpoint read_ipv4_piece (fuel : nat) (view : string) (it : Z) (ipv4_piece : option Z)
  : option (Z * option Z) :=
  match fuel with
  | O => Some (it, ipv4_piece)
  | S fuel' =>
      if isdigit (peek view it) then
        let number := code (peek view it) - 48 in
        match (match ipv4_piece with
               | None => Some number
               | Some p => if p =? 0 then None else Some (p * 10 + number)
               end) with
        | None => None
        | Some p => if 255 <? p then None
                    else read_ipv4_piece fuel' view (it + 1) (Some p)
        end
      else Some (it, ipv4_piece)
  end.

(* while (it != last), lines 172-215 *)
Fixpoint read_ipv4_in_ipv6 (fuel : nat) (view : string) (it : Z) (address : list Z)
  (piece_index numbers_seen : Z) : option (list Z * Z * Z) :=
  match fuel with
  | O => Some (address, piece_index, numbers_seen)
  | S fuel' =>
      if it =? size view then Some (address, piece_index, numbers_seen)
      else
        match (if 0 <? numbers_seen
               then (if eqc (peek view it) "." && (numbers_seen <? 4)
                     then Some (it + 1) else None)
               else Some it) with
        | None => None
        | Some it =>
            if negb (isdigit (peek view it)) then None
            else match read_ipv4_piece (S (String.length view)) view it None with
                 | Some (it, Some p) =>
                     let address :=
                       set_piece address piece_index (piece address piece_index * 256 + p) in
                     let numbers_seen := numbers_seen + 1 in
                     let piece_index :=
                       if (numbers_seen =? 2) || (numbers_seen =? 4)
                       then piece_index + 1 else piece_index in
                     read_ipv4_in_ipv6 fuel' view it address piece_index numbers_seen
                 | _ => None
                 end
        end
  end.

(* while (it != last), lines 130-235 *)
Fixpoint ipv6_loop (fuel : nat) (view : string) (it : Z) (address : list Z)
  (piece_index : Z) (compress : option Z) : option (list Z * Z * option Z) :=
  match fuel with
  | O => None
  | S fuel' =>
      if it =? size view then Some (address, piece_index, compress)
      else if piece_index =? 8 then None
      else if eqc (peek view it) ":" then
        match compress with
        | Some _ => None
        | None => ipv6_loop fuel' view (it + 1) address (piece_index + 1)
                            (Some (piece_index + 1))
        end
      else
        let '(it, value, length) := read_hex 4 view it 0 0 in
        if eqc (peek view it) "." then
          if length =? 0 then None
          else
            let it := it - length in
            if 6 <? piece_index then None
            else match read_ipv4_in_ipv6 (S (String.length view)) view it address
                                         piece_index 0 with
                 | Some (address, piece_index, numbers_seen) =>
                     if negb (numbers_seen =? 4) then None
                     else Some (address, piece_index, compress)
                 | None => None
                 end
        else if eqc (peek view it) ":" then
          if it + 1 =? size view then None
          else ipv6_loop fuel' view (it + 1) (set_piece address piece_index value)
                         (piece_index + 1) compress
        else if negb (it =? size view) then None
        else ipv6_loop fuel' view it (set_piece address piece_index value)
                       (piece_index + 1) compress
  end.

(* lines 238-244 *)
Fixpoint ipv6_swaps (fuel : nat) (address : list Z) (piece_index swaps c : Z) : list Z :=
  match fuel with
  | O => address
  | S fuel' =>
      if negb (piece_index =? 0) && (0 <? swaps) then
        let a := piece address piece_index in
        let b := piece address (c + swaps - 1) in
        ipv6_swaps fuel'
          (set_piece (set_piece address piece_index b) (c + swaps - 1) a)
          (piece_index - 1) (swaps - 1) c
      else address
  end.

Definition parse_ipv6_address (input : string) : option (list Z) :=
  let address := repeat 0 8 in
  let start :=
    if eqc (peek input 0) ":" then
      match remaining_starts_with (fun i => Some (peek input i)) 0 (size input) ":" with
      | Some true => Some (2, 1, Some 1)
      | _ => None
      end
    else Some (0, 0, None) in
  match start with
  | None => None
  | Some (it, piece_index, compress) =>
      match ipv6_loop (S (String.length input)) input it address piece_index compress with
      | None => None
      | Some (address, piece_index, Some c) =>
          Some (ipv6_swaps 8 address 7 (piece_index - c) c)
      | Some (address, piece_index, None) =>
          if negb (piece_index =? 8) then None else Some address
      end
  end.

(** Modelled from the spec: [ipv6_address::to_string] is not among the
    sources.  Section 4.3: the longest run of zero pieces of length at
    least two, the leftmost among equals, is written [::]; the pieces
    are in lower-case hex without leading zeros.  The literal is
    rendered with its brackets, so that the serializer of section 4.5,
    which writes the host string as it is, gives the bracketed form of
    scenario S3. *)
Fixpoint hex_string (fuel : nat) (n : Z) (acc : string) : string :=
  match fuel with
  | O => acc
  | S fuel' =>
      let d := n mod 16 in
      let c := if d <? 10 then ascii_of_N (Z.to_N (48 + d)) else ascii_of_N (Z.to_N (87 + d)) in
      if n / 16 =? 0 then String c acc else hex_string fuel' (n / 16) (String c acc)
  end.

Fixpoint zero_run (address : list Z) : Z :=
  match address with
  | 0 :: rest => 1 + zero_run rest
  | _ => 0
  end.

(* the start and length of the longest run of zero pieces *)
Fixpoint longest_zero_run (address : list Z) (i : Z) (best : Z * Z) : Z * Z :=
  match address with
  | [] => best
  | _ :: rest =>
      let n := zero_run address in
      longest_zero_run rest (i + 1) (if snd best <? n then (i, n) else best)
  end.

Fixpoint join (sep : string) (l : list string) : string :=
  match l with
  | [] => ""
  | [s] => s
  | s :: r => s ++ sep ++ join sep r
  end.

Definition ipv6_to_string (address : list Z) : string :=
  let '(start, n) := longest_zero_run address 0 (0, 0) in
  let hex := map (fun p => hex_string 4 p "") in
  if 2 <=? n then
    "[" ++ join ":" (hex (firstn (Z.to_nat start) address)) ++ "::" ++
    join ":" (hex (skipn (Z.to_nat (start + n)) address)) ++ "]"
  else "[" ++ join ":" (hex address) ++ "]".

(** ** Hosts, lines 362-437 *)

Definition opaque_forbidden : string :=
  String NUL (String "009" (String "010" (String "013" " #/:?@[\]"))).

Definition parse_opaque_host (input : string) : option string :=
  if find_if (fun c => is_in c opaque_forbidden) input then None
  else Some (String.concat "" (map (fun c => pct_encode_char c "") (list_ascii_of_string input))).

Definition domain_to_ascii (domain : string) : string := string_map tolower domain.

Definition parse_host (input : string) (is_not_special : bool) : option string :=
  if eqc (front input) "[" then
    if negb (eqc (back input) "]") then None
    else
      let view := String.substring 1 (String.length input - 2) input in
      match parse_ipv6_address view with
      | Some address => Some (ipv6_to_string address)
      | None => None
      end
  else if is_not_special then parse_opaque_host input
  else
    match pct_decode input with
    | None => None
    | Some domain =>
        let ascii_domain := domain_to_ascii domain in
        if find_if is_forbidden_host_point ascii_domain then None
        else parse_ipv4_address ascii_domain
    end.

(** ** The URL record and the parser context *)

Module url_state.
Inductive t : Set :=
  | scheme_start | scheme | no_scheme | special_relative_or_authority
  | path_or_authority | relative | relative_slash | special_authority_slashes
  | special_authority_ignore_slashes | authority | host | hostname | port
  | file | file_slash | file_host | path_start | path
  | cannot_be_a_base_url_path | query | fragment.

Definition eqb (a b : t) : bool :=
    match a, b with
    | scheme_start, scheme_start | scheme, scheme | no_scheme, no_scheme
    | special_relative_or_authority, special_relative_or_authority
    | path_or_authority, path_or_authority | relative, relative
    | relative_slash, relative_slash
    | special_authority_slashes, special_authority_slashes
    | special_authority_ignore_slashes, special_authority_ignore_slashes
    | authority, authority | host, host | hostname, hostname | port, port
    | file, file | file_slash, file_slash | file_host, file_host
    | path_start, path_start | path, path
    | cannot_be_a_base_url_path, cannot_be_a_base_url_path
    | query, query | fragment, fragment => true
    | _, _ => false
    end.
End url_state.

Module url_parse_action.
Inductive t : Set := increment | continue_ | success | fail.
End url_parse_action.

Record url_record : Set := mk_url {
  scheme : string;
  username : string;
  password : string;
  host : option string;
  port : option Z;
  path : list string;
  query : option string;
  fragment : option string;
  cannot_be_a_base_url : bool
}.

(* url_record{} *)
Definition empty_url : url_record := mk_url "" "" "" None None [] None None false.

Definition set_scheme v u := mk_url v (username u) (password u) (host u) (port u) (path u) (query u) (fragment u) (cannot_be_a_base_url u).
Definition set_username v u := mk_url (scheme u) v (password u) (host u) (port u) (path u) (query u) (fragment u) (cannot_be_a_base_url u).
Definition set_password v u := mk_url (scheme u) (username u) v (host u) (port u) (path u) (query u) (fragment u) (cannot_be_a_base_url u).
Definition set_host v u := mk_url (scheme u) (username u) (password u) v (port u) (path u) (query u) (fragment u) (cannot_be_a_base_url u).
Definition set_port v u := mk_url (scheme u) (username u) (password u) (host u) v (path u) (query u) (fragment u) (cannot_be_a_base_url u).
Definition set_path v u := mk_url (scheme u) (username u) (password u) (host u) (port u) v (query u) (fragment u) (cannot_be_a_base_url u).
Definition set_query v u := mk_url (scheme u) (username u) (password u) (host u) (port u) (path u) v (fragment u) (cannot_be_a_base_url u).
Definition set_fragment v u := mk_url (scheme u) (username u) (password u) (host u) (port u) (path u) (query u) v (cannot_be_a_base_url u).
Definition set_cannot_be_a_base_url v u := mk_url (scheme u) (username u) (password u) (host u) (port u) (path u) (query u) (fragment u) v.

(** Modelled from the spec: the members of [url_record] are declared in a
    header that is not among the sources.  Section 3:
    [includes_credentials = !username.empty() || !password.empty()], and
    a record is special when its scheme is in the special set. *)
Definition includes_credentials (u : url_record) : bool :=
  negb (empty (username u)) || negb (empty (password u)).

Definition url_is_special (u : url_record) : bool := is_special (scheme u).

Record url_parser_context : Set := mk_context {
  state : url_state.t;
  view : string;
  it : Z;
  base : option url_record;
  url : url_record;
  state_override : option url_state.t;
  buffer : string;
  at_flag : bool;
  square_braces_flag : bool;
  password_token_seen_flag : bool;
  validation_error : bool
}.

Definition set_state v c := mk_context v (view c) (it c) (base c) (url c) (state_override c) (buffer c) (at_flag c) (square_braces_flag c) (password_token_seen_flag c) (validation_error c).
Definition set_it v c := mk_context (state c) (view c) v (base c) (url c) (state_override c) (buffer c) (at_flag c) (square_braces_flag c) (password_token_seen_flag c) (validation_error c).
Definition set_url v c := mk_context (state c) (view c) (it c) (base c) v (state_override c) (buffer c) (at_flag c) (square_braces_flag c) (password_token_seen_flag c) (validation_error c).
Definition set_buffer v c := mk_context (state c) (view c) (it c) (base c) (url c) (state_override c) v (at_flag c) (square_braces_flag c) (password_token_seen_flag c) (validation_error c).
Definition set_at_flag v c := mk_context (state c) (view c) (it c) (base c) (url c) (state_override c) (buffer c) v (square_braces_flag c) (password_token_seen_flag c) (validation_error c).
Definition set_square_braces_flag v c := mk_context (state c) (view c) (it c) (base c) (url c) (state_override c) (buffer c) (at_flag c) v (password_token_seen_flag c) (validation_error c).
Definition set_password_token_seen_flag v c := mk_context (state c) (view c) (it c) (base c) (url c) (state_override c) (buffer c) (at_flag c) (square_braces_flag c) v (validation_error c).
Definition set_validation_error v c := mk_context (state c) (view c) (it c) (base c) (url c) (state_override c) (buffer c) (at_flag c) (square_braces_flag c) (password_token_seen_flag c) v.

Definition upd_url (f : url_record -> url_record) (c : url_parser_context) :=
  set_url (f (url c)) c.

Definition has_override (c : url_parser_context) : bool :=
  match state_override c with Some _ => true | None => false end.

(** Modelled from the spec: the inline members of [url_parser_context]
    are in [url_parser_context.hpp], which is not among the sources.
    Section 4.6.2: EOF is [it == end]; [increment] advances [it] by one,
    [decrement] takes it back by one, [reset] rewinds it to the start;
    in the authority state the input is rewound to the start of the
    buffer, that is by the size of the buffer and the byte under [it]. *)
Definition is_eof (c : url_parser_context) : bool := it c =? size (view c).
Definition increment (c : url_parser_context) := set_it (it c + 1) c.
Definition decrement (c : url_parser_context) := set_it (it c - 1) c.
Definition reset (c : url_parser_context) := set_it 0 c.
Definition restart_from_buffer (c : url_parser_context) :=
  set_it (it c - (size (buffer c) + 1)) c.

(** The constructor, lines 538-559. *)
Definition new_context (input : string) (base : option url_record)
  (url : option url_record) (state_override : option url_state.t)
  : url_parser_context :=
  let '(input, ok1) := remove_leading_whitespace input in
  let '(input, ok2) := remove_trailing_whitespace input in
  let '(input, ok3) := remove_tabs_and_newlines input in
  mk_context
    (match state_override with Some s => s | None => url_state.scheme_start end)
    input 0 base
    (match url with Some u => u | None => empty_url end)
    state_override "" false false false
    (negb ok1 || negb ok2 || negb ok3).

(** ** Predicates on segments and lookahead, lines 439-531 *)

Definition is_valid_port (port : string) : bool :=
  let '(port_last, value, _) := strtoul port 10 in
  (size port =? port_last) && negb (0 =? port_last) && (value <? 65535).

Definition is_url_code_point (c : ascii) : bool :=
  isalnum c || is_in c "!$&'()*+,-./:/=?@_~".

Definition is_windows_drive_letter_at (view : string) (it : Z) : option bool :=
  if size view - it <? 2 then Some false
  else match deref view it with
       | None => None
       | Some c0 =>
           if negb (isalpha c0) then Some false
           else match deref view (it + 1) with
                | None => None
                | Some c1 => Some (eqc c1 ":" || eqc c1 "|")
                end
       end.

Definition is_windows_drive_letter (segment : string) : bool :=
  match is_windows_drive_letter_at segment 0 with Some b => b | None => false end.

Definition is_single_dot_path_segment (segment : string) : bool :=
  let segment_lower := lower segment in
  String.eqb segment_lower "." || String.eqb segment_lower "%2e".

Definition is_pct_encoded (view : string) (it : Z) : option bool :=
  if it =? size view then Some false
  else match deref view it with
       | None => None
       | Some c0 =>
           if eqc c0 "%" then
             if negb (it + 1 =? size view) then
               match deref view (it + 1) with
               | None => None
               | Some c1 =>
                   if isxdigit c1 then
                     if negb (it + 2 =? size view) then
                       match deref view (it + 2) with
                       | None => None
                       | Some c2 => Some (isxdigit c2)
                       end
                     else Some false
                   else Some false
               end
             else Some false
           else Some false
       end.

Definition is_double_dot_path_segment (segment : string) : bool :=
  let segment_lower := lower segment in
  String.eqb segment_lower ".." || String.eqb segment_lower ".%2e" ||
  String.eqb segment_lower "%2e." || String.eqb segment_lower "%2e%2e".

Definition shorten_path (scheme : string) (path : list string) : list string :=
  match path with
  | [] => path
  | _ =>
      if String.eqb scheme "file" && (Z.of_nat (List.length path) =? 1) &&
         is_windows_drive_letter (hd "" path)
      then path
      else removelast path
  end.

(** ** The state handlers, lines 561-1141 *)

Definition handled : Set := option (url_parse_action.t * url_parser_context).

Definition ret (a : url_parse_action.t) (c : url_parser_context) : handled :=
  Some (a, c).

Notation "x <- e ;; k" :=
  (match e with Some x => k | None => None end)
  (at level 61, e at next level, right associativity).

Module A := url_parse_action.

Definition lookahead (ctx : url_parser_context) (chars : string) : option bool :=
  remaining_starts_with (deref (view ctx)) (it ctx) (size (view ctx)) chars.

Definition parse_scheme_start (ctx : url_parser_context) (c : ascii) : handled :=
  if isalpha c then
    let lower := tolower c in
    let ctx := set_buffer (push_back (buffer ctx) lower) ctx in
    let ctx := set_state url_state.scheme ctx in
    ret A.increment ctx
  else if negb (has_override ctx) then
    let ctx := set_state url_state.no_scheme ctx in
    let ctx := reset ctx in
    ret A.continue_ ctx
  else
    let ctx := set_validation_error true ctx in
    ret A.fail ctx.

Definition parse_scheme (ctx : url_parser_context) (c : ascii) : handled :=
  if isalnum c || is_in c "+-." then
    let lower := tolower c in
    let ctx := set_buffer (push_back (buffer ctx) lower) ctx in
    ret A.increment ctx
  else if eqc c ":" then
    if has_override ctx &&
       ((url_is_special (url ctx) && negb (is_special (buffer ctx))) ||
        (negb (url_is_special (url ctx)) && is_special (buffer ctx)) ||
        ((includes_credentials (url ctx) ||
          match port (url ctx) with Some _ => true | None => false end) &&
         String.eqb (buffer ctx) "file") ||
        (String.eqb (scheme (url ctx)) "file" &&
         match host (url ctx) with Some h => empty h | None => true end))
    then ret A.fail ctx
    else
      let ctx := upd_url (set_scheme (buffer ctx)) ctx in
      let ctx := set_buffer "" ctx in
      if String.eqb (scheme (url ctx)) "file" then
        b <- lookahead ctx "//" ;;
        let ctx := if negb b then set_validation_error true ctx else ctx in
        let ctx := set_state url_state.file ctx in
        ret A.increment ctx
      else if url_is_special (url ctx) &&
              match base ctx with
              | Some b => String.eqb (scheme b) (scheme (url ctx))
              | None => false
              end then
        let ctx := set_state url_state.special_relative_or_authority ctx in
        ret A.increment ctx
      else if url_is_special (url ctx) then
        let ctx := set_state url_state.special_authority_slashes ctx in
        ret A.increment ctx
      else
        b <- lookahead ctx "/" ;;
        if b then
          let ctx := set_state url_state.path_or_authority ctx in
          let ctx := increment ctx in
          ret A.increment ctx
        else
          let ctx := upd_url (set_cannot_be_a_base_url true) ctx in
          let ctx := upd_url (fun u => set_path (path u ++ [""]) u) ctx in
          let ctx := set_state url_state.cannot_be_a_base_url_path ctx in
          ret A.increment ctx
  else if negb (has_override ctx) then
    let ctx := set_buffer "" ctx in
    let ctx := set_state url_state.no_scheme ctx in
    let ctx := reset ctx in
    ret A.continue_ ctx
  else ret A.increment ctx.

Definition parse_no_scheme (ctx : url_parser_context) (c : ascii) : handled :=
  match base ctx with
  | None =>
      let ctx := set_validation_error true ctx in
      ret A.fail ctx
  | Some b =>
      if cannot_be_a_base_url b && negb (eqc c "#") then
        let ctx := set_validation_error true ctx in
        ret A.fail ctx
      else if cannot_be_a_base_url b && eqc c "#" then
        let ctx := upd_url (set_scheme (scheme b)) ctx in
        let ctx := upd_url (set_path (path b)) ctx in
        let ctx := upd_url (set_query (query b)) ctx in
        let ctx := upd_url (set_fragment (Some "")) ctx in
        let ctx := upd_url (set_cannot_be_a_base_url true) ctx in
        let ctx := set_state url_state.fragment ctx in
        ret A.increment ctx
      else if negb (String.eqb (scheme b) "file") then
        let ctx := set_state url_state.relative ctx in
        let ctx := reset ctx in
        ret A.continue_ ctx
      else
        let ctx := set_state url_state.file ctx in
        let ctx := reset ctx in
        ret A.continue_ ctx
  end.

Definition parse_special_relative_or_authority (ctx : url_parser_context) (c : ascii)
  : handled :=
  b <- (if eqc c "/" then lookahead ctx "/" else Some false) ;;
  if b then
    let ctx := increment ctx in
    let ctx := set_state url_state.special_authority_ignore_slashes ctx in
    ret A.increment ctx
  else
    let ctx := set_validation_error true ctx in
    let ctx := decrement ctx in
    let ctx := set_state url_state.relative ctx in
    ret A.increment ctx.

Definition parse_path_or_authority (ctx : url_parser_context) (c : ascii) : handled :=
  if eqc c "/" then
    let ctx := set_state url_state.authority ctx in
    ret A.increment ctx
  else
    let ctx := set_state url_state.path ctx in
    let ctx := decrement ctx in
    ret A.increment ctx.

(* username, password, host and port of the base *)
Definition inherit_authority (b : url_record) (ctx : url_parser_context) :=
  let ctx := upd_url (set_username (username b)) ctx in
  let ctx := upd_url (set_password (password b)) ctx in
  let ctx := upd_url (set_host (host b)) ctx in
  upd_url (set_port (port b)) ctx.

Definition parse_relative (ctx : url_parser_context) (c : ascii) : handled :=
  b <- base ctx ;;
  let ctx := upd_url (set_scheme (scheme b)) ctx in
  if is_eof ctx then
    let ctx := inherit_authority b ctx in
    let ctx := upd_url (set_path (path b)) ctx in
    let ctx := upd_url (set_query (query b)) ctx in
    ret A.increment ctx
  else if eqc c "/" then
    let ctx := set_state url_state.relative_slash ctx in
    ret A.increment ctx
  else if eqc c "?" then
    let ctx := inherit_authority b ctx in
    let ctx := upd_url (set_path (path b)) ctx in
    let ctx := upd_url (set_query (Some "")) ctx in
    let ctx := set_state url_state.query ctx in
    ret A.increment ctx
  else if eqc c "#" then
    let ctx := inherit_authority b ctx in
    let ctx := upd_url (set_path (path b)) ctx in
    let ctx := upd_url (set_query (query b)) ctx in
    let ctx := upd_url (set_fragment (Some "")) ctx in
    let ctx := set_state url_state.fragment ctx in
    ret A.increment ctx
  else if url_is_special (url ctx) && eqc c "\" then
    let ctx := set_validation_error true ctx in
    let ctx := set_state url_state.relative_slash ctx in
    ret A.increment ctx
  else
    let ctx := inherit_authority b ctx in
    let ctx := upd_url (set_path (path b)) ctx in
    let ctx := upd_url (fun u => set_path (removelast (path u)) u) ctx in
    let ctx := set_state url_state.path ctx in
    let ctx := decrement ctx in
    ret A.increment ctx.

Definition parse_relative_slash (ctx : url_parser_context) (c : ascii) : handled :=
  if url_is_special (url ctx) && (eqc c "/" || eqc c "\") then
    let ctx := if eqc c "\" then set_validation_error true ctx else ctx in
    let ctx := set_state url_state.special_authority_ignore_slashes ctx in
    ret A.increment ctx
  else if eqc c "/" then
    let ctx := set_state url_state.authority ctx in
    ret A.increment ctx
  else
    b <- base ctx ;;
    let ctx := inherit_authority b ctx in
    let ctx := set_state url_state.path ctx in
    let ctx := decrement ctx in
    ret A.increment ctx.

Definition parse_special_authority_slashes (ctx : url_parser_context) (c : ascii)
  : handled :=
  b <- (if eqc c "/" then lookahead ctx "/" else Some false) ;;
  if b then
    let ctx := increment ctx in
    let ctx := set_state url_state.special_authority_ignore_slashes ctx in
    ret A.increment ctx
  else
    let ctx := set_validation_error true ctx in
    let ctx := decrement ctx in
    let ctx := set_state url_state.special_authority_ignore_slashes ctx in
    ret A.increment ctx.

Definition parse_special_authority_ignore_slashes (ctx : url_parser_context) (c : ascii)
  : handled :=
  if negb (eqc c "/") && negb (eqc c "\") then
    let ctx := decrement ctx in
    let ctx := set_state url_state.authority ctx in
    ret A.increment ctx
  else
    let ctx := set_validation_error true ctx in
    ret A.increment ctx.

(** The escape sets written at the call sites of [pct_encode_char]. *)
Definition dquote : ascii := "034"%char.
Definition userinfo_set : string := String " " (String dquote "<>`#?{}/:;=@[\]^|").
Definition path_set : string := String " " (String dquote "<>`#?{}").
Definition query_set : string := String " " (String dquote "#<>").
Definition fragment_set : string := String " " (String dquote "<>`").

(* for (auto c : buffer), lines 784-798 *)
Fixpoint authority_loop (buffer : string) (ctx : url_parser_context)
  : url_parser_context :=
  match buffer with
  | EmptyString => ctx
  | String c rest =>
      if eqc c ":" && negb (password_token_seen_flag ctx) then
        authority_loop rest (set_password_token_seen_flag true ctx)
      else
        let pct_encoded := pct_encode_char c userinfo_set in
        let ctx :=
          if password_token_seen_flag ctx
          then upd_url (fun u => set_password (password u ++ pct_encoded) u) ctx
          else upd_url (fun u => set_username (username u ++ pct_encoded) u) ctx in
        authority_loop rest ctx
  end.

(* is_eof() || c == '/' || c == '?' || c == '#' || (special && c == '\\') *)
Definition authority_end (ctx : url_parser_context) (c : ascii) : bool :=
  is_eof ctx || eqc c "/" || eqc c "?" || eqc c "#" ||
  (url_is_special (url ctx) && eqc c "\").

Definition parse_authority (ctx : url_parser_context) (c : ascii) : handled :=
  if eqc c "@" then
    let ctx := set_validation_error true ctx in
    let ctx := if at_flag ctx then set_buffer ("%40" ++ buffer ctx) ctx else ctx in
    let ctx := set_at_flag true ctx in
    let ctx := authority_loop (buffer ctx) ctx in
    let ctx := set_buffer "" ctx in
    ret A.increment ctx
  else if authority_end ctx c then
    if at_flag ctx && empty (buffer ctx) then
      let ctx := set_validation_error true ctx in
      ret A.fail ctx
    else
      let ctx := restart_from_buffer ctx in
      let ctx := set_state url_state.host ctx in
      let ctx := set_buffer "" ctx in
      ret A.increment ctx
  else
    let ctx := set_buffer (push_back (buffer ctx) c) ctx in
    ret A.increment ctx.

Definition parse_hostname (ctx : url_parser_context) (c : ascii) : handled :=
  if has_override ctx && String.eqb (scheme (url ctx)) "file" then
    let ctx := decrement ctx in
    let ctx := set_state url_state.file_host ctx in
    ret A.increment ctx
  else if eqc c ":" && negb (square_braces_flag ctx) then
    if empty (buffer ctx) then
      let ctx := set_validation_error true ctx in
      ret A.fail ctx
    else
      match parse_host (buffer ctx) false with
      | None => ret A.fail ctx
      | Some h =>
          let ctx := upd_url (set_host (Some h)) ctx in
          let ctx := set_buffer "" ctx in
          let ctx := set_state url_state.port ctx in
          match state_override ctx with
          | Some url_state.hostname => ret A.success ctx
          | _ => ret A.increment ctx
          end
      end
  else if authority_end ctx c then
    let ctx := decrement ctx in
    if url_is_special (url ctx) && empty (buffer ctx) then
      let ctx := set_validation_error true ctx in
      ret A.fail ctx
    else
      match parse_host (buffer ctx) false with
      | None => ret A.fail ctx
      | Some h =>
          let ctx := upd_url (set_host (Some h)) ctx in
          let ctx := set_buffer "" ctx in
          let ctx := set_state url_state.path_start ctx in
          ret A.increment ctx
      end
  else
    let ctx :=
      if eqc c "[" then set_square_braces_flag true ctx
      else if eqc c "]" then set_square_braces_flag false ctx
      else ctx in
    let ctx := set_buffer (push_back (buffer ctx) c) ctx in
    ret A.increment ctx.

Definition parse_port (ctx : url_parser_context) (c : ascii) : handled :=
  if isdigit c then
    let ctx := set_buffer (push_back (buffer ctx) c) ctx in
    ret A.increment ctx
  else if authority_end ctx c || has_override ctx then
    if negb (empty (buffer ctx)) && negb (is_valid_port (buffer ctx)) then
      let ctx := set_validation_error true ctx in
      ret A.fail ctx
    else
      let ctx :=
        if negb (empty (buffer ctx)) then
          let port := atoi (buffer ctx) in
          let ctx :=
            if is_default_port (scheme (url ctx)) port
            then upd_url (set_port None) ctx
            else upd_url (set_port (Some port)) ctx in
          set_buffer "" ctx
        else ctx in
      if has_override ctx then ret A.success ctx
      else
        let ctx := decrement ctx in
        let ctx := set_state url_state.path_start ctx in
        ret A.increment ctx
  else
    let ctx := set_validation_error true ctx in
    ret A.fail ctx.

Definition base_is_file (ctx : url_parser_context) : option url_record :=
  match base ctx with
  | Some b => if String.eqb (scheme b) "file" then Some b else None
  | None => None
  end.

Definition parse_file (ctx : url_parser_context) (c : ascii) : handled :=
  let ctx := upd_url (set_scheme "file") ctx in
  if eqc c "/" || eqc c "\" then
    let ctx := if eqc c "\" then set_validation_error true ctx else ctx in
    let ctx := set_state url_state.file_slash ctx in
    ret A.increment ctx
  else
    match base_is_file ctx with
    | Some b =>
        if is_eof ctx then
          let ctx := upd_url (set_host (host b)) ctx in
          let ctx := upd_url (set_path (path b)) ctx in
          let ctx := upd_url (set_query (query b)) ctx in
          ret A.increment ctx
        else if eqc c "?" then
          let ctx := upd_url (set_host (host b)) ctx in
          let ctx := upd_url (set_path (path b)) ctx in
          let ctx := upd_url (set_query (Some "")) ctx in
          let ctx := set_state url_state.query ctx in
          ret A.increment ctx
        else if eqc c "#" then
          let ctx := upd_url (set_host (host b)) ctx in
          let ctx := upd_url (set_path (path b)) ctx in
          let ctx := upd_url (set_query (query b)) ctx in
          let ctx := upd_url (set_fragment (Some "")) ctx in
          let ctx := set_state url_state.fragment ctx in
          ret A.increment ctx
        else
          wdl <- is_windows_drive_letter_at (view ctx) (it ctx) ;;
          let ctx :=
            if negb wdl then
              let ctx := upd_url (set_host (host b)) ctx in
              let ctx := upd_url (set_path (path b)) ctx in
              upd_url (fun u => set_path (shorten_path (scheme u) (path u)) u) ctx
            else set_validation_error true ctx in
          let ctx := decrement ctx in
          let ctx := set_state url_state.path ctx in
          ret A.increment ctx
    | None =>
        let ctx := decrement ctx in
        let ctx := set_state url_state.path ctx in
        ret A.increment ctx
    end.

Definition parse_file_slash (ctx : url_parser_context) (c : ascii) : handled :=
  if eqc c "/" || eqc c "\" then
    let ctx := if eqc c "\" then set_validation_error true ctx else ctx in
    let ctx := set_state url_state.file_host ctx in
    ret A.increment ctx
  else
    ctx <- match base_is_file ctx with
           | Some b =>
               wdl <- is_windows_drive_letter_at (view ctx) (it ctx) ;;
               if negb wdl then
                 if negb (match path b with [] => true | _ => false end) &&
                    is_windows_drive_letter (hd "" (path b))
                 then Some (upd_url (fun u => set_path (path u ++ [hd "" (path b)]) u) ctx)
                 else Some (upd_url (set_host (host b)) ctx)
               else Some ctx
           | None => Some ctx
           end ;;
    let ctx := set_state url_state.path ctx in
    let ctx := decrement ctx in
    ret A.increment ctx.

Definition parse_file_host (ctx : url_parser_context) (c : ascii) : handled :=
  if is_eof ctx || eqc c "/" || eqc c "\" || eqc c "?" || eqc c "#" then
    let ctx := decrement ctx in
    if negb (has_override ctx) && is_windows_drive_letter (buffer ctx) then
      let ctx := set_validation_error true ctx in
      let ctx := set_state url_state.path ctx in
      ret A.increment ctx
    else if empty (buffer ctx) then
      let ctx := upd_url (set_host (Some "")) ctx in
      if has_override ctx then ret A.success ctx
      else
        let ctx := set_state url_state.path_start ctx in
        ret A.increment ctx
    else
      match parse_host (buffer ctx) (negb (url_is_special (url ctx))) with
      | None => ret A.fail ctx
      | Some h =>
          let h := if String.eqb h "localhost" then "" else h in
          let ctx := upd_url (set_host (Some h)) ctx in
          if has_override ctx then ret A.success ctx
          else
            let ctx := set_buffer "" ctx in
            let ctx := set_state url_state.path_start ctx in
            ret A.increment ctx
      end
  else
    let ctx := set_buffer (push_back (buffer ctx) c) ctx in
    ret A.increment ctx.

Definition parse_path_start (ctx : url_parser_context) (c : ascii) : handled :=
  if url_is_special (url ctx) then
    let ctx := if eqc c "\" then set_validation_error true ctx else ctx in
    let ctx := set_state url_state.path ctx in
    let ctx := if negb (eqc c "/") && negb (eqc c "\") then decrement ctx else ctx in
    ret A.increment ctx
  else if negb (has_override ctx) && eqc c "?" then
    let ctx := upd_url (set_query (Some "")) ctx in
    let ctx := set_state url_state.query ctx in
    ret A.increment ctx
  else if negb (has_override ctx) && eqc c "#" then
    let ctx := upd_url (set_fragment (Some "")) ctx in
    let ctx := set_state url_state.fragment ctx in
    ret A.increment ctx
  else if negb (is_eof ctx) then
    let ctx := set_state url_state.path ctx in
    let ctx :=
      if negb (eqc c "/") then decrement ctx
      else upd_url (fun u => set_path (path u ++ [buffer ctx]) u) ctx in
    ret A.increment ctx
  else ret A.increment ctx.

(* buffer[1] = ':' *)
Definition set_second (buffer : string) (c : ascii) : string :=
  match buffer with
  | String a (String _ r) => String a (String c r)
  | _ => buffer
  end.

(* while ((path.size() > 1) && path[0].empty()), lines 1078-1081: the
   path left, and whether a segment was popped *)
Fixpoint pop_leading_empty (path : list string) : list string * bool :=
  match path with
  | p :: (_ :: _) as rest =>
      if empty p then (fst (pop_leading_empty rest), true) else (path, false)
  | _ => (path, false)
  end.

(* (c == '/') || (url.is_special() && (c == '\\')) *)
Definition is_separator (ctx : url_parser_context) (c : ascii) : bool :=
  eqc c "/" || (url_is_special (url ctx) && eqc c "\").

Definition parse_path (ctx : url_parser_context) (c : ascii) : handled :=
  if is_eof ctx || eqc c "/" || (url_is_special (url ctx) && eqc c "\") ||
     (negb (has_override ctx) && (eqc c "?" || eqc c "#")) then
    let ctx :=
      if url_is_special (url ctx) && eqc c "\" then set_validation_error true ctx
      else ctx in
    let ctx :=
      if is_double_dot_path_segment (buffer ctx) then
        let ctx := upd_url (fun u => set_path (shorten_path (scheme u) (path u)) u) ctx in
        if negb (is_separator ctx c)
        then upd_url (fun u => set_path (path u ++ [""]) u) ctx
        else ctx
      else if is_single_dot_path_segment (buffer ctx) && negb (is_separator ctx c) then
        upd_url (fun u => set_path (path u ++ [""]) u) ctx
      else if negb (is_single_dot_path_segment (buffer ctx)) then
        let ctx :=
          if String.eqb (scheme (url ctx)) "file" &&
             (match path (url ctx) with [] => true | _ => false end) &&
             is_windows_drive_letter (buffer ctx)
          then
            let ctx :=
              if match host (url ctx) with Some h => negb (empty h) | None => true end
              then upd_url (set_host (Some "")) (set_validation_error true ctx)
              else ctx in
            set_buffer (set_second (buffer ctx) ":") ctx
          else ctx in
        upd_url (fun u => set_path (path u ++ [buffer ctx]) u) ctx
      else ctx in
    let ctx := set_buffer "" ctx in
    let ctx :=
      if String.eqb (scheme (url ctx)) "file" &&
         (is_eof ctx || eqc c "?" || eqc c "#")
      then
        let '(path, popped) := pop_leading_empty (path (url ctx)) in
        let ctx := if popped then set_validation_error true ctx else ctx in
        upd_url (set_path path) ctx
      else ctx in
    let ctx :=
      if eqc c "?" then
        set_state url_state.query (upd_url (set_query (Some "")) ctx)
      else ctx in
    let ctx :=
      if eqc c "#" then
        set_state url_state.fragment (upd_url (set_fragment (Some "")) ctx)
      else ctx in
    ret A.increment ctx
  else
    let ctx := set_buffer (buffer ctx ++ pct_encode_char c path_set) ctx in
    ret A.increment ctx.

Definition parse_cannot_be_a_base_url (ctx : url_parser_context) (c : ascii) : handled :=
  if eqc c "?" then
    let ctx := upd_url (set_query (Some "")) ctx in
    let ctx := set_state url_state.query ctx in
    ret A.increment ctx
  else if eqc c "#" then
    let ctx := upd_url (set_fragment (Some "")) ctx in
    let ctx := set_state url_state.fragment ctx in
    ret A.increment ctx
  else
    ctx <- (if negb (is_eof ctx) && negb (is_url_code_point c) && negb (eqc c "%")
            then Some (set_validation_error true ctx)
            else if eqc c "%" then
              b <- is_pct_encoded (view ctx) (it ctx) ;;
              Some (if negb b then set_validation_error true ctx else ctx)
            else Some ctx) ;;
    if negb (is_eof ctx) then
      let el := pct_encode_char c "" in
      match path (url ctx) with
      | [] => None
      | p0 :: rest =>
          let ctx := upd_url (set_path ((p0 ++ el) :: rest)) ctx in
          ret A.increment ctx
      end
    else ret A.increment ctx.

Definition parse_query (ctx : url_parser_context) (c : ascii) : handled :=
  if negb (has_override ctx) && eqc c "#" then
    let ctx := upd_url (set_fragment (Some "")) ctx in
    let ctx := set_state url_state.fragment ctx in
    ret A.increment ctx
  else if negb (is_eof ctx) then
    q <- query (url ctx) ;;
    let ctx := upd_url (set_query (Some (q ++ pct_encode_char c query_set))) ctx in
    ret A.increment ctx
  else ret A.increment ctx.

Definition parse_fragment (ctx : url_parser_context) (c : ascii) : handled :=
  if eqc c NUL then
    let ctx := set_validation_error true ctx in
    ret A.increment ctx
  else
    f <- fragment (url ctx) ;;
    let ctx := upd_url (set_fragment (Some (f ++ pct_encode_char c fragment_set))) ctx in
    ret A.increment ctx.

(** ** The driver, [src/url_parse.cpp] lines 20-161 *)

(* parse_funcs[context.state] *)
Definition parse_funcs (s : url_state.t) : url_parser_context -> ascii -> handled :=
  match s with
  | url_state.scheme_start => parse_scheme_start
  | url_state.scheme => parse_scheme
  | url_state.no_scheme => parse_no_scheme
  | url_state.special_relative_or_authority => parse_special_relative_or_authority
  | url_state.path_or_authority => parse_path_or_authority
  | url_state.relative => parse_relative
  | url_state.relative_slash => parse_relative_slash
  | url_state.special_authority_slashes => parse_special_authority_slashes
  | url_state.special_authority_ignore_slashes => parse_special_authority_ignore_slashes
  | url_state.authority => parse_authority
  | url_state.host => parse_hostname
  | url_state.hostname => parse_hostname
  | url_state.port => parse_port
  | url_state.file => parse_file
  | url_state.file_slash => parse_file_slash
  | url_state.file_host => parse_file_host
  | url_state.path_start => parse_path_start
  | url_state.path => parse_path
  | url_state.cannot_be_a_base_url_path => parse_cannot_be_a_base_url
  | url_state.query => parse_query
  | url_state.fragment => parse_fragment
  end.

(** What a call of [basic_parse] comes to: the record, the parse error,
    no defined behaviour, or a loop that is still running when the fuel
    of the model is used up. *)
Inductive outcome : Set :=
| parsed (u : url_record)
| failed
| undefined
| out_of_fuel.

(** One turn of [while (true)], lines 117-137: either the next context
    or the way the loop is left. *)
Inductive turn : Set :=
| next (c : url_parser_context)
| leave (o : outcome).

Definition iterate (context : url_parser_context) : turn :=
  match deref (view context) (it context) with
  | None => leave undefined
  | Some byte =>
      match parse_funcs (state context) context byte with
      | None => leave undefined
      | Some (A.fail, _) => leave failed
      | Some (A.success, context) => leave (parsed (url context))
      | Some (A.continue_, context) => next context
      | Some (A.increment, context) =>
          if is_eof context then leave (parsed (url context))
          else next (increment context)
      end
  end.

(** The loop, with the list of the handler invocations made, each as the
    state and the index whose byte was handed over. *)
Definition invocation : Set := url_state.t * Z.

Fixpoint drive (fuel : nat) (context : url_parser_context)
  : outcome * list invocation :=
  match fuel with
  | O => (out_of_fuel, [])
  | S fuel' =>
      match deref (view context) (it context) with
      | None => (undefined, [])
      | Some _ =>
          match iterate context with
          | leave o => (o, [(state context, it context)])
          | next context' =>
              let '(o, log) := drive fuel' context' in
              (o, (state context, it context) :: log)
          end
      end
  end.

(** The fuel that the termination theorem shows to be enough. *)
Definition enough_fuel (view : string) : nat := 4 * String.length view + 32.

Definition basic_parse_log (input : string) (base url : option url_record)
  (state_override : option url_state.t) : outcome * list invocation :=
  let context := new_context input base url state_override in
  drive (enough_fuel (view context)) context.

Definition basic_parse (input : string) (base url : option url_record)
  (state_override : option url_state.t) : outcome :=
  fst (basic_parse_log input base url state_override).

(** [parse], lines 143-161: all three tests after the call return the
    same value. *)
Definition parse (input : string) (base : option url_record) : outcome :=
  basic_parse input base None None.

(** ** Serialization *)

(** Modelled from the spec: [serialize] of [skyr/url_serialize.hpp] is
    not among the sources.  Section 4.5: the scheme and a colon; with a
    host, two slashes, the credentials (the user name, a colon and the
    password when the password is not empty, an at sign) when there are
    any, the host string, a colon and the port when there is one; with
    no host and scheme file, two slashes; the path, as a slash and the
    segments joined by slashes, or as [path[0]] for a cannot-be-a-base
    record; a question mark and the query, a hash and the fragment,
    when present. *)
Definition serialize (u : url_record) : string :=
  scheme u ++ ":" ++
  (match host u with
   | Some h =>
       "//" ++
       (if includes_credentials u
        then username u ++
             (if negb (empty (password u)) then ":" ++ password u else "") ++ "@"
        else "") ++
       h ++
       (match port u with Some p => ":" ++ to_string p | None => "" end)
   | None => if String.eqb (scheme u) "file" then "//" else ""
   end) ++
  (if cannot_be_a_base_url u then hd "" (path u)
   else "/" ++ join "/" (path u)) ++
  (match query u with Some q => "?" ++ q | None => "" end) ++
  (match fragment u with Some f => "#" ++ f | None => "" end).

(** * Statements

    The notions the theorems below are stated with. *)

(** The address value of section 4.2, [numbers[n-1]] plus the sum over
    [i < n-1] of [numbers[i] * 256^(3-i)]. *)
Definition ipv4_value (numbers : list Z) : Z :=
  last numbers 0 +
  fold_right Z.add 0
    (map (fun i => nth i numbers 0 * 256 ^ (3 - Z.of_nat i))
         (seq 0 (List.length numbers - 1))).

Definition dotted_decimal (b3 b2 b1 b0 : Z) : string :=
  to_string b3 ++ "." ++ to_string b2 ++ "." ++ to_string b1 ++ "." ++ to_string b0.

(** The three spellings of a dot in a path segment. *)
Definition dot_spelling (s : string) : Prop :=
  s = "." \/ s = "%2e" \/ s = "%2E".

(** The bytes at which the path state closes a segment, lines 1046-1048. *)
Definition path_terminator (ctx : url_parser_context) (c : ascii) : bool :=
  is_eof ctx || eqc c "/" || (url_is_special (url ctx) && eqc c "\") ||
  (negb (has_override ctx) && (eqc c "?" || eqc c "#")).

(** The ASCII URL code points of section 4.6.3. *)
Definition ascii_url_code_point (c : ascii) : bool :=
  isalnum c || is_in c "!$&'()*+,-./:;=?@_~".

(** The URL code points as the claim C7 lists them. *)
Definition claimed_url_code_point (c : ascii) : bool :=
  ascii_url_code_point c || (127 <? code c).

(** Two hex digits follow the byte at [it]. *)
Definition two_hex_digits_follow (view : string) (it : Z) : bool :=
  match String.get (Z.to_nat (it + 1)) view, String.get (Z.to_nat (it + 2)) view with
  | Some h, Some l => isxdigit h && isxdigit l
  | _, _ => false
  end.

(** The context of the parser at the last byte of [a:%]. *)
Definition at_percent : url_parser_context :=
  mk_context url_state.cannot_be_a_base_url_path "a:%" 2 None
    (mk_url "a" "" "" None None [""] None None true)
    None "" false false false false.

(** The context of the parser at the end of [/b/..], relative to
    [http://a/b]: the path state, with the two dots in the buffer. *)
Definition at_double_dot : url_parser_context :=
  mk_context url_state.path "/b/.." 5 None
    (mk_url "http" "" "" (Some "a") None ["b"] None None false)
    None ".." false false false false.

(** ** The run of the driver *)

(** The states in the order the parser goes through them: every change
    of state goes down. *)
Definition rank (s : url_state.t) : Z :=
  match s with
  | url_state.scheme_start => 20
  | url_state.scheme => 19
  | url_state.no_scheme => 18
  | url_state.special_relative_or_authority => 17
  | url_state.relative => 16
  | url_state.relative_slash => 15
  | url_state.special_authority_slashes => 14
  | url_state.special_authority_ignore_slashes => 13
  | url_state.path_or_authority => 12
  | url_state.authority => 11
  | url_state.host => 10
  | url_state.hostname => 10
  | url_state.port => 9
  | url_state.file => 8
  | url_state.file_slash => 7
  | url_state.file_host => 6
  | url_state.path_start => 5
  | url_state.path => 4
  | url_state.cannot_be_a_base_url_path => 3
  | url_state.query => 2
  | url_state.fragment => 1
  end.

(** How often the input can still be rewound: by [reset] when the scheme
    states give up, by [reset] again in the no-scheme state, and by
    [restart_from_buffer] at the end of the authority. *)
Definition rewinds (s : url_state.t) : Z :=
  match s with
  | url_state.scheme_start | url_state.scheme => 3
  | url_state.no_scheme => 2
  | url_state.special_relative_or_authority | url_state.relative
  | url_state.relative_slash | url_state.special_authority_slashes
  | url_state.special_authority_ignore_slashes | url_state.path_or_authority
  | url_state.authority => 1
  | _ => 0
  end.

(** The measure of an invocation in a view of length [len]. *)
Definition measure (len : Z) (e : invocation) : Z :=
  rank (fst e) + (len + 1) * rewinds (fst e) + (len - snd e).

Definition here (ctx : url_parser_context) : invocation := (state ctx, it ctx).

(** What holds of the context whenever a handler is invoked by [parse]. *)
Definition state_wf (ctx : url_parser_context) : Prop :=
  match state ctx with
  | url_state.scheme_start | url_state.no_scheme
  | url_state.path_or_authority | url_state.special_authority_slashes
  | url_state.special_authority_ignore_slashes => buffer ctx = ""
  | url_state.special_relative_or_authority | url_state.relative
  | url_state.relative_slash => buffer ctx = "" /\ base ctx <> None
  | url_state.authority => size (buffer ctx) <= it ctx
  | url_state.query => query (url ctx) <> None
  | url_state.fragment => fragment (url ctx) <> None
  | url_state.cannot_be_a_base_url_path => path (url ctx) <> []
  | _ => True
  end.

Definition wf (ctx : url_parser_context) : Prop :=
  state_override ctx = None /\
  0 <= it ctx <= size (view ctx) /\
  state_wf ctx.

(** One turn of the loop from a well-formed context: defined, and when
    the loop goes on, well-formed again, over the same view and base,
    with a smaller measure. *)
Definition good_turn (ctx : url_parser_context) : Prop :=
  match iterate ctx with
  | leave undefined => False
  | leave out_of_fuel => False
  | leave _ => True
  | next ctx' =>
      wf ctx' /\ view ctx' = view ctx /\ base ctx' = base ctx /\
      measure (size (view ctx)) (here ctx') < measure (size (view ctx)) (here ctx)
  end.

(** The steps of the path state at a terminator, lines 1049-1093, one
    definition for each statement of the handler. *)
Definition path_mark (ctx : url_parser_context) (c : ascii) : url_parser_context :=
  if url_is_special (url ctx) && eqc c "\" then set_validation_error true ctx
  else ctx.

Definition path_segment (ctx : url_parser_context) (c : ascii) : url_parser_context :=
  if is_double_dot_path_segment (buffer ctx) then
    let ctx := upd_url (fun u => set_path (shorten_path (scheme u) (path u)) u) ctx in
    if negb (is_separator ctx c)
    then upd_url (fun u => set_path (path u ++ [""]) u) ctx
    else ctx
  else if is_single_dot_path_segment (buffer ctx) && negb (is_separator ctx c) then
    upd_url (fun u => set_path (path u ++ [""]) u) ctx
  else if negb (is_single_dot_path_segment (buffer ctx)) then
    let ctx :=
      if String.eqb (scheme (url ctx)) "file" &&
         (match path (url ctx) with [] => true | _ => false end) &&
         is_windows_drive_letter (buffer ctx)
      then
        let ctx :=
          if match host (url ctx) with Some h => negb (empty h) | None => true end
          then upd_url (set_host (Some "")) (set_validation_error true ctx)
          else ctx in
        set_buffer (set_second (buffer ctx) ":") ctx
      else ctx in
    upd_url (fun u => set_path (path u ++ [buffer ctx]) u) ctx
  else ctx.

Definition path_file_fix (ctx : url_parser_context) (c : ascii) : url_parser_context :=
  if String.eqb (scheme (url ctx)) "file" &&
     (is_eof ctx || eqc c "?" || eqc c "#")
  then
    let '(path, popped) := pop_leading_empty (path (url ctx)) in
    let ctx := if popped then set_validation_error true ctx else ctx in
    upd_url (set_path path) ctx
  else ctx.

Definition path_query (ctx : url_parser_context) (c : ascii) : url_parser_context :=
  if eqc c "?" then set_state url_state.query (upd_url (set_query (Some "")) ctx)
  else ctx.

Definition path_fragment (ctx : url_parser_context) (c : ascii) : url_parser_context :=
  if eqc c "#" then set_state url_state.fragment (upd_url (set_fragment (Some "")) ctx)
  else ctx.

(** The first four steps leave the context where it is: only the path,
    the host, the buffer and [validation_error] change, and a host that
    is present stays present. *)
Definition keeps_place (ctx ctx' : url_parser_context) : Prop :=
  state ctx' = state ctx /\ view ctx' = view ctx /\ it ctx' = it ctx /\
  base ctx' = base ctx /\ state_override ctx' = state_override ctx /\
  scheme (url ctx') = scheme (url ctx) /\
  username (url ctx') = username (url ctx) /\
  password (url ctx') = password (url ctx) /\
  port (url ctx') = port (url ctx) /\
  query (url ctx') = query (url ctx) /\
  fragment (url ctx') = fragment (url ctx) /\
  cannot_be_a_base_url (url ctx') = cannot_be_a_base_url (url ctx) /\
  (host (url ctx) <> None -> host (url ctx') <> None).

From Stdlib Require Import Sorted.

(** What a run from a well-formed context comes to: it ends, in a record
    or in the parse error; the handlers are invoked at indices of the
    view or at its end, with measures that go down from one invocation
    to the next; and more fuel changes nothing. *)
Definition run_of (ctx : url_parser_context) (o : outcome) (log : list invocation)
  : Prop :=
  (o = failed \/ exists u, o = parsed u) /\
  Z.of_nat (List.length log) <= measure (size (view ctx)) (here ctx) /\
  Forall (fun e => 0 <= snd e <= size (view ctx) /\
                   measure (size (view ctx)) e <= measure (size (view ctx)) (here ctx))
         log /\
  StronglySorted (fun a b => measure (size (view ctx)) b < measure (size (view ctx)) a)
                 log /\
  forall fuel, measure (size (view ctx)) (here ctx) <= Z.of_nat fuel ->
               drive fuel ctx = (o, log).


(** ** Sanitization *)

(** The view the constructor leaves, lines 553-557. *)
Definition sanitize (input : string) : string :=
  fst (remove_tabs_and_newlines
         (fst (remove_trailing_whitespace (fst (remove_leading_whitespace input))))).

(** The bytes that are stripped from both ends: white space of the C
    locale and the bytes of the array in [is_whitespace]. *)
Definition stripped_byte (c : ascii) : bool := isspace c || is_in c whitespace.

(** ** Invariants of the run *)

(** One turn keeps [P] on the contexts and gives [Q] on the record the
    loop is left with. *)
Definition keeps (P : url_parser_context -> Prop) (Q : url_record -> Prop)
  (ctx : url_parser_context) : Prop :=
  match iterate ctx with
  | next ctx' => P ctx'
  | leave (parsed u) => Q u
  | leave _ => True
  end.

(** No credentials and no port. *)
Definition bare (u : url_record) : Prop :=
  username u = "" /\ password u = "" /\ port u = None.

Definition base_not_file (ctx : url_parser_context) : Prop :=
  match base ctx with Some b => scheme b <> "file" | None => True end.

(** The states that fill in credentials and port are reached with a
    scheme other than [file] only; the states of a file URL are reached
    with none filled in. *)
Definition file_inv (ctx : url_parser_context) : Prop :=
  match state ctx with
  | url_state.scheme_start | url_state.scheme | url_state.no_scheme
  | url_state.file | url_state.file_slash | url_state.file_host => bare (url ctx)
  | url_state.special_relative_or_authority =>
      bare (url ctx) /\ base_not_file ctx /\ scheme (url ctx) <> "file"
  | url_state.relative => bare (url ctx) /\ base_not_file ctx
  | url_state.relative_slash | url_state.special_authority_slashes
  | url_state.special_authority_ignore_slashes | url_state.path_or_authority
  | url_state.authority | url_state.host | url_state.hostname | url_state.port =>
      scheme (url ctx) <> "file"
  | url_state.path_start | url_state.path | url_state.cannot_be_a_base_url_path
  | url_state.query | url_state.fragment =>
      bare (url ctx) \/ scheme (url ctx) <> "file"
  end.

Definition file_is_bare (u : url_record) : Prop :=
  scheme u = "file" -> bare u.

(** ** A parse without a base *)

(** The bytes of a scheme: lower-case letters, digits, [+], [-], [.]. *)
Definition scheme_char (c : ascii) : bool :=
  islower c || isdigit c || is_in c "+-.".

(** A scheme: a lower-case letter, then bytes of a scheme. *)
Definition scheme_shape (s : string) : bool :=
  match s with
  | String c r => islower c && negb (find_if (fun c => negb (scheme_char c)) r)
  | EmptyString => false
  end.

Definition digits (s : string) : bool := negb (find_if (fun c => negb (isdigit c)) s).

(** A port that is kept is below 65535 and not the default of the scheme. *)
Definition port_ok (u : url_record) : Prop :=
  match port u with
  | Some p => 0 <= p < 65535 /\ is_default_port (scheme u) p = false
  | None => True
  end.

(** A special scheme other than [file] comes with a host. *)
Definition host_ok (u : url_record) : Prop :=
  is_special (scheme u) = true -> scheme u <> "file" -> host u <> None.

(** A cannot-be-a-base-URL record: one path segment, nothing of an
    authority, a scheme that is not special. *)
Definition opaque_shape (u : url_record) : Prop :=
  List.length (path u) = 1%nat /\ host u = None /\ bare u /\
  is_special (scheme u) = false.

(** The record before the scheme is known. *)
Definition fresh (u : url_record) : Prop :=
  host u = None /\ path u = [] /\ cannot_be_a_base_url u = false /\ bare u.

Definition no_base_ok (u : url_record) : Prop :=
  scheme_shape (scheme u) = true /\
  (cannot_be_a_base_url u = true -> opaque_shape u) /\
  port_ok u /\ host_ok u.

Definition no_base_inv (ctx : url_parser_context) : Prop :=
  base ctx = None /\
  match state ctx with
  | url_state.scheme_start => fresh (url ctx)
  | url_state.scheme => fresh (url ctx) /\ scheme_shape (buffer ctx) = true
  | url_state.no_scheme | url_state.special_relative_or_authority
  | url_state.relative | url_state.relative_slash => True
  | url_state.path_or_authority =>
      scheme_shape (scheme (url ctx)) = true /\ port (url ctx) = None /\
      cannot_be_a_base_url (url ctx) = false /\ is_special (scheme (url ctx)) = false
  | url_state.special_authority_slashes | url_state.special_authority_ignore_slashes
  | url_state.authority | url_state.host | url_state.hostname =>
      scheme_shape (scheme (url ctx)) = true /\ port (url ctx) = None /\
      cannot_be_a_base_url (url ctx) = false
  | url_state.port =>
      scheme_shape (scheme (url ctx)) = true /\ port (url ctx) = None /\
      cannot_be_a_base_url (url ctx) = false /\ host (url ctx) <> None /\
      digits (buffer ctx) = true
  | url_state.file | url_state.file_slash | url_state.file_host =>
      scheme (url ctx) = "file" /\ port (url ctx) = None /\
      cannot_be_a_base_url (url ctx) = false
  | url_state.path_start | url_state.path =>
      scheme_shape (scheme (url ctx)) = true /\
      cannot_be_a_base_url (url ctx) = false /\
      port_ok (url ctx) /\ host_ok (url ctx)
  | url_state.cannot_be_a_base_url_path =>
      scheme_shape (scheme (url ctx)) = true /\
      cannot_be_a_base_url (url ctx) = true /\ opaque_shape (url ctx) /\
      port_ok (url ctx) /\ host_ok (url ctx)
  | url_state.query | url_state.fragment => no_base_ok (url ctx)
  end.

(** ** The advisory flag *)

(** The context without what [validation_error] recorded. *)
Definition forget (ctx : url_parser_context) : url_parser_context :=
  set_validation_error false ctx.

(** Two turns that differ in [validation_error] at most. *)
Definition same_turn (a b : turn) : Prop :=
  match a, b with
  | next x, next y => forget x = forget y
  | leave o, leave o' => o = o'
  | _, _ => False
  end.

(** ** Dot segments *)

(** A segment that is neither a single-dot nor a double-dot segment. *)
Definition dot_free (segment : string) : bool :=
  negb (is_single_dot_path_segment segment) &&
  negb (is_double_dot_path_segment segment).

Definition dotless (path : list string) : Prop :=
  Forall (fun segment => dot_free segment = true) path.

Definition base_dotless (base : option url_record) : Prop :=
  match base with Some b => dotless (path b) | None => True end.

(** The path of a record that can be a base holds no dot segment. *)
Definition path_ok (u : url_record) : Prop :=
  cannot_be_a_base_url u = true \/ dotless (path u).

(** The buffer that the path start state pushes is empty, and the state
    that appends to the first segment is reached with the flag set. *)
Definition dots_inv (ctx : url_parser_context) : Prop :=
  base_dotless (base ctx) /\ path_ok (url ctx) /\
  match state ctx with
  | url_state.path_start => buffer ctx = ""
  | url_state.cannot_be_a_base_url_path => cannot_be_a_base_url (url ctx) = true
  | _ => True
  end.

(** ** IPv6 pieces *)

(** A piece fits the 16 bits of an element of [ipv6_address]. *)
Definition piece_ok (p : Z) : Prop := 0 <= p < 65536.

(** The address between two turns of the loop of lines 130-235: the
    pieces below [piece_index] are written, the others are still zero. *)
Definition loop_state (address : list Z) (piece_index : Z) : Prop :=
  exists known,
    address = (known ++ repeat 0 (8 - List.length known))%list /\
    piece_index = Z.of_nat (List.length known) /\
    (List.length known <= 8)%nat /\
    Forall piece_ok known.

(** The address between two turns of the loop of lines 172-215: after an
    odd count of numbers the piece at [piece_index] holds one byte. *)
Definition ipv4_state (address : list Z) (piece_index numbers_seen : Z) : Prop :=
  exists known,
    piece_index = Z.of_nat (List.length known) /\
    Forall piece_ok known /\
    2 * piece_index + 4 - numbers_seen <= 16 /\
    (((numbers_seen = 0 \/ numbers_seen = 2 \/ numbers_seen = 4) /\
      address = (known ++ repeat 0 (8 - List.length known))%list) \/
     ((numbers_seen = 1 \/ numbers_seen = 3) /\
      exists x, 0 <= x <= 255 /\
        address = (known ++ x :: repeat 0 (7 - List.length known))%list)).

(** ** Where the scheme comes from *)

(** [s] is the text of [v] before a colon, in lower case. *)
Definition scheme_prefix (v : string) (s : string) : Prop :=
  exists pre rest, v = pre ++ String ":" rest /\ s = lower pre.

(** The scheme is spelled in the view or is the scheme of the base. *)
Definition origin (v : string) (bs : option url_record) (u : url_record) : Prop :=
  scheme_prefix v (scheme u) \/ exists b, bs = Some b /\ scheme u = scheme b.

(** While the scheme is read, the buffer is the text read so far in lower
    case. *)
Definition origin_inv (v : string) (bs : option url_record)
  (ctx : url_parser_context) : Prop :=
  view ctx = v /\ base ctx = bs /\
  match state ctx with
  | url_state.scheme_start | url_state.scheme =>
      exists pre rest, v = pre ++ rest /\ buffer ctx = lower pre /\ it ctx = size pre
  | url_state.no_scheme | url_state.relative => True
  | url_state.file =>
      scheme_prefix v "file" \/ exists b, bs = Some b /\ scheme b = "file"
  | _ => origin v bs (url ctx)
  end.

(** * Properties *)

(** ** Lists *)

Lemma removelast_len {A : Type} (l : list A) :
  List.length (removelast l) = Nat.pred (List.length l).
Proof.
  induction l as [|a [|b r] IH]; [reflexivity | reflexivity |].
  change (removelast (a :: b :: r)) with (a :: removelast (b :: r)).
  change (List.length (a :: removelast (b :: r)))
    with (S (List.length (removelast (b :: r)))).
  rewrite IH. reflexivity.
Qed.

(** ** The IPv4 parser *)

Lemma radix_digit_nonneg R c d : radix_digit R c = Some d -> 0 <= d.
Proof.
  unfold radix_digit, digit_value, isdigit, islower, isupper, in_range.
  repeat match goal with
         | |- context [if ?b then _ else _] => destruct b eqn:?
         end; intros H; inversion H; subst; lia.
Qed.

Lemma read_digits_nonneg R s : forall acc n,
  0 <= R -> 0 <= acc -> 0 <= fst (read_digits R s acc n).
Proof.
  induction s as [|c r IH]; intros acc n HR Hacc; simpl; [exact Hacc|].
  destruct (radix_digit R c) as [d|] eqn:Hd; simpl; [|exact Hacc].
  apply IH; [exact HR|]. apply radix_digit_nonneg in Hd. nia.
Qed.

Lemma stoul_nonneg s R v : 0 <= R -> stoul s R = Some v -> 0 <= v.
Proof.
  intros HR. unfold stoul, strtoul.
  set (s1 := drop_until _ s).
  destruct (match s1 with
            | String c r => if eqc c "-" then (true, r)
                            else if eqc c "+" then (false, r) else (false, s1)
            | EmptyString => (false, s1)
            end) as [neg s2].
  pose proof (read_digits_nonneg R (skip_0x R s2) 0 0 HR (Z.le_refl 0)) as Hnn.
  destruct (read_digits R (skip_0x R s2) 0 0) as [v0 n]. simpl in Hnn.
  destruct (n =? 0); [simpl; discriminate|].
  destruct (ULONG_MAX <? v0); [simpl; destruct (_ =? 0); discriminate|].
  destruct (_ =? 0); [discriminate|].
  destruct neg; intros H;
    apply (f_equal (fun o => match o with Some x => x | None => 0 end)) in H;
    cbv beta iota in H; rewrite <- H;
    [apply Z.mod_pos_bound; reflexivity | exact Hnn].
Qed.

Lemma parse_ipv4_number_nonneg part v : parse_ipv4_number part = Some v -> 0 <= v.
Proof.
  unfold parse_ipv4_number.
  repeat match goal with
         | |- context [if ?b then _ else _] => destruct b
         end; intros H;
    solve [inversion H; lia | eapply stoul_nonneg; [|exact H]; lia].
Qed.

Lemma parse_parts_numbers parts : forall numbers,
  parse_parts parts = Some numbers ->
  List.length numbers = List.length parts /\ Forall (fun x => 0 <= x) numbers.
Proof.
  induction parts as [|p r IH]; simpl; intros numbers H.
  - inversion H. split; [reflexivity | constructor].
  - destruct (empty p); [discriminate|].
    destruct (parse_ipv4_number p) as [v|] eqn:Hv; [|discriminate].
    destruct (parse_parts r) as [ns|]; [|discriminate].
    inversion H; subst. destruct (IH ns eq_refl) as [Hl Hf].
    split; [simpl; congruence | constructor; [eapply parse_ipv4_number_nonneg; eauto | exact Hf]].
Qed.


Lemma split_step_length parts ch :
  parts <> [] -> (List.length parts <= List.length (split_step parts ch))%nat
                 /\ split_step parts ch <> [].
Proof.
  intros Hne. unfold split_step. destruct (eqc ch ".").
  - rewrite length_app. simpl. split; [lia|]. destruct parts; discriminate.
  - rewrite length_app, removelast_len. simpl.
    split; [destruct parts; [congruence | simpl; lia]|].
    destruct (removelast parts); discriminate.
Qed.

Lemma fold_split_nonempty l : forall parts,
  parts <> [] -> fold_left split_step l parts <> [].
Proof.
  induction l as [|c r IH]; simpl; intros parts Hne; [exact Hne|].
  apply IH. apply split_step_length. exact Hne.
Qed.

Lemma ipv4_parts_nonempty input : ipv4_parts input <> [].
Proof.
  unfold ipv4_parts.
  assert (Hs : split_parts input <> [])
    by (apply fold_split_nonempty; discriminate).
  destruct (empty _); [|exact Hs].
  destruct (1 <? _) eqn:H1; [|exact Hs].
  apply Z.ltb_lt in H1.
  destruct (split_parts input) as [|a [|b r]]; simpl in *; try lia; try congruence.
Qed.

Lemma ipv4_fold_cases (numbers : list Z) :
  (1 <= List.length numbers <= 4)%nat ->
  Forall (fun x => 0 <= x) numbers ->
  let n := Z.of_nat (List.length numbers) in
  (ipv4_fold numbers = None <->
     Exists (fun x => 255 < x) (removelast numbers) \/
     256 ^ (5 - n) <= last numbers 0) /\
  (forall ipv4, ipv4_fold numbers = Some ipv4 ->
     ipv4 = ipv4_value numbers /\ 0 <= ipv4 < 2 ^ 32).
Proof.
  intros Hlen Hnn.
  destruct numbers as [|a [|b [|c [|d [|e r]]]]]; simpl in Hlen; try lia;
    repeat match goal with
           | H : Forall _ (_ :: _) |- _ => inversion H; subst; clear H
           end;
    unfold ipv4_fold, ipv4_value; cbn -[Z.pow Z.ltb Z.leb Z.mul Z.add];
    change (256 ^ (5 - 1)) with 4294967296;
    change (256 ^ (5 - 2)) with 16777216;
    change (256 ^ (5 - 3)) with 65536;
    change (256 ^ (5 - 4)) with 256;
    change (256 ^ (3 - 0)) with 16777216;
    change (256 ^ (3 - (0 + 1))) with 65536;
    change (256 ^ (3 - (0 + 1 + 1))) with 256;
    change (256 ^ (3 - 1)) with 65536;
    change (256 ^ (3 - 2)) with 256;
    repeat match goal with
           | |- context [?x <? ?y] => destruct (Z.ltb_spec x y)
           | |- context [?x <=? ?y] => destruct (Z.leb_spec x y)
           end; cbn -[Z.pow Z.mul Z.add];
    (split;
     [ split;
       [ first [ discriminate
               | intros _; first [ right; lia
                                 | left; repeat first [ apply Exists_cons_hd; lia
                                                      | apply Exists_cons_tl ] ] ]
       | intros [Hex | Hlast];
         [ repeat match goal with
                  | H : Exists _ (_ :: _) |- _ => inversion H; subst; clear H
                  | H : Exists _ [] |- _ => inversion H
                  end; first [ reflexivity | lia ]
         | first [ reflexivity | lia ] ] ]
     | intros ipv4 Hv; first [ discriminate | inversion Hv; subst; lia ] ]).
Qed.

(** C4, as amended: with the numbers of the parts at hand, the parse
    fails exactly when a number before the last exceeds 255 or the last
    is at least [256^(5-n)]; otherwise the address is the last number
    plus the sum of [numbers[i] * 256^(3-i)], a 32-bit value, and the
    result is its four bytes in decimal, separated by dots. *)
Theorem parse_ipv4_address_numbers (input : string) (numbers : list Z)
  (Hlen : (List.length (ipv4_parts input) <= 4)%nat)
  (Hnum : parse_parts (ipv4_parts input) = Some numbers) :
  let n := Z.of_nat (List.length numbers) in
  (parse_ipv4_address input = None <->
     Exists (fun x => 255 < x) (removelast numbers) \/
     256 ^ (5 - n) <= last numbers 0) /\
  (parse_ipv4_address input <> None ->
     0 <= ipv4_value numbers < 2 ^ 32 /\
     exists b3 b2 b1 b0,
       (0 <= b3 <= 255 /\ 0 <= b2 <= 255 /\ 0 <= b1 <= 255 /\ 0 <= b0 <= 255) /\
       ipv4_value numbers = b3 * 256 ^ 3 + b2 * 256 ^ 2 + b1 * 256 + b0 /\
       parse_ipv4_address input = Some (dotted_decimal b3 b2 b1 b0)).
Proof.
  intros n.
  destruct (parse_parts_numbers _ _ Hnum) as [Hl Hnn].
  assert (Hrange : (1 <= List.length numbers <= 4)%nat).
  { pose proof (ipv4_parts_nonempty input) as Hne.
    destruct (ipv4_parts input); [congruence | simpl in *; lia]. }
  destruct (ipv4_fold_cases numbers Hrange Hnn) as [Hiff Hval].
  unfold parse_ipv4_address. rewrite Hnum.
  replace (4 <? Z.of_nat (List.length (ipv4_parts input))) with false
    by (symmetry; apply Z.ltb_ge; lia).
  destruct (ipv4_fold numbers) as [ipv4|] eqn:Hfold.
  - destruct (Hval ipv4 eq_refl) as [Heq Hb]. split.
    + split; [discriminate|]. intros H. apply Hiff in H. discriminate.
    + intros _. rewrite <- Heq. split; [exact Hb|].
      exists (ipv4 / 256 ^ 3 mod 256), (ipv4 / 256 ^ 2 mod 256),
             (ipv4 / 256 mod 256), (ipv4 mod 256).
      change (256 ^ 3) with 16777216. change (256 ^ 2) with 65536.
      change (2 ^ 32) with 4294967296 in Hb.
      split; [|split; [|reflexivity]].
      * repeat split; Z.to_euclidean_division_equations; lia.
      * Z.to_euclidean_division_equations. lia.
  - split.
    + split; [intros _; apply Hiff; reflexivity | reflexivity].
    + intros H. congruence.
Qed.

(** The host [0x7f.1]: two parts, the numbers 127 and 1. *)
Lemma parse_ipv4_address_numbers_witness :
  (List.length (ipv4_parts "0x7f.1") <= 4)%nat /\
  parse_parts (ipv4_parts "0x7f.1") = Some [127; 1] /\
  (parse_ipv4_address "0x7f.1" = None <->
     Exists (fun x => 255 < x) (removelast [127; 1]) \/
     256 ^ (5 - Z.of_nat (List.length [127; 1])) <= last [127; 1] 0).
Proof.
  assert (Hlen : (List.length (ipv4_parts "0x7f.1") <= 4)%nat)
    by (vm_compute; repeat constructor).
  assert (Hnum : parse_parts (ipv4_parts "0x7f.1") = Some [127; 1])
    by reflexivity.
  split; [exact Hlen|]. split; [exact Hnum|].
  exact (proj1 (parse_ipv4_address_numbers "0x7f.1" [127; 1] Hlen Hnum)).
Defined.

(** C4, as the claim has it: with the single number [256^4] the last
    number does not exceed [256^(5-1)], and the parse fails all the
    same. *)
Lemma ipv4_last_number_counterexample :
  parse_parts (ipv4_parts "4294967296") = Some [4294967296] /\
  parse_ipv4_address "4294967296" = None /\
  ~ (Exists (fun x => 255 < x) (removelast [4294967296]) \/
     256 ^ (5 - 1) < last [4294967296] 0).
Proof.
  split; [reflexivity|]. split; [reflexivity|].
  intros [H | H]; [inversion H | vm_compute in H; discriminate H].
Qed.



(** C3: [std::stoul] is called with a null position, so the text after
    the digits is not looked at.  The part [4a] is the number 4, and the
    host [1.2.3.4a] is the address 1.2.3.4, where the claim has a domain. *)
Theorem parse_ipv4_number_ignores_trailing_text :
  parse_ipv4_number "4a" = Some 4 /\
  parse_ipv4_address "1.2.3.4a" = Some "1.2.3.4" /\
  parse "http://1.2.3.4a/" None =
    parsed (mk_url "http" "" "" (Some "1.2.3.4") None [""] None None false).
Proof. repeat split; vm_compute; reflexivity. Qed.

(** ** Ports *)

Lemma isdigit_radix c : isdigit c = true -> radix_digit 10 c = Some (code c - 48).
Proof.
  intros H. unfold radix_digit, digit_value. rewrite H.
  unfold isdigit, in_range in H. apply andb_prop in H. destruct H as [H1 H2].
  apply Z.leb_le in H1. apply Z.leb_le in H2.
  replace (code c - 48 <? 10) with true by (symmetry; apply Z.ltb_lt; lia).
  reflexivity.
Qed.

Lemma isdigit_not_space c : isdigit c = true -> isspace c = false.
Proof.
  unfold isdigit, isspace, in_range. intros H.
  apply andb_prop in H. destruct H as [H1 H2].
  apply Z.leb_le in H1. apply Z.leb_le in H2.
  apply orb_false_intro; [apply andb_false_intro2; apply Z.leb_gt; lia
                         | apply Z.eqb_neq; lia].
Qed.

Lemma isdigit_not_sign c :
  isdigit c = true -> eqc c "-" = false /\ eqc c "+" = false.
Proof.
  intros H. split; unfold eqc; apply Ascii.eqb_neq; intros ->; discriminate H.
Qed.

Lemma read_digits_all s : forall acc n,
  find_if (fun c => negb (isdigit c)) s = false ->
  snd (read_digits 10 s acc n) = n + size s.
Proof.
  unfold size.
  induction s as [|c r IH]; intros acc n H; simpl in *; [lia|].
  apply orb_false_elim in H. destruct H as [Hc Hr].
  apply negb_false_iff in Hc. rewrite (isdigit_radix c Hc).
  rewrite (IH _ _ Hr). lia.
Qed.

(** On a buffer of digits that is not empty, [is_valid_port] holds
    exactly for the values below 65535. *)
Lemma is_valid_port_digits (buffer : string) :
  buffer <> EmptyString ->
  find_if (fun c => negb (isdigit c)) buffer = false ->
  is_valid_port buffer = (atoi buffer <? 65535).
Proof.
  intros Hne Hall. unfold is_valid_port, strtoul, atoi.
  destruct buffer as [|c r]; [congruence|].
  pose proof Hall as Hall'. simpl in Hall'.
  apply orb_false_elim in Hall'. destruct Hall' as [Hc _].
  apply negb_false_iff in Hc.
  cbn [drop_until]. rewrite (isdigit_not_space c Hc). cbn [negb].
  destruct (isdigit_not_sign c Hc) as [-> ->].
  assert (Hskip : skip_0x 10 (String c r) = String c r).
  { unfold skip_0x. destruct r as [|x [|h t]]; reflexivity. }
  rewrite Hskip.
  pose proof (read_digits_all (String c r) 0 0 Hall) as Hn.
  pose proof (read_digits_nonneg 10 (String c r) 0 0 ltac:(lia) ltac:(lia)) as Hv.
  destruct (read_digits 10 (String c r) 0 0) as [v n]. simpl in Hn, Hv. simpl fst.
  assert (Hpos : 0 < size (String c r)) by (unfold size; simpl; lia).
  replace (n =? 0) with false by (symmetry; apply Z.eqb_neq; lia).
  unfold ULONG_MAX.
  destruct (Z.ltb_spec 18446744073709551615 v).
  - replace (size (String c r) =? size (String c r) - size (String c r) + n)
      with true by (symmetry; apply Z.eqb_eq; lia).
    replace (0 =? size (String c r) - size (String c r) + n)
      with false by (symmetry; apply Z.eqb_neq; lia).
    cbn [andb negb]. symmetry. apply Z.ltb_ge. lia.
  - replace (size (String c r) =? size (String c r) - size (String c r) + n)
      with true by (symmetry; apply Z.eqb_eq; lia).
    replace (0 =? size (String c r) - size (String c r) + n)
      with false by (symmetry; apply Z.eqb_neq; lia).
    reflexivity.
Qed.

(** C2: [is_valid_port] compares with the largest 16-bit value by [<],
    so the port 65535 is refused, where the claim accepts every value
    below [2^16]; 65534 is the largest port the parser takes. *)
Theorem port_65535_is_refused :
  is_valid_port "65535" = false /\
  parse "http://example.org:65535/" None = failed /\
  parse "http://example.org:65534/" None =
    parsed (mk_url "http" "" "" (Some "example.org") (Some 65534) [""] None None false).
Proof. repeat split; vm_compute; reflexivity. Qed.

(** ** Path segments *)

Lemma tolower_cases c :
  (tolower c = "."%char -> c = "."%char) /\
  (tolower c = "%"%char -> c = "%"%char) /\
  (tolower c = "2"%char -> c = "2"%char) /\
  (tolower c = "e"%char -> c = "e"%char \/ c = "E"%char).
Proof.
  destruct c as [b0 b1 b2 b3 b4 b5 b6 b7].
  destruct b0, b1, b2, b3, b4, b5, b6, b7; vm_compute;
    repeat split; intros H; try discriminate H; auto.
Qed.

Lemma lower_inv_cons b d r :
  lower b = String d r ->
  exists c b', b = String c b' /\ tolower c = d /\ lower b' = r.
Proof.
  destruct b as [|c b']; simpl; intros H; [discriminate|].
  inversion H. exists c, b'. auto.
Qed.

Lemma lower_inv_nil b : lower b = EmptyString -> b = EmptyString.
Proof. destruct b; simpl; [reflexivity | discriminate]. Qed.

Ltac lower_inv H :=
  repeat match type of H with
         | lower _ = String _ _ =>
             let c := fresh "c" in
             let b := fresh "b" in
             let Hc := fresh "Hc" in
             apply lower_inv_cons in H; destruct H as (c & b & -> & Hc & H)
         | lower _ = EmptyString => apply lower_inv_nil in H; subst
         end.

Ltac tolower_inv :=
  repeat match goal with
         | H : tolower ?c = "."%char |- _ =>
             apply (proj1 (tolower_cases c)) in H; subst c
         | H : tolower ?c = "%"%char |- _ =>
             apply (proj1 (proj2 (tolower_cases c))) in H; subst c
         | H : tolower ?c = "2"%char |- _ =>
             apply (proj1 (proj2 (proj2 (tolower_cases c)))) in H; subst c
         | H : tolower ?c = "e"%char |- _ =>
             apply (proj2 (proj2 (proj2 (tolower_cases c)))) in H;
             destruct H; subst c
         end.

Ltac pick_dots :=
  unfold dot_spelling;
  first [ solve [exists ".", "."; auto]
        | solve [exists ".", "%2e"; auto]
        | solve [exists ".", "%2E"; auto]
        | solve [exists "%2e", "."; auto]
        | solve [exists "%2E", "."; auto]
        | solve [exists "%2e", "%2e"; auto 6]
        | solve [exists "%2e", "%2E"; auto 6]
        | solve [exists "%2E", "%2e"; auto 6]
        | solve [exists "%2E", "%2E"; auto 6] ].

(** A double-dot segment is two dots, each spelt [.], [%2e] or [%2E]. *)
Lemma is_double_dot_path_segment_spec (segment : string) :
  is_double_dot_path_segment segment = true <->
  exists d1 d2, dot_spelling d1 /\ dot_spelling d2 /\ segment = d1 ++ d2.
Proof.
  split.
  - unfold is_double_dot_path_segment. intros H.
    repeat (apply orb_prop in H; destruct H as [H | H]);
      apply String.eqb_eq in H; lower_inv H; tolower_inv; pick_dots.
  - intros (d1 & d2 & H1 & H2 & ->).
    destruct H1 as [-> | [-> | ->]], H2 as [-> | [-> | ->]]; reflexivity.
Qed.

Lemma shorten_path_spec :
  (forall scheme, shorten_path scheme [] = []) /\
  (forall segment, is_windows_drive_letter segment = true ->
     shorten_path "file" [segment] = [segment]) /\
  (forall scheme path, path <> [] ->
     ~ (scheme = "file" /\
        exists segment, path = [segment] /\ is_windows_drive_letter segment = true) ->
     shorten_path scheme path = removelast path).
Proof.
  split; [reflexivity|]. split.
  - intros segment H. unfold shorten_path. cbn. rewrite H. reflexivity.
  - intros scheme path Hne Hnot. unfold shorten_path.
    destruct path as [|p r]; [congruence|].
    destruct (String.eqb scheme "file") eqn:Hs; [|reflexivity].
    destruct (Z.of_nat (List.length (p :: r)) =? 1) eqn:Hl; [|reflexivity].
    destruct (is_windows_drive_letter (hd "" (p :: r))) eqn:Hw; [|reflexivity].
    exfalso. apply Hnot. apply String.eqb_eq in Hs. apply Z.eqb_eq in Hl.
    split; [exact Hs|]. exists p. simpl in Hw.
    destruct r; [auto | simpl in Hl; lia].
Qed.

(** X13: at a terminator, with a double-dot segment in the buffer, the
    path state shortens the path and then pushes an empty segment exactly
    when the byte is neither a slash nor, for a special scheme, a
    backslash.  [shorten_path] leaves an empty path alone, leaves alone
    the single segment of a file URL that [is_windows_drive_letter]
    accepts, and removes the last segment otherwise.  For a file URL at
    the end of the path the leading empty segments are then popped, as
    for every segment. *)
Theorem parse_path_double_dot (ctx : url_parser_context) (c : ascii)
  (Hterm : path_terminator ctx c = true)
  (Hdots : is_double_dot_path_segment (buffer ctx) = true) :
  (exists d1 d2, dot_spelling d1 /\ dot_spelling d2 /\ buffer ctx = d1 ++ d2) /\
  (exists ctx',
     parse_path ctx c = Some (A.increment, ctx') /\
     let shortened := shorten_path (scheme (url ctx)) (path (url ctx)) in
     let pushed :=
       if eqc c "/" || (is_special (scheme (url ctx)) && eqc c "\")
       then shortened else (shortened ++ [""])%list in
     path (url ctx') =
       (if String.eqb (scheme (url ctx)) "file" &&
           (is_eof ctx || eqc c "?" || eqc c "#")
        then fst (pop_leading_empty pushed) else pushed) /\
     buffer ctx' = "") /\
  ((forall scheme, shorten_path scheme [] = []) /\
   (forall segment, is_windows_drive_letter segment = true ->
      shorten_path "file" [segment] = [segment]) /\
   (forall scheme path, path <> [] ->
      ~ (scheme = "file" /\
         exists segment, path = [segment] /\ is_windows_drive_letter segment = true) ->
      shorten_path scheme path = removelast path)).
Proof.
  split; [apply is_double_dot_path_segment_spec; exact Hdots|].
  split; [|exact shorten_path_spec].
  unfold parse_path. fold (path_terminator ctx c). rewrite Hterm.
  destruct ctx as [st vw i bs u ov bf af sf pf ve].
  destruct u as [sch un pw ho po pa qu fr cb].
  unfold path_terminator, is_separator, url_is_special, upd_url, is_eof in *.
  cbn [buffer url scheme path view it set_validation_error set_url set_path
       set_buffer set_state set_query set_fragment state_override has_override] in *.
  eexists. split.
  - reflexivity.
  - destruct (is_special sch && eqc c "\") eqn:Hbs;
      cbn [buffer url scheme path view it set_validation_error set_url set_path
           set_buffer set_state set_query set_fragment];
      rewrite Hdots;
      cbn [buffer url scheme path view it set_validation_error set_url set_path
           set_buffer set_state set_query set_fragment];
      rewrite ?Hbs;
      destruct (eqc c "/") eqn:Hsl; cbn [orb negb];
      cbn [buffer url scheme path view it set_validation_error set_url set_path
           set_buffer set_state set_query set_fragment];
      destruct (String.eqb sch "file" && ((i =? size vw) || eqc c "?" || eqc c "#")) eqn:Hf;
      cbn [buffer url scheme path view it set_validation_error set_url set_path
           set_buffer set_state set_query set_fragment];
      repeat match goal with
             | |- context [let '(_, _) := ?p in _] => destruct p eqn:?
             | |- context [if ?b then _ else _] => destruct b eqn:?
             end;
      cbn [buffer url scheme path view it set_validation_error set_url set_path
           set_buffer set_state set_query set_fragment fst];
      try (split; [reflexivity | reflexivity]);
      try match goal with
          | H : pop_leading_empty ?p = (?l, _) |- _ => rewrite H; split; reflexivity
          end.
Qed.

(** At the end of [/b/..] the segment [b] is removed and an empty one
    is pushed. *)
Lemma parse_path_double_dot_witness :
  path_terminator at_double_dot NUL = true /\
  is_double_dot_path_segment (buffer at_double_dot) = true /\
  exists ctx',
    parse_path at_double_dot NUL = Some (A.increment, ctx') /\
    path (url ctx') = [""].
Proof.
  assert (Hterm : path_terminator at_double_dot NUL = true) by reflexivity.
  assert (Hdots : is_double_dot_path_segment (buffer at_double_dot) = true)
    by reflexivity.
  split; [exact Hterm|]. split; [exact Hdots|].
  destruct (parse_path_double_dot at_double_dot NUL Hterm Hdots)
    as [_ [[ctx' [Hrun [Hpath _]]] _]].
  exists ctx'. split; [exact Hrun|]. rewrite Hpath. reflexivity.
Defined.

Lemma is_windows_drive_letter_first_two (a x : ascii) (rest : string) :
  is_windows_drive_letter (String a (String x rest)) =
  isalpha a && (eqc x ":" || eqc x "|").
Proof.
  unfold is_windows_drive_letter, is_windows_drive_letter_at.
  replace (size (String a (String x rest)) - 0 <? 2) with false
    by (symmetry; apply Z.ltb_ge; unfold size; cbn [String.length]; lia).
  change (deref (String a (String x rest)) 0) with (Some a).
  change (deref (String a (String x rest)) (0 + 1)) with (Some x).
  cbv beta iota zeta. destruct (isalpha a); reflexivity.
Qed.

(** C6: [is_windows_drive_letter] tests the first two bytes of a segment
    and nothing of its length, so [shorten_path] leaves in place every
    single segment of a file URL that begins with a letter and [:] or
    [|], whatever follows, where the claim has it pop every segment but
    the two-byte drive letter: the double-dot segment of
    [file:///C:foo/..] does not remove [C:foo], as it removes [foo] in
    [file:///foo/..]. *)
Theorem shorten_path_keeps_long_drive_segment :
  (forall (a x : ascii) (rest : string),
     is_windows_drive_letter (String a (String x rest)) =
     isalpha a && (eqc x ":" || eqc x "|")) /\
  (forall (a : ascii) (rest : string),
     shorten_path "file" [String a (String ":" rest)] =
     if isalpha a then [String a (String ":" rest)] else []) /\
  shorten_path "file" ["C:foo"] = ["C:foo"] /\
  parse "file:///C:foo/.." None =
    parsed (mk_url "file" "" "" (Some "") None ["C:foo"; ""] None None false) /\
  parse "file:///foo/.." None =
    parsed (mk_url "file" "" "" (Some "") None [""] None None false).
Proof.
  split; [exact is_windows_drive_letter_first_two|].
  split.
  - intros a rest. unfold shorten_path. cbn [hd List.length].
    rewrite is_windows_drive_letter_first_two.
    change (String.eqb "file" "file") with true.
    change (Z.of_nat 1 =? 1) with true.
    change (eqc ":" ":" || eqc ":" "|") with true.
    destruct (isalpha a); reflexivity.
  - repeat split; vm_compute; reflexivity.
Qed.

(** ** The cannot-be-a-base-URL path state *)

Lemma get_in_range (s : string) : forall n,
  (n < String.length s)%nat -> exists c, String.get n s = Some c.
Proof.
  induction s as [|a r IH]; intros n H; simpl in H; [lia|].
  destruct n as [|n]; simpl; [eauto|]. apply IH. lia.
Qed.

Lemma get_out_of_range (s : string) : forall n,
  (String.length s <= n)%nat -> String.get n s = None.
Proof.
  induction s as [|a r IH]; intros n H; simpl in H; [destruct n; reflexivity|].
  destruct n as [|n]; simpl; [lia|]. apply IH. lia.
Qed.

Lemma deref_in_range view i :
  0 <= i < size view -> deref view i = String.get (Z.to_nat i) view.
Proof.
  intros H. unfold deref.
  replace (i <? 0) with false by (symmetry; apply Z.ltb_ge; lia).
  destruct (get_in_range view (Z.to_nat i)) as [c Hc];
    [unfold size in H; lia|].
  rewrite Hc. reflexivity.
Qed.

Lemma deref_at_end view : deref view (size view) = Some NUL.
Proof.
  unfold deref.
  replace (size view <? 0) with false
    by (symmetry; apply Z.ltb_ge; unfold size; lia).
  rewrite get_out_of_range by (unfold size; lia).
  rewrite Z.eqb_refl. reflexivity.
Qed.

Lemma deref_defined view i c :
  deref view i = Some c -> 0 <= i <= size view.
Proof.
  unfold deref. destruct (Z.ltb_spec i 0); [discriminate|].
  destruct (String.get (Z.to_nat i) view) eqn:Hg.
  - intros _. split; [assumption|].
    destruct (Z.le_gt_cases i (size view)) as [|Hgt]; [assumption|].
    rewrite get_out_of_range in Hg by (unfold size in Hgt; lia). discriminate.
  - destruct (Z.eqb_spec i (size view)); [lia | discriminate].
Qed.

Lemma is_pct_encoded_percent view i :
  0 <= i < size view ->
  String.get (Z.to_nat i) view = Some "%"%char ->
  is_pct_encoded view i = Some (two_hex_digits_follow view i).
Proof.
  intros Hi Hget. unfold is_pct_encoded, two_hex_digits_follow.
  replace (i =? size view) with false by (symmetry; apply Z.eqb_neq; lia).
  rewrite (deref_in_range view i Hi), Hget. cbn [eqc Ascii.eqb Bool.eqb andb].
  change (eqc "%" "%") with true. cbv iota.
  destruct (Z.eqb_spec (i + 1) (size view)) as [E1 | N1]; cbn [negb].
  - rewrite (get_out_of_range view (Z.to_nat (i + 1)))
      by (unfold size in E1; lia).
    reflexivity.
  - rewrite (deref_in_range view (i + 1)) by lia.
    destruct (get_in_range view (Z.to_nat (i + 1))) as [c1 Hc1];
      [unfold size in *; lia|].
    rewrite Hc1. destruct (isxdigit c1) eqn:Hx1.
    + destruct (Z.eqb_spec (i + 2) (size view)) as [E2 | N2]; cbn [negb].
      * rewrite (get_out_of_range view (Z.to_nat (i + 2)))
          by (unfold size in E2; lia).
        reflexivity.
      * rewrite (deref_in_range view (i + 2)) by lia.
        destruct (get_in_range view (Z.to_nat (i + 2))) as [c2 Hc2];
          [unfold size in *; lia|].
        rewrite Hc2. reflexivity.
    + destruct (String.get (Z.to_nat (i + 2)) view); reflexivity.
Qed.

(** Apart from the semicolon, the code points of [is_url_code_point] are
    the ASCII URL code points. *)
Lemma is_url_code_point_ascii (c : ascii) :
  c <> ";"%char -> is_url_code_point c = ascii_url_code_point c.
Proof.
  destruct c as [b0 b1 b2 b3 b4 b5 b6 b7].
  destruct b0, b1, b2, b3, b4, b5, b6, b7; intros H;
    first [ reflexivity | exfalso; apply H; reflexivity ].
Qed.

Lemma eqc_false (a b : ascii) : a <> b -> eqc a b = false.
Proof. intros H. apply Ascii.eqb_neq. exact H. Qed.

Lemma eqc_true (a b : ascii) : eqc a b = true -> a = b.
Proof. apply Ascii.eqb_eq. Qed.

(** C7, as amended: a byte of the input other than [?], [#] and [;]
    sets [validation_error] exactly when it is neither [%] nor an ASCII
    URL code point (so every byte above 0x7F sets it), or when it is a
    [%] that two hex digits do not follow; in every case it is
    percent-encoded and appended to [path[0]]. *)
Theorem parse_cannot_be_a_base_url_byte (ctx : url_parser_context) (c : ascii)
  (p0 : string) (rest : list string)
  (Hbyte : deref (view ctx) (it ctx) = Some c)
  (Hnot_eof : is_eof ctx = false)
  (Hpath : path (url ctx) = p0 :: rest)
  (Hq : c <> "?"%char) (Hh : c <> "#"%char) (Hsemi : c <> ";"%char) :
  exists ctx',
    parse_cannot_be_a_base_url ctx c = Some (A.increment, ctx') /\
    validation_error ctx' =
      (validation_error ctx ||
       (negb (eqc c "%") && negb (ascii_url_code_point c)) ||
       (eqc c "%" && negb (two_hex_digits_follow (view ctx) (it ctx)))) /\
    path (url ctx') = (p0 ++ pct_encode_char c "") :: rest /\
    state ctx' = state ctx.
Proof.
  destruct ctx as [st vw i bs u ov bf af sf pf ve].
  destruct u as [sch un pw ho po pa qu fr cb].
  unfold is_eof in *. cbn [view it url path validation_error state] in *. subst pa.
  pose proof (deref_defined _ _ _ Hbyte) as Hrange.
  apply Z.eqb_neq in Hnot_eof.
  assert (Hi : 0 <= i < size vw) by lia.
  rewrite (deref_in_range _ _ Hi) in Hbyte.
  unfold parse_cannot_be_a_base_url.
  rewrite (eqc_false _ _ Hq), (eqc_false _ _ Hh).
  rewrite (is_url_code_point_ascii c Hsemi).
  unfold is_eof. cbn [view it].
  assert (Hneq : (i =? size vw) = false) by (apply Z.eqb_neq; lia).
  rewrite Hneq. cbn [negb andb].
  destruct (eqc c "%") eqn:Hpct.
  - apply eqc_true in Hpct. subst c.
    rewrite andb_false_r. cbn [view it].
    rewrite (is_pct_encoded_percent _ _ Hi Hbyte).
    destruct (two_hex_digits_follow vw i);
      cbn -[size Z.eqb pct_encode_char]; rewrite Hneq;
      cbn -[size Z.eqb pct_encode_char];
      eexists; (split; [reflexivity|]);
      repeat split; destruct ve; reflexivity.
  - cbn [negb andb]. rewrite orb_false_r.
    destruct (ascii_url_code_point c);
      cbn -[size Z.eqb pct_encode_char]; rewrite Hneq;
      cbn -[size Z.eqb pct_encode_char];
      eexists; (split; [reflexivity|]);
      repeat split; destruct ve; reflexivity.
Qed.

(** A byte above 0x7F in [a:] followed by the byte 0xE9. *)
Lemma parse_cannot_be_a_base_url_byte_witness :
  exists ctx',
    parse_cannot_be_a_base_url
      (mk_context url_state.cannot_be_a_base_url_path
         (String "a" (String ":" (String "233" ""))) 2 None
         (mk_url "a" "" "" None None [""] None None true)
         None "" false false false false) "233" = Some (A.increment, ctx') /\
    validation_error ctx' = true /\
    path (url ctx') = ["%E9"].
Proof.
  destruct (parse_cannot_be_a_base_url_byte
              (mk_context url_state.cannot_be_a_base_url_path
                 (String "a" (String ":" (String "233" ""))) 2 None
                 (mk_url "a" "" "" None None [""] None None true)
                 None "" false false false false) "233" "" [])
    as [ctx' [Hrun [Hve [Hpath _]]]];
    try reflexivity; try discriminate.
  exists ctx'. split; [exact Hrun|]. split; [rewrite Hve | rewrite Hpath]; reflexivity.
Defined.

(** C7, as the claim has it: the byte [%] of [a:%] is a [%], and it sets
    [validation_error] all the same, because no two hex digits follow. *)
Lemma percent_sets_validation_error_counterexample :
  is_eof at_percent = false /\
  deref (view at_percent) (it at_percent) = Some "%"%char /\
  validation_error at_percent = false /\
  exists ctx',
    parse_cannot_be_a_base_url at_percent "%" = Some (A.increment, ctx') /\
    validation_error ctx' = true /\
    path (url ctx') = ["%"].
Proof.
  repeat split. eexists. split; [reflexivity|]. split; reflexivity.
Qed.

(** * The run of the driver *)

(** ** Reads stay inside the storage *)

Lemma deref_some view i : 0 <= i <= size view -> exists c, deref view i = Some c.
Proof.
  intros H. destruct (Z.eq_dec i (size view)) as [-> | N].
  - exists NUL. apply deref_at_end.
  - rewrite deref_in_range by lia.
    apply get_in_range. unfold size in *. lia.
Qed.

Lemma deref_not_nul view i c :
  deref view i = Some c -> c <> NUL -> 0 <= i < size view.
Proof.
  intros H Hc. pose proof (deref_defined _ _ _ H) as Hr.
  destruct (Z.eq_dec i (size view)) as [-> | N]; [|lia].
  rewrite deref_at_end in H. congruence.
Qed.

Lemma starts_with_from_defined view chars : forall pos,
  is_in NUL chars = false ->
  0 <= pos <= size view ->
  exists b, starts_with_from (deref view) (size view) pos chars = Some b.
Proof.
  induction chars as [|ch rest IH]; intros pos Hnul Hpos; simpl; [eauto|].
  simpl in Hnul. apply orb_false_elim in Hnul. destruct Hnul as [Hch Hrest].
  destruct (deref_some view pos Hpos) as [c Hc]. rewrite Hc.
  destruct (eqc c ch) eqn:E; cbn [negb]; [|eauto].
  destruct (pos + 1 =? size view) eqn:E1; [eauto|].
  apply IH; [exact Hrest|].
  apply eqc_true in E. subst ch.
  assert (c <> NUL) by (intros ->; discriminate Hch).
  pose proof (deref_not_nul _ _ _ Hc H). lia.
Qed.

Lemma starts_with_from_true view chars pos :
  chars <> EmptyString ->
  is_in NUL chars = false ->
  starts_with_from (deref view) (size view) pos chars = Some true ->
  0 <= pos < size view.
Proof.
  destruct chars as [|ch rest]; [congruence|]. intros _ Hnul. simpl.
  simpl in Hnul. apply orb_false_elim in Hnul. destruct Hnul as [Hch _].
  destruct (deref view pos) as [c|] eqn:Hc; [|discriminate].
  destruct (eqc c ch) eqn:E; cbn [negb]; [|discriminate].
  intros _. apply eqc_true in E. subst ch.
  apply (deref_not_nul _ _ _ Hc). intros ->. discriminate Hch.
Qed.

Lemma lookahead_defined ctx chars :
  is_in NUL chars = false ->
  -1 <= it ctx < size (view ctx) ->
  lookahead ctx chars <> None.
Proof.
  intros Hnul Hit. unfold lookahead, remaining_starts_with.
  destruct (starts_with_from_defined (view ctx) chars (it ctx + 1) Hnul) as [b Hb];
    [lia | congruence].
Qed.

Lemma lookahead_true ctx chars :
  chars <> EmptyString ->
  is_in NUL chars = false ->
  lookahead ctx chars = Some true ->
  it ctx + 1 < size (view ctx).
Proof.
  intros Hne Hnul H. unfold lookahead, remaining_starts_with in H.
  apply starts_with_from_true in H; [lia | exact Hne | exact Hnul].
Qed.

Lemma is_windows_drive_letter_at_defined view i :
  0 <= i -> is_windows_drive_letter_at view i <> None.
Proof.
  intros Hi. unfold is_windows_drive_letter_at.
  destruct (Z.ltb_spec (size view - i) 2); [discriminate|].
  destruct (deref_some view i) as [c0 H0]; [lia|]. rewrite H0.
  destruct (negb (isalpha c0)); [discriminate|].
  destruct (deref_some view (i + 1)) as [c1 H1]; [lia|]. rewrite H1.
  discriminate.
Qed.

Lemma is_pct_encoded_defined view i :
  0 <= i <= size view -> is_pct_encoded view i <> None.
Proof.
  intros Hi. unfold is_pct_encoded.
  destruct (Z.eqb_spec i (size view)); [discriminate|].
  destruct (deref_some view i) as [c0 H0]; [lia|]. rewrite H0.
  destruct (eqc c0 "%"); [|discriminate].
  destruct (Z.eqb_spec (i + 1) (size view)); cbn [negb]; [discriminate|].
  destruct (deref_some view (i + 1)) as [c1 H1]; [lia|]. rewrite H1.
  destruct (isxdigit c1); [|discriminate].
  destruct (Z.eqb_spec (i + 2) (size view)); cbn [negb]; [discriminate|].
  destruct (deref_some view (i + 2)) as [c2 H2]; [lia|]. rewrite H2.
  discriminate.
Qed.

(** ** What the loops inside the handlers leave alone *)

Lemma authority_loop_shape buffer : forall ctx,
  exists un pw fl,
    authority_loop buffer ctx =
    set_password_token_seen_flag fl
      (set_url (set_password pw (set_username un (url ctx))) ctx).
Proof.
  induction buffer as [|c rest IH]; intros ctx; simpl.
  - exists (username (url ctx)), (password (url ctx)), (password_token_seen_flag ctx).
    destruct ctx as [st vw i bs u ov bf af sf pf ve]. destruct u. reflexivity.
  - destruct (eqc c ":" && negb (password_token_seen_flag ctx)).
    + destruct (IH (set_password_token_seen_flag true ctx)) as (un & pw & fl & ->).
      exists un, pw, fl.
      destruct ctx as [st vw i bs u ov bf af sf pf ve]. destruct u. reflexivity.
    + destruct (password_token_seen_flag ctx) eqn:Hf.
      * destruct (IH (upd_url (fun u => set_password
                                  (password u ++ pct_encode_char c userinfo_set) u) ctx))
          as (un & pw & fl & ->).
        exists un, pw, fl.
        destruct ctx as [st vw i bs u ov bf af sf pf ve]. destruct u. reflexivity.
      * destruct (IH (upd_url (fun u => set_username
                                  (username u ++ pct_encode_char c userinfo_set) u) ctx))
          as (un & pw & fl & ->).
        exists un, pw, fl.
        destruct ctx as [st vw i bs u ov bf af sf pf ve]. destruct u. reflexivity.
Qed.

(** ** One turn of the loop *)

Lemma append_length (s t : string) :
  String.length (s ++ t) = (String.length s + String.length t)%nat.
Proof. induction s as [|a r IH]; simpl; [reflexivity | rewrite IH; reflexivity]. Qed.

Lemma push_back_length (s : string) (c : ascii) :
  String.length (push_back s c) = S (String.length s).
Proof. unfold push_back. rewrite append_length. simpl. lia. Qed.

Ltac ctx_simpl :=
  cbv [state view it base url state_override buffer at_flag square_braces_flag
       password_token_seen_flag validation_error
       set_state set_it set_url set_buffer set_at_flag set_square_braces_flag
       set_password_token_seen_flag set_validation_error upd_url
       has_override is_eof increment decrement reset restart_from_buffer ret
       scheme username password host port path query fragment cannot_be_a_base_url
       set_scheme set_username set_password set_host set_port set_path set_query
       set_fragment set_cannot_be_a_base_url inherit_authority url_is_special
       here fst snd negb andb orb] in *.

Ltac break_step :=
  match goal with
  | |- context [authority_loop ?b ?c] =>
      let un := fresh "un" in
      let pw := fresh "pw" in
      let fl := fresh "fl" in
      destruct (authority_loop_shape b c) as (un & pw & fl & ->)
  | |- context [match ?x with _ => _ end] =>
      lazymatch x with
      | context [match _ with _ => _ end] => fail
      | _ => destruct x eqn:?
      end
  end.

Ltac bool_to_prop :=
  repeat match goal with
         | H : (_ =? _) = true |- _ => apply Z.eqb_eq in H
         | H : (_ =? _) = false |- _ => apply Z.eqb_neq in H
         | H : eqc ?c _ = true |- _ => apply eqc_true in H; subst c
         end.

Ltac storage_facts :=
  repeat match goal with
         | H : deref ?v ?i = Some ?c |- _ =>
             lazymatch goal with
             | _ : 0 <= i < size v |- _ => fail
             | _ => idtac
             end;
             assert (0 <= i < size v)
               by (apply (deref_not_nul v i c H); discriminate)
         | H : lookahead ?ctx ?chars = Some true |- _ =>
             apply lookahead_true in H; [ctx_simpl | discriminate | reflexivity]
         | H : lookahead ?ctx ?chars = None |- _ =>
             exfalso; revert H; apply lookahead_defined; [reflexivity | ctx_simpl; lia]
         | H : is_windows_drive_letter_at ?v ?i = None |- _ =>
             exfalso; revert H; apply is_windows_drive_letter_at_defined; lia
         | H : is_pct_encoded ?v ?i = None |- _ =>
             exfalso; revert H; apply is_pct_encoded_defined; lia
         end.

Ltac turn_finish :=
  ctx_simpl; bool_to_prop; storage_facts;
  repeat match goal with
         | H : _ /\ _ |- _ => destruct H
         end;
  subst;
  try exact I;
  try solve [exfalso; congruence];
  try solve [exfalso; intuition congruence];
  try (unfold wf, state_wf, measure; ctx_simpl; cbn [rank rewinds];
       unfold size in *; rewrite ?push_back_length in *; cbn [String.length] in *;
       repeat split; intros; try assumption; try congruence; try lia;
       try match goal with
           | |- (?l ++ _ :: _)%list <> [] => destruct l; discriminate
           | |- _ <> _ => discriminate
           end).

Ltac turn_start :=
  intros [Hov [Hit Hwf]];
  match goal with
  | |- good_turn ?ctx =>
      destruct ctx as [st vw i bs u ov bf af sf pf ve];
      destruct u as [sch un pw ho po pa qu fr cb]
  end;
  cbn [state view it base url state_override buffer] in *; subst;
  unfold state_wf in Hwf; ctx_simpl;
  match goal with
  | H : 0 <= ?i <= size ?vw |- _ =>
      let c := fresh "c" in
      let Hc := fresh "Hc" in
      destruct (deref_some vw i H) as [c Hc];
      unfold good_turn, iterate; cbn [view it state]; rewrite Hc; cbn [parse_funcs]
  end.

Lemma good_turn_scheme_start ctx :
  state ctx = url_state.scheme_start -> wf ctx -> good_turn ctx.
Proof.
  intros Hs. turn_start. unfold parse_scheme_start. ctx_simpl.
  repeat (break_step; ctx_simpl); turn_finish.
Qed.

Lemma good_turn_scheme ctx :
  state ctx = url_state.scheme -> wf ctx -> good_turn ctx.
Proof.
  intros Hs. turn_start. unfold parse_scheme. ctx_simpl.
  repeat (break_step; ctx_simpl); turn_finish.
Qed.

Lemma good_turn_no_scheme ctx :
  state ctx = url_state.no_scheme -> wf ctx -> good_turn ctx.
Proof.
  intros Hs. turn_start. unfold parse_no_scheme, authority_end, is_separator, base_is_file. ctx_simpl.
  repeat (break_step; ctx_simpl); turn_finish.
Qed.

Lemma good_turn_special_relative_or_authority ctx :
  state ctx = url_state.special_relative_or_authority -> wf ctx -> good_turn ctx.
Proof.
  intros Hs. turn_start. unfold parse_special_relative_or_authority, authority_end, is_separator, base_is_file. ctx_simpl.
  repeat (break_step; ctx_simpl); turn_finish.
Qed.

Lemma good_turn_path_or_authority ctx :
  state ctx = url_state.path_or_authority -> wf ctx -> good_turn ctx.
Proof.
  intros Hs. turn_start. unfold parse_path_or_authority, authority_end, is_separator, base_is_file. ctx_simpl.
  repeat (break_step; ctx_simpl); turn_finish.
Qed.

Lemma good_turn_relative ctx :
  state ctx = url_state.relative -> wf ctx -> good_turn ctx.
Proof.
  intros Hs. turn_start. unfold parse_relative, authority_end, is_separator, base_is_file. ctx_simpl.
  repeat (break_step; ctx_simpl); turn_finish.
Qed.

Lemma good_turn_relative_slash ctx :
  state ctx = url_state.relative_slash -> wf ctx -> good_turn ctx.
Proof.
  intros Hs. turn_start. unfold parse_relative_slash, authority_end, is_separator, base_is_file. ctx_simpl.
  repeat (break_step; ctx_simpl); turn_finish.
Qed.

Lemma good_turn_special_authority_slashes ctx :
  state ctx = url_state.special_authority_slashes -> wf ctx -> good_turn ctx.
Proof.
  intros Hs. turn_start. unfold parse_special_authority_slashes, authority_end, is_separator, base_is_file. ctx_simpl.
  repeat (break_step; ctx_simpl); turn_finish.
Qed.

Lemma good_turn_special_authority_ignore_slashes ctx :
  state ctx = url_state.special_authority_ignore_slashes -> wf ctx -> good_turn ctx.
Proof.
  intros Hs. turn_start. unfold parse_special_authority_ignore_slashes, authority_end, is_separator, base_is_file. ctx_simpl.
  repeat (break_step; ctx_simpl); turn_finish.
Qed.

Lemma good_turn_authority ctx :
  state ctx = url_state.authority -> wf ctx -> good_turn ctx.
Proof.
  intros Hs. turn_start. unfold parse_authority, authority_end, is_separator, base_is_file. ctx_simpl.
  repeat (break_step; ctx_simpl); turn_finish.
Qed.

Lemma good_turn_host ctx :
  state ctx = url_state.host -> wf ctx -> good_turn ctx.
Proof.
  intros Hs. turn_start. unfold parse_hostname, authority_end, is_separator, base_is_file. ctx_simpl.
  repeat (break_step; ctx_simpl); turn_finish.
Qed.

Lemma good_turn_hostname ctx :
  state ctx = url_state.hostname -> wf ctx -> good_turn ctx.
Proof.
  intros Hs. turn_start. unfold parse_hostname, authority_end, is_separator, base_is_file. ctx_simpl.
  repeat (break_step; ctx_simpl); turn_finish.
Qed.

Lemma good_turn_port ctx :
  state ctx = url_state.port -> wf ctx -> good_turn ctx.
Proof.
  intros Hs. turn_start. unfold parse_port, authority_end, is_separator, base_is_file. ctx_simpl.
  repeat (break_step; ctx_simpl); turn_finish.
Qed.

Lemma good_turn_file ctx :
  state ctx = url_state.file -> wf ctx -> good_turn ctx.
Proof.
  intros Hs. turn_start. unfold parse_file, authority_end, is_separator, base_is_file. ctx_simpl.
  repeat (break_step; ctx_simpl); turn_finish.
Qed.

Lemma good_turn_file_slash ctx :
  state ctx = url_state.file_slash -> wf ctx -> good_turn ctx.
Proof.
  intros Hs. turn_start. unfold parse_file_slash, authority_end, is_separator, base_is_file. ctx_simpl.
  repeat (break_step; ctx_simpl); turn_finish.
Qed.

Lemma good_turn_file_host ctx :
  state ctx = url_state.file_host -> wf ctx -> good_turn ctx.
Proof.
  intros Hs. turn_start. unfold parse_file_host, authority_end, is_separator, base_is_file. ctx_simpl.
  repeat (break_step; ctx_simpl); turn_finish.
Qed.

Lemma good_turn_path_start ctx :
  state ctx = url_state.path_start -> wf ctx -> good_turn ctx.
Proof.
  intros Hs. turn_start. unfold parse_path_start, authority_end, is_separator, base_is_file. ctx_simpl.
  repeat (break_step; ctx_simpl); turn_finish.
Qed.

Lemma parse_path_steps ctx c :
  parse_path ctx c =
  if path_terminator ctx c then
    ret A.increment
      (path_fragment
         (path_query
            (path_file_fix
               (set_buffer "" (path_segment (path_mark ctx c) c)) c) c) c)
  else ret A.increment (set_buffer (buffer ctx ++ pct_encode_char c path_set) ctx).
Proof. reflexivity. Qed.

Lemma keeps_place_refl ctx : keeps_place ctx ctx.
Proof. unfold keeps_place. repeat split; auto. Qed.

Lemma keeps_place_trans a b c :
  keeps_place a b -> keeps_place b c -> keeps_place a c.
Proof.
  unfold keeps_place. intros H1 H2.
  repeat match goal with H : _ /\ _ |- _ => destruct H end.
  repeat split; try congruence. auto.
Qed.

Ltac keeps_place_tac :=
  match goal with
  | |- keeps_place ?ctx _ =>
      destruct ctx as [st vw i bs u ov bf af sf pf ve];
      destruct u as [sch un pw ho po pa qu fr cb]
  end;
  unfold keeps_place; ctx_simpl;
  repeat (break_step; ctx_simpl);
  repeat split; try reflexivity; try congruence.

Lemma path_mark_keeps ctx c : keeps_place ctx (path_mark ctx c).
Proof. unfold path_mark. keeps_place_tac. Qed.

Lemma path_segment_keeps ctx c : keeps_place ctx (path_segment ctx c).
Proof. unfold path_segment, is_separator. keeps_place_tac. Qed.

Lemma set_buffer_keeps ctx b : keeps_place ctx (set_buffer b ctx).
Proof. keeps_place_tac. Qed.

Lemma path_file_fix_keeps ctx c : keeps_place ctx (path_file_fix ctx c).
Proof. unfold path_file_fix. keeps_place_tac. Qed.

Lemma path_steps_keep ctx c :
  keeps_place ctx
    (path_file_fix (set_buffer "" (path_segment (path_mark ctx c) c)) c) /\
  buffer (path_file_fix (set_buffer "" (path_segment (path_mark ctx c) c)) c) = "".
Proof.
  split.
  - eapply keeps_place_trans; [apply path_mark_keeps|].
    eapply keeps_place_trans; [apply path_segment_keeps|].
    eapply keeps_place_trans; [apply set_buffer_keeps|].
    apply path_file_fix_keeps.
  - generalize (path_segment (path_mark ctx c) c). intros d.
    unfold path_file_fix.
    destruct d as [st vw i bs u ov bf af sf pf ve].
    destruct u as [sch un pw ho po pa qu fr cb]. ctx_simpl.
    repeat (break_step; ctx_simpl); reflexivity.
Qed.

Lemma good_turn_path ctx :
  state ctx = url_state.path -> wf ctx -> good_turn ctx.
Proof.
  intros Hs [Hov [Hit Hwf]].
  destruct (deref_some _ _ Hit) as [c Hc].
  unfold good_turn, iterate. rewrite Hc, Hs. cbn [parse_funcs].
  rewrite parse_path_steps.
  destruct (path_terminator ctx c).
  - destruct (path_steps_keep ctx c) as [Hk Hb].
    revert Hk Hb.
    generalize (path_file_fix (set_buffer "" (path_segment (path_mark ctx c) c)) c).
    intros d Hk Hb. unfold keeps_place in Hk.
    destruct ctx as [st vw i bs u ov bf af sf pf ve].
    destruct u as [sch un pw ho po pa qu fr cb].
    destruct d as [st' vw' i' bs' u' ov' bf' af' sf' pf' ve'].
    destruct u' as [sch' un' pw' ho' po' pa' qu' fr' cb'].
    unfold path_query, path_fragment. ctx_simpl.
    repeat match goal with H : _ /\ _ |- _ => destruct H end. subst.
    repeat (break_step; ctx_simpl); turn_finish.
  - destruct ctx as [st vw i bs u ov bf af sf pf ve].
    destruct u as [sch un pw ho po pa qu fr cb]. ctx_simpl. subst.
    repeat (break_step; ctx_simpl); turn_finish.
Qed.

Lemma good_turn_cannot_be_a_base_url_path ctx :
  state ctx = url_state.cannot_be_a_base_url_path -> wf ctx -> good_turn ctx.
Proof.
  intros Hs. turn_start. unfold parse_cannot_be_a_base_url, authority_end, is_separator, base_is_file. ctx_simpl.
  repeat (break_step; ctx_simpl); turn_finish.
Qed.

Lemma good_turn_query ctx :
  state ctx = url_state.query -> wf ctx -> good_turn ctx.
Proof.
  intros Hs. turn_start. unfold parse_query, authority_end, is_separator, base_is_file. ctx_simpl.
  repeat (break_step; ctx_simpl); turn_finish.
Qed.

Lemma good_turn_fragment ctx :
  state ctx = url_state.fragment -> wf ctx -> good_turn ctx.
Proof.
  intros Hs. turn_start. unfold parse_fragment, authority_end, is_separator, base_is_file. ctx_simpl.
  repeat (break_step; ctx_simpl); turn_finish.
Qed.

Lemma good_turn_always ctx : wf ctx -> good_turn ctx.
Proof.
  intros H. destruct (state ctx) eqn:Hs;
    [ apply good_turn_scheme_start | apply good_turn_scheme | apply good_turn_no_scheme
    | apply good_turn_special_relative_or_authority | apply good_turn_path_or_authority
    | apply good_turn_relative | apply good_turn_relative_slash
    | apply good_turn_special_authority_slashes
    | apply good_turn_special_authority_ignore_slashes | apply good_turn_authority
    | apply good_turn_host | apply good_turn_hostname | apply good_turn_port
    | apply good_turn_file | apply good_turn_file_slash | apply good_turn_file_host
    | apply good_turn_path_start | apply good_turn_path
    | apply good_turn_cannot_be_a_base_url_path | apply good_turn_query
    | apply good_turn_fragment ]; assumption.
Qed.

Lemma measure_positive ctx :
  wf ctx -> 1 <= measure (size (view ctx)) (here ctx).
Proof.
  intros [_ [Hit _]]. unfold measure, here. cbn [fst snd].
  assert (1 <= rank (state ctx)) by (destruct (state ctx); cbn; lia).
  assert (0 <= rewinds (state ctx)) by (destruct (state ctx); cbn; lia).
  nia.
Qed.

(** ** The whole run *)

Lemma drive_runs (n : nat) : forall ctx,
  wf ctx -> measure (size (view ctx)) (here ctx) <= Z.of_nat n ->
  exists o log, run_of ctx o log.
Proof.
  induction n as [|n IH]; intros ctx Hwf Hm.
  - pose proof (measure_positive ctx Hwf). lia.
  - pose proof (good_turn_always ctx Hwf) as Hturn.
    pose proof (measure_positive ctx Hwf) as Hpos.
    pose proof Hwf as [_ [Hit _]].
    destruct (deref_some _ _ Hit) as [c Hc].
    unfold good_turn in Hturn.
    destruct (iterate ctx) as [ctx' | o] eqn:Hi.
    + destruct Hturn as (Hwf' & Hv & Hb & Hlt).
      destruct (IH ctx' Hwf') as (o & log & Hrun); [rewrite Hv; lia|].
      destruct Hrun as (Ho & Hlen & Hall & Hsorted & Hfuel).
      rewrite Hv in *.
      exists o, (here ctx :: log). unfold run_of. repeat split.
      * exact Ho.
      * cbn [List.length]. lia.
      * constructor.
        -- cbn [here snd]. split; [exact Hit | lia].
        -- eapply Forall_impl; [|exact Hall]. cbv beta. intros e [He1 He2].
           split; [exact He1 | lia].
      * constructor; [exact Hsorted|].
        eapply Forall_impl; [|exact Hall]. cbv beta. intros e [_ He]. lia.
      * intros fuel Hf. destruct fuel as [|fuel]; [lia|].
        cbn [drive]. rewrite Hc, Hi. rewrite Hfuel by lia. reflexivity.
    + exists o, [here ctx]. unfold run_of. repeat split.
      * destruct o; try contradiction; [right; eauto | left; reflexivity].
      * cbn [List.length]. lia.
      * constructor; [|constructor]. cbn [here snd]. split; [exact Hit | lia].
      * constructor; constructor.
      * intros fuel Hf. destruct fuel as [|fuel]; [lia|].
        cbn [drive]. rewrite Hc, Hi. reflexivity.
Qed.

(** ** Sanitization *)

Lemma view_new_context input base url state_override :
  view (new_context input base url state_override) = sanitize input.
Proof. reflexivity. Qed.

Lemma drop_until_length p s :
  (String.length (drop_until p s) <= String.length s)%nat.
Proof. induction s as [|c r IH]; simpl; [lia|]. destruct (p c); simpl; lia. Qed.

Lemma remove_if_length p s :
  (String.length (remove_if p s) <= String.length s)%nat.
Proof. induction s as [|c r IH]; simpl; [lia|]. destruct (p c); simpl; lia. Qed.

Lemma string_of_list_length l :
  String.length (string_of_list_ascii l) = List.length l.
Proof. induction l; simpl; congruence. Qed.

Lemma list_of_string_length s :
  List.length (list_ascii_of_string s) = String.length s.
Proof. induction s; simpl; congruence. Qed.

Lemma reverse_length s : String.length (reverse s) = String.length s.
Proof.
  unfold reverse. rewrite string_of_list_length, length_rev.
  apply list_of_string_length.
Qed.

Lemma reverse_involutive s : reverse (reverse s) = s.
Proof.
  unfold reverse. rewrite list_ascii_of_string_of_list_ascii, rev_involutive.
  apply string_of_list_ascii_of_string.
Qed.

Lemma sanitize_length input :
  (String.length (sanitize input) <= String.length input)%nat.
Proof.
  unfold sanitize, remove_tabs_and_newlines, remove_trailing_whitespace,
    remove_leading_whitespace. cbn [fst].
  pose proof (remove_if_length is_tab_or_newline
                (reverse (drop_until is_whitespace
                            (reverse (drop_until is_whitespace input))))).
  rewrite reverse_length in H.
  pose proof (drop_until_length is_whitespace
                (reverse (drop_until is_whitespace input))).
  rewrite reverse_length in H0.
  pose proof (drop_until_length is_whitespace input). lia.
Qed.

Lemma measure_new_context input base :
  measure (size (view (new_context input base None None)))
          (here (new_context input base None None))
  = 4 * size (sanitize input) + 23.
Proof.
  rewrite view_new_context. unfold measure, here. cbn [fst snd].
  change (state (new_context input base None None)) with url_state.scheme_start.
  change (it (new_context input base None None)) with 0.
  cbn [rank rewinds]. lia.
Qed.

Lemma new_context_wf input base :
  wf (new_context input base None None).
Proof.
  unfold wf, state_wf.
  change (state (new_context input base None None)) with url_state.scheme_start.
  change (it (new_context input base None None)) with 0.
  change (buffer (new_context input base None None)) with "".
  change (state_override (new_context input base None None)) with (@None url_state.t).
  cbv iota. unfold size. repeat split; lia.
Qed.

(** X1: [basic_parse] without a state override ends for every input and
    base, in a record or in the parse error; it invokes the handlers at
    most [4 * len + 23] times for an input of [len] bytes, never twice
    in the same state at the same index, and fuel beyond this bound does
    not change its result. *)
Theorem basic_parse_terminates (input : string) (base : option url_record) :
  exists o log,
    basic_parse_log input base None None = (o, log) /\
    (o = failed \/ exists u, o = parsed u) /\
    (List.length log <= 4 * String.length input + 23)%nat /\
    NoDup log /\
    forall fuel, (4 * String.length input + 23 <= fuel)%nat ->
      drive fuel (new_context input base None None) = (o, log).
Proof.
  pose proof (new_context_wf input base) as Hwf.
  pose proof (sanitize_length input) as Hlen.
  pose proof (measure_new_context input base) as Hm.
  destruct (drive_runs (4 * String.length input + 23)
                       (new_context input base None None) Hwf)
    as (o & log & Ho & Hl & Hall & Hsorted & Hfuel).
  { rewrite Hm. unfold size. lia. }
  rewrite Hm in *. exists o, log. repeat split.
  - unfold basic_parse_log. apply Hfuel.
    rewrite view_new_context. unfold enough_fuel, size. lia.
  - exact Ho.
  - unfold size in Hl. lia.
  - clear -Hsorted. induction Hsorted as [|a l Hs IH Ha]; constructor; [|exact IH].
    intros Hin. rewrite Forall_forall in Ha. specialize (Ha a Hin). lia.
  - intros fuel Hf. apply Hfuel. unfold size. lia.
Qed.

(** X2: every handler invocation of [basic_parse] is at an index of the
    sanitized input or at its end, where the terminating NUL is read:
    the driver and the lookahead of the handlers never read outside the
    string that owns the view. *)
Theorem basic_parse_reads_in_storage (input : string) (base : option url_record) :
  fst (basic_parse_log input base None None) <> undefined /\
  Forall (fun e => 0 <= snd e <= size (sanitize input))
         (snd (basic_parse_log input base None None)).
Proof.
  pose proof (new_context_wf input base) as Hwf.
  destruct (drive_runs (enough_fuel (sanitize input))
                       (new_context input base None None) Hwf)
    as (o & log & Ho & Hl & Hall & Hsorted & Hfuel).
  { rewrite measure_new_context. unfold enough_fuel, size. lia. }
  unfold basic_parse_log. rewrite measure_new_context in Hfuel.
  rewrite view_new_context in *.
  rewrite (Hfuel (enough_fuel (sanitize input)))
    by (unfold enough_fuel, size; lia).
  cbn [fst snd]. split.
  - destruct Ho as [-> | [u ->]]; discriminate.
  - eapply Forall_impl; [|exact Hall]. cbv beta. intros e [He _]. exact He.
Qed.

(** ** Schemes and ports *)

Lemma scheme_char_tolower c :
  (isalnum c = true -> scheme_char (tolower c) = true) /\
  (is_in c "+-." = true -> scheme_char (tolower c) = true) /\
  (isalpha c = true -> islower (tolower c) = true).
Proof.
  destruct c as [b0 b1 b2 b3 b4 b5 b6 b7].
  destruct b0, b1, b2, b3, b4, b5, b6, b7; vm_compute;
    repeat split; intros H; try discriminate H; reflexivity.
Qed.

Lemma find_if_push_back p s c :
  find_if p (push_back s c) = find_if p s || p c.
Proof.
  unfold push_back. induction s as [|a r IH]; simpl.
  - rewrite orb_false_r. reflexivity.
  - rewrite IH. rewrite orb_assoc. reflexivity.
Qed.

Lemma scheme_shape_first c :
  isalpha c = true -> scheme_shape (push_back "" (tolower c)) = true.
Proof.
  intros H. unfold push_back. simpl.
  rewrite (proj2 (proj2 (scheme_char_tolower c)) H). reflexivity.
Qed.

Lemma scheme_shape_push b x :
  scheme_shape b = true -> scheme_char x = true ->
  scheme_shape (push_back b x) = true.
Proof.
  destruct b as [|a r]; [discriminate|]. intros H Hx.
  unfold scheme_shape in H. apply andb_prop in H. destruct H as [Ha Hr].
  change (push_back (String a r) x) with (String a (push_back r x)).
  unfold scheme_shape. rewrite Ha, find_if_push_back, Hx.
  apply negb_true_iff in Hr. rewrite Hr. reflexivity.
Qed.

Lemma scheme_shape_push_alnum b c :
  scheme_shape b = true -> isalnum c = true ->
  scheme_shape (push_back b (tolower c)) = true.
Proof.
  intros Hb Hc. apply scheme_shape_push; [exact Hb|].
  apply (proj1 (scheme_char_tolower c)). exact Hc.
Qed.

Lemma scheme_shape_push_sign b c :
  scheme_shape b = true -> is_in c "+-." = true ->
  scheme_shape (push_back b (tolower c)) = true.
Proof.
  intros Hb Hc. apply scheme_shape_push; [exact Hb|].
  apply (proj1 (proj2 (scheme_char_tolower c))). exact Hc.
Qed.

Lemma digits_push b c :
  digits b = true -> isdigit c = true -> digits (push_back b c) = true.
Proof.
  unfold digits. intros Hb Hc. rewrite find_if_push_back, Hc.
  apply negb_true_iff in Hb. rewrite Hb. reflexivity.
Qed.

Lemma port_value_ok b :
  digits b = true -> empty b = false -> is_valid_port b = true ->
  0 <= atoi b < 65535.
Proof.
  unfold digits. intros Hd He Hv. apply negb_true_iff in Hd.
  rewrite is_valid_port_digits in Hv;
    [|destruct b; [discriminate He | discriminate] | exact Hd].
  apply Z.ltb_lt in Hv. split; [|exact Hv].
  unfold atoi. apply read_digits_nonneg; lia.
Qed.

Create HintDb url.
#[local] Hint Resolve scheme_shape_first scheme_shape_push_alnum
  scheme_shape_push_sign digits_push port_value_ok : url.

(** ** Invariants of the run *)

Lemma run_invariant (P : url_parser_context -> Prop) (Q : url_record -> Prop) :
  (forall ctx, wf ctx -> P ctx -> keeps P Q ctx) ->
  forall fuel ctx, wf ctx -> P ctx ->
  forall u log, drive fuel ctx = (parsed u, log) -> Q u.
Proof.
  intros Hkeep. induction fuel as [|fuel IH]; intros ctx Hwf HP u log Hrun;
    cbn [drive] in Hrun; [discriminate|].
  destruct (deref (view ctx) (it ctx)); [|discriminate].
  pose proof (Hkeep ctx Hwf HP) as Hk. unfold keeps in Hk.
  pose proof (good_turn_always ctx Hwf) as Hg. unfold good_turn in Hg.
  destruct (iterate ctx) as [ctx' | o].
  - destruct Hg as [Hwf' _].
    destruct (drive fuel ctx') as [o' log'] eqn:Hd.
    assert (o' = parsed u) by congruence. subst o'.
    eapply IH; eauto.
  - assert (o = parsed u) by congruence. subst o. exact Hk.
Qed.

Lemma parse_invariant (P : url_parser_context -> Prop) (Q : url_record -> Prop)
  (input : string) (base : option url_record) :
  (forall ctx, wf ctx -> P ctx -> keeps P Q ctx) ->
  P (new_context input base None None) ->
  forall u, parse input base = parsed u -> Q u.
Proof.
  intros Hkeep HP u Hparse. unfold parse, basic_parse, basic_parse_log in Hparse.
  destruct (drive _ _) as [o log] eqn:Hd. cbn [fst] in Hparse. subst o.
  eapply run_invariant; eauto. apply new_context_wf.
Qed.

Lemma is_special_not_file s : is_special s = false -> s <> "file".
Proof. intros H ->. discriminate H. Qed.

Ltac string_facts :=
  repeat match goal with
         | H : String.eqb _ _ = true |- _ => apply String.eqb_eq in H
         | H : String.eqb _ _ = false |- _ => apply String.eqb_neq in H
         | H : is_special ?s = false |- _ =>
             lazymatch goal with
             | _ : s <> "file" |- _ => fail
             | _ => pose proof (is_special_not_file s H)
             end
         end.

Ltac inv_start unf :=
  intros Hs [Hov [Hit Hwf]] HP;
  match goal with
  | |- keeps _ _ ?ctx =>
      destruct ctx as [st vw i bs u ov bf af sf pf ve];
      destruct u as [sch un pw ho po pa qu fr cb];
      destruct bs as [[bsch bun bpw bho bpo bpa bqu bfr bcb]|]
  end;
  cbn [state view it base url state_override buffer] in *; subst;
  unfold state_wf in *; unf; ctx_simpl;
  try match goal with
      | H : Some _ = None /\ _ |- _ => destruct H as [H _]; discriminate H
      end;
  match goal with
  | H : 0 <= ?i <= size ?vw |- _ =>
      let c := fresh "c" in
      let Hc := fresh "Hc" in
      destruct (deref_some vw i H) as [c Hc];
      unfold keeps, iterate; cbn [view it state]; rewrite Hc; cbn [parse_funcs]
  end.

Ltac nul_facts :=
  repeat match goal with
         | H : deref ?v (size ?v) = Some ?c |- _ =>
             rewrite deref_at_end in H;
             first [ discriminate H
                   | assert (c = NUL) by congruence; subst c; clear H ]
         end;
  try match goal with
      | H : ?f NUL = true |- _ => exfalso; vm_compute in H; discriminate H
      end.

Ltac inv_finish unf :=
  ctx_simpl; unf; ctx_simpl; bool_to_prop; subst; nul_facts;
  storage_facts; string_facts;
  repeat match goal with
         | H : _ /\ _ |- _ => destruct H
         end;
  subst; unfold size in *;
  try match goal with
      | Hd : digits ?b = true, He : empty ?b = false, Hv : is_valid_port ?b = true |- _ =>
          pose proof (port_value_ok b Hd He Hv)
      end;
  try exact I;
  try solve [exfalso; congruence];
  try solve [exfalso; lia];
  try solve [intuition (try congruence; try discriminate; try lia; eauto with url)].

Ltac file_inv_unf := unfold file_inv, file_is_bare, bare, base_not_file in *.

Lemma file_inv_scheme_start ctx :
  state ctx = url_state.scheme_start -> wf ctx -> file_inv ctx -> keeps file_inv file_is_bare ctx.
Proof.
  inv_start file_inv_unf; unfold parse_scheme_start, authority_end, is_separator, base_is_file; ctx_simpl;
  repeat (break_step; ctx_simpl); inv_finish file_inv_unf.
Qed.

Lemma file_inv_scheme ctx :
  state ctx = url_state.scheme -> wf ctx -> file_inv ctx -> keeps file_inv file_is_bare ctx.
Proof.
  inv_start file_inv_unf; unfold parse_scheme, authority_end, is_separator, base_is_file; ctx_simpl;
  repeat (break_step; ctx_simpl); inv_finish file_inv_unf.
Qed.

Lemma file_inv_no_scheme ctx :
  state ctx = url_state.no_scheme -> wf ctx -> file_inv ctx -> keeps file_inv file_is_bare ctx.
Proof.
  inv_start file_inv_unf; unfold parse_no_scheme, authority_end, is_separator, base_is_file; ctx_simpl;
  repeat (break_step; ctx_simpl); inv_finish file_inv_unf.
Qed.

Lemma file_inv_special_relative_or_authority ctx :
  state ctx = url_state.special_relative_or_authority -> wf ctx -> file_inv ctx -> keeps file_inv file_is_bare ctx.
Proof.
  inv_start file_inv_unf; unfold parse_special_relative_or_authority, authority_end, is_separator, base_is_file; ctx_simpl;
  repeat (break_step; ctx_simpl); inv_finish file_inv_unf.
Qed.

Lemma file_inv_path_or_authority ctx :
  state ctx = url_state.path_or_authority -> wf ctx -> file_inv ctx -> keeps file_inv file_is_bare ctx.
Proof.
  inv_start file_inv_unf; unfold parse_path_or_authority, authority_end, is_separator, base_is_file; ctx_simpl;
  repeat (break_step; ctx_simpl); inv_finish file_inv_unf.
Qed.

Lemma file_inv_relative ctx :
  state ctx = url_state.relative -> wf ctx -> file_inv ctx -> keeps file_inv file_is_bare ctx.
Proof.
  inv_start file_inv_unf; unfold parse_relative, authority_end, is_separator, base_is_file; ctx_simpl;
  repeat (break_step; ctx_simpl); inv_finish file_inv_unf.
Qed.

Lemma file_inv_relative_slash ctx :
  state ctx = url_state.relative_slash -> wf ctx -> file_inv ctx -> keeps file_inv file_is_bare ctx.
Proof.
  inv_start file_inv_unf; unfold parse_relative_slash, authority_end, is_separator, base_is_file; ctx_simpl;
  repeat (break_step; ctx_simpl); inv_finish file_inv_unf.
Qed.

Lemma file_inv_special_authority_slashes ctx :
  state ctx = url_state.special_authority_slashes -> wf ctx -> file_inv ctx -> keeps file_inv file_is_bare ctx.
Proof.
  inv_start file_inv_unf; unfold parse_special_authority_slashes, authority_end, is_separator, base_is_file; ctx_simpl;
  repeat (break_step; ctx_simpl); inv_finish file_inv_unf.
Qed.

Lemma file_inv_special_authority_ignore_slashes ctx :
  state ctx = url_state.special_authority_ignore_slashes -> wf ctx -> file_inv ctx -> keeps file_inv file_is_bare ctx.
Proof.
  inv_start file_inv_unf; unfold parse_special_authority_ignore_slashes, authority_end, is_separator, base_is_file; ctx_simpl;
  repeat (break_step; ctx_simpl); inv_finish file_inv_unf.
Qed.

Lemma file_inv_authority ctx :
  state ctx = url_state.authority -> wf ctx -> file_inv ctx -> keeps file_inv file_is_bare ctx.
Proof.
  inv_start file_inv_unf; unfold parse_authority, authority_end, is_separator, base_is_file; ctx_simpl;
  repeat (break_step; ctx_simpl); inv_finish file_inv_unf.
Qed.

Lemma file_inv_host ctx :
  state ctx = url_state.host -> wf ctx -> file_inv ctx -> keeps file_inv file_is_bare ctx.
Proof.
  inv_start file_inv_unf; unfold parse_hostname, authority_end, is_separator, base_is_file; ctx_simpl;
  repeat (break_step; ctx_simpl); inv_finish file_inv_unf.
Qed.

Lemma file_inv_hostname ctx :
  state ctx = url_state.hostname -> wf ctx -> file_inv ctx -> keeps file_inv file_is_bare ctx.
Proof.
  inv_start file_inv_unf; unfold parse_hostname, authority_end, is_separator, base_is_file; ctx_simpl;
  repeat (break_step; ctx_simpl); inv_finish file_inv_unf.
Qed.

Lemma file_inv_port ctx :
  state ctx = url_state.port -> wf ctx -> file_inv ctx -> keeps file_inv file_is_bare ctx.
Proof.
  inv_start file_inv_unf; unfold parse_port, authority_end, is_separator, base_is_file; ctx_simpl;
  repeat (break_step; ctx_simpl); inv_finish file_inv_unf.
Qed.

Lemma file_inv_file ctx :
  state ctx = url_state.file -> wf ctx -> file_inv ctx -> keeps file_inv file_is_bare ctx.
Proof.
  inv_start file_inv_unf; unfold parse_file, authority_end, is_separator, base_is_file; ctx_simpl;
  repeat (break_step; ctx_simpl); inv_finish file_inv_unf.
Qed.

Lemma file_inv_file_slash ctx :
  state ctx = url_state.file_slash -> wf ctx -> file_inv ctx -> keeps file_inv file_is_bare ctx.
Proof.
  inv_start file_inv_unf; unfold parse_file_slash, authority_end, is_separator, base_is_file; ctx_simpl;
  repeat (break_step; ctx_simpl); inv_finish file_inv_unf.
Qed.

Lemma file_inv_file_host ctx :
  state ctx = url_state.file_host -> wf ctx -> file_inv ctx -> keeps file_inv file_is_bare ctx.
Proof.
  inv_start file_inv_unf; unfold parse_file_host, authority_end, is_separator, base_is_file; ctx_simpl;
  repeat (break_step; ctx_simpl); inv_finish file_inv_unf.
Qed.

Lemma file_inv_path_start ctx :
  state ctx = url_state.path_start -> wf ctx -> file_inv ctx -> keeps file_inv file_is_bare ctx.
Proof.
  inv_start file_inv_unf; unfold parse_path_start, authority_end, is_separator, base_is_file; ctx_simpl;
  repeat (break_step; ctx_simpl); inv_finish file_inv_unf.
Qed.

Lemma file_inv_cannot_be_a_base_url_path ctx :
  state ctx = url_state.cannot_be_a_base_url_path -> wf ctx -> file_inv ctx -> keeps file_inv file_is_bare ctx.
Proof.
  inv_start file_inv_unf; unfold parse_cannot_be_a_base_url, authority_end, is_separator, base_is_file; ctx_simpl;
  repeat (break_step; ctx_simpl); inv_finish file_inv_unf.
Qed.

Lemma file_inv_query ctx :
  state ctx = url_state.query -> wf ctx -> file_inv ctx -> keeps file_inv file_is_bare ctx.
Proof.
  inv_start file_inv_unf; unfold parse_query, authority_end, is_separator, base_is_file; ctx_simpl;
  repeat (break_step; ctx_simpl); inv_finish file_inv_unf.
Qed.

Lemma file_inv_fragment ctx :
  state ctx = url_state.fragment -> wf ctx -> file_inv ctx -> keeps file_inv file_is_bare ctx.
Proof.
  inv_start file_inv_unf; unfold parse_fragment, authority_end, is_separator, base_is_file; ctx_simpl;
  repeat (break_step; ctx_simpl); inv_finish file_inv_unf.
Qed.

Lemma file_inv_path ctx :
  state ctx = url_state.path -> wf ctx -> file_inv ctx -> keeps file_inv file_is_bare ctx.
Proof.
  intros Hs [Hov [Hit Hwf]] HP.
  destruct (deref_some _ _ Hit) as [c Hc].
  unfold keeps, iterate. rewrite Hc, Hs. cbn [parse_funcs].
  rewrite parse_path_steps.
  destruct (path_terminator ctx c).
  - destruct (path_steps_keep ctx c) as [Hk Hb].
    revert Hk Hb.
    generalize (path_file_fix (set_buffer "" (path_segment (path_mark ctx c) c)) c).
    intros d Hk Hb. unfold keeps_place in Hk.
    destruct ctx as [st vw i bs u ov bf af sf pf ve].
    destruct u as [sch un pw ho po pa qu fr cb].
    destruct d as [st' vw' i' bs' u' ov' bf' af' sf' pf' ve'].
    destruct u' as [sch' un' pw' ho' po' pa' qu' fr' cb'].
    unfold path_query, path_fragment. ctx_simpl.
    repeat match goal with H : _ /\ _ |- _ => destruct H end. subst.
    file_inv_unf. ctx_simpl.
    repeat (break_step; ctx_simpl); inv_finish file_inv_unf.
  - destruct ctx as [st vw i bs u ov bf af sf pf ve].
    destruct u as [sch un pw ho po pa qu fr cb]. ctx_simpl. subst.
    file_inv_unf. ctx_simpl.
    repeat (break_step; ctx_simpl); inv_finish file_inv_unf.
Qed.

Lemma file_inv_keeps ctx : wf ctx -> file_inv ctx -> keeps file_inv file_is_bare ctx.
Proof.
  intros H HP. destruct (state ctx) eqn:Hs;
    [ apply file_inv_scheme_start | apply file_inv_scheme | apply file_inv_no_scheme
    | apply file_inv_special_relative_or_authority | apply file_inv_path_or_authority
    | apply file_inv_relative | apply file_inv_relative_slash
    | apply file_inv_special_authority_slashes
    | apply file_inv_special_authority_ignore_slashes | apply file_inv_authority
    | apply file_inv_host | apply file_inv_hostname | apply file_inv_port
    | apply file_inv_file | apply file_inv_file_slash | apply file_inv_file_host
    | apply file_inv_path_start | apply file_inv_path
    | apply file_inv_cannot_be_a_base_url_path | apply file_inv_query
    | apply file_inv_fragment ]; assumption.
Qed.

(** X3: whatever the input and the base, a record that [parse] returns
    with the scheme [file] has no port, no user name and no password. *)
Theorem file_url_is_bare (input : string) (base : option url_record)
  (u : url_record)
  (Hparse : parse input base = parsed u)
  (Hfile : scheme u = "file") :
  port u = None /\ username u = "" /\ password u = "".
Proof.
  assert (H : file_is_bare u).
  { eapply (parse_invariant file_inv file_is_bare input base).
    - intros ctx. apply file_inv_keeps.
    - unfold file_inv, bare. cbn. auto.
    - exact Hparse. }
  destruct (H Hfile) as (Hu & Hp & Hport). auto.
Qed.

(** A file URL with a drive letter. *)
Lemma file_url_is_bare_witness :
  parse "file:///C|/WINDOWS" None =
    parsed (mk_url "file" "" "" (Some "") None ["C:"; "WINDOWS"] None None false) /\
  port (mk_url "file" "" "" (Some "") None ["C:"; "WINDOWS"] None None false) = None /\
  username (mk_url "file" "" "" (Some "") None ["C:"; "WINDOWS"] None None false) = "" /\
  password (mk_url "file" "" "" (Some "") None ["C:"; "WINDOWS"] None None false) = "".
Proof.
  assert (H : parse "file:///C|/WINDOWS" None =
              parsed (mk_url "file" "" "" (Some "") None ["C:"; "WINDOWS"]
                             None None false))
    by (vm_compute; reflexivity).
  split; [exact H|].
  exact (file_url_is_bare "file:///C|/WINDOWS" None _ H eq_refl).
Defined.

(** ** A parse without a base: the run *)

Ltac no_base_inv_unf := unfold no_base_inv, no_base_ok, fresh, bare, opaque_shape, port_ok, host_ok in *.

Lemma no_base_inv_scheme_start ctx :
  state ctx = url_state.scheme_start -> wf ctx -> no_base_inv ctx -> keeps no_base_inv no_base_ok ctx.
Proof.
  inv_start no_base_inv_unf; unfold parse_scheme_start, authority_end, is_separator, base_is_file; ctx_simpl;
  repeat (break_step; ctx_simpl); inv_finish no_base_inv_unf.
Qed.

Lemma no_base_inv_scheme ctx :
  state ctx = url_state.scheme -> wf ctx -> no_base_inv ctx -> keeps no_base_inv no_base_ok ctx.
Proof.
  inv_start no_base_inv_unf; unfold parse_scheme, authority_end, is_separator, base_is_file; ctx_simpl;
  repeat (break_step; ctx_simpl); inv_finish no_base_inv_unf.
Qed.

Lemma no_base_inv_no_scheme ctx :
  state ctx = url_state.no_scheme -> wf ctx -> no_base_inv ctx -> keeps no_base_inv no_base_ok ctx.
Proof.
  inv_start no_base_inv_unf; unfold parse_no_scheme, authority_end, is_separator, base_is_file; ctx_simpl;
  repeat (break_step; ctx_simpl); inv_finish no_base_inv_unf.
Qed.

Lemma no_base_inv_special_relative_or_authority ctx :
  state ctx = url_state.special_relative_or_authority -> wf ctx -> no_base_inv ctx -> keeps no_base_inv no_base_ok ctx.
Proof.
  inv_start no_base_inv_unf; unfold parse_special_relative_or_authority, authority_end, is_separator, base_is_file; ctx_simpl;
  repeat (break_step; ctx_simpl); inv_finish no_base_inv_unf.
Qed.

Lemma no_base_inv_path_or_authority ctx :
  state ctx = url_state.path_or_authority -> wf ctx -> no_base_inv ctx -> keeps no_base_inv no_base_ok ctx.
Proof.
  inv_start no_base_inv_unf; unfold parse_path_or_authority, authority_end, is_separator, base_is_file; ctx_simpl;
  repeat (break_step; ctx_simpl); inv_finish no_base_inv_unf.
Qed.

Lemma no_base_inv_relative ctx :
  state ctx = url_state.relative -> wf ctx -> no_base_inv ctx -> keeps no_base_inv no_base_ok ctx.
Proof.
  inv_start no_base_inv_unf; unfold parse_relative, authority_end, is_separator, base_is_file; ctx_simpl;
  repeat (break_step; ctx_simpl); inv_finish no_base_inv_unf.
Qed.

Lemma no_base_inv_relative_slash ctx :
  state ctx = url_state.relative_slash -> wf ctx -> no_base_inv ctx -> keeps no_base_inv no_base_ok ctx.
Proof.
  inv_start no_base_inv_unf; unfold parse_relative_slash, authority_end, is_separator, base_is_file; ctx_simpl;
  repeat (break_step; ctx_simpl); inv_finish no_base_inv_unf.
Qed.

Lemma no_base_inv_special_authority_slashes ctx :
  state ctx = url_state.special_authority_slashes -> wf ctx -> no_base_inv ctx -> keeps no_base_inv no_base_ok ctx.
Proof.
  inv_start no_base_inv_unf; unfold parse_special_authority_slashes, authority_end, is_separator, base_is_file; ctx_simpl;
  repeat (break_step; ctx_simpl); inv_finish no_base_inv_unf.
Qed.

Lemma no_base_inv_special_authority_ignore_slashes ctx :
  state ctx = url_state.special_authority_ignore_slashes -> wf ctx -> no_base_inv ctx -> keeps no_base_inv no_base_ok ctx.
Proof.
  inv_start no_base_inv_unf; unfold parse_special_authority_ignore_slashes, authority_end, is_separator, base_is_file; ctx_simpl;
  repeat (break_step; ctx_simpl); inv_finish no_base_inv_unf.
Qed.

Lemma no_base_inv_authority ctx :
  state ctx = url_state.authority -> wf ctx -> no_base_inv ctx -> keeps no_base_inv no_base_ok ctx.
Proof.
  inv_start no_base_inv_unf; unfold parse_authority, authority_end, is_separator, base_is_file; ctx_simpl;
  repeat (break_step; ctx_simpl); inv_finish no_base_inv_unf.
Qed.

Lemma no_base_inv_host ctx :
  state ctx = url_state.host -> wf ctx -> no_base_inv ctx -> keeps no_base_inv no_base_ok ctx.
Proof.
  inv_start no_base_inv_unf; unfold parse_hostname, authority_end, is_separator, base_is_file; ctx_simpl;
  repeat (break_step; ctx_simpl); inv_finish no_base_inv_unf.
Qed.

Lemma no_base_inv_hostname ctx :
  state ctx = url_state.hostname -> wf ctx -> no_base_inv ctx -> keeps no_base_inv no_base_ok ctx.
Proof.
  inv_start no_base_inv_unf; unfold parse_hostname, authority_end, is_separator, base_is_file; ctx_simpl;
  repeat (break_step; ctx_simpl); inv_finish no_base_inv_unf.
Qed.

Lemma no_base_inv_port ctx :
  state ctx = url_state.port -> wf ctx -> no_base_inv ctx -> keeps no_base_inv no_base_ok ctx.
Proof.
  inv_start no_base_inv_unf; unfold parse_port, authority_end, is_separator, base_is_file; ctx_simpl;
  repeat (break_step; ctx_simpl); inv_finish no_base_inv_unf.
Qed.

Lemma no_base_inv_file ctx :
  state ctx = url_state.file -> wf ctx -> no_base_inv ctx -> keeps no_base_inv no_base_ok ctx.
Proof.
  inv_start no_base_inv_unf; unfold parse_file, authority_end, is_separator, base_is_file; ctx_simpl;
  repeat (break_step; ctx_simpl); inv_finish no_base_inv_unf.
Qed.

Lemma no_base_inv_file_slash ctx :
  state ctx = url_state.file_slash -> wf ctx -> no_base_inv ctx -> keeps no_base_inv no_base_ok ctx.
Proof.
  inv_start no_base_inv_unf; unfold parse_file_slash, authority_end, is_separator, base_is_file; ctx_simpl;
  repeat (break_step; ctx_simpl); inv_finish no_base_inv_unf.
Qed.

Lemma no_base_inv_file_host ctx :
  state ctx = url_state.file_host -> wf ctx -> no_base_inv ctx -> keeps no_base_inv no_base_ok ctx.
Proof.
  inv_start no_base_inv_unf; unfold parse_file_host, authority_end, is_separator, base_is_file; ctx_simpl;
  repeat (break_step; ctx_simpl); inv_finish no_base_inv_unf.
Qed.

Lemma no_base_inv_path_start ctx :
  state ctx = url_state.path_start -> wf ctx -> no_base_inv ctx -> keeps no_base_inv no_base_ok ctx.
Proof.
  inv_start no_base_inv_unf; unfold parse_path_start, authority_end, is_separator, base_is_file; ctx_simpl;
  repeat (break_step; ctx_simpl); inv_finish no_base_inv_unf.
Qed.

Lemma no_base_inv_cannot_be_a_base_url_path ctx :
  state ctx = url_state.cannot_be_a_base_url_path -> wf ctx -> no_base_inv ctx -> keeps no_base_inv no_base_ok ctx.
Proof.
  inv_start no_base_inv_unf; unfold parse_cannot_be_a_base_url, authority_end, is_separator, base_is_file; ctx_simpl;
  repeat (break_step; ctx_simpl); inv_finish no_base_inv_unf.
Qed.

Lemma no_base_inv_query ctx :
  state ctx = url_state.query -> wf ctx -> no_base_inv ctx -> keeps no_base_inv no_base_ok ctx.
Proof.
  inv_start no_base_inv_unf; unfold parse_query, authority_end, is_separator, base_is_file; ctx_simpl;
  repeat (break_step; ctx_simpl); inv_finish no_base_inv_unf.
Qed.

Lemma no_base_inv_fragment ctx :
  state ctx = url_state.fragment -> wf ctx -> no_base_inv ctx -> keeps no_base_inv no_base_ok ctx.
Proof.
  inv_start no_base_inv_unf; unfold parse_fragment, authority_end, is_separator, base_is_file; ctx_simpl;
  repeat (break_step; ctx_simpl); inv_finish no_base_inv_unf.
Qed.

Lemma no_base_inv_path ctx :
  state ctx = url_state.path -> wf ctx -> no_base_inv ctx -> keeps no_base_inv no_base_ok ctx.
Proof.
  intros Hs [Hov [Hit Hwf]] HP.
  destruct (deref_some _ _ Hit) as [c Hc].
  unfold keeps, iterate. rewrite Hc, Hs. cbn [parse_funcs].
  rewrite parse_path_steps.
  destruct (path_terminator ctx c).
  - destruct (path_steps_keep ctx c) as [Hk Hb].
    revert Hk Hb.
    generalize (path_file_fix (set_buffer "" (path_segment (path_mark ctx c) c)) c).
    intros d Hk Hb. unfold keeps_place in Hk.
    destruct ctx as [st vw i bs u ov bf af sf pf ve].
    destruct u as [sch un pw ho po pa qu fr cb].
    destruct d as [st' vw' i' bs' u' ov' bf' af' sf' pf' ve'].
    destruct u' as [sch' un' pw' ho' po' pa' qu' fr' cb'].
    unfold path_query, path_fragment. ctx_simpl.
    repeat match goal with H : _ /\ _ |- _ => destruct H end. subst.
    no_base_inv_unf. ctx_simpl.
    repeat (break_step; ctx_simpl); inv_finish no_base_inv_unf.
  - destruct ctx as [st vw i bs u ov bf af sf pf ve].
    destruct u as [sch un pw ho po pa qu fr cb]. ctx_simpl. subst.
    no_base_inv_unf. ctx_simpl.
    repeat (break_step; ctx_simpl); inv_finish no_base_inv_unf.
Qed.

Lemma no_base_inv_keeps ctx : wf ctx -> no_base_inv ctx -> keeps no_base_inv no_base_ok ctx.
Proof.
  intros H HP. destruct (state ctx) eqn:Hs;
    [ apply no_base_inv_scheme_start | apply no_base_inv_scheme | apply no_base_inv_no_scheme
    | apply no_base_inv_special_relative_or_authority | apply no_base_inv_path_or_authority
    | apply no_base_inv_relative | apply no_base_inv_relative_slash
    | apply no_base_inv_special_authority_slashes
    | apply no_base_inv_special_authority_ignore_slashes | apply no_base_inv_authority
    | apply no_base_inv_host | apply no_base_inv_hostname | apply no_base_inv_port
    | apply no_base_inv_file | apply no_base_inv_file_slash | apply no_base_inv_file_host
    | apply no_base_inv_path_start | apply no_base_inv_path
    | apply no_base_inv_cannot_be_a_base_url_path | apply no_base_inv_query
    | apply no_base_inv_fragment ]; assumption.
Qed.

Lemma parse_no_base_ok (input : string) (u : url_record) :
  parse input None = parsed u -> no_base_ok u.
Proof.
  apply (parse_invariant no_base_inv no_base_ok input None).
  - intros ctx. apply no_base_inv_keeps.
  - unfold no_base_inv, fresh, bare. cbn. auto 10.
Qed.

(** X4: without a base, the scheme of a parsed record is a lower-case
    letter followed by lower-case letters, digits, [+], [-] and [.]; in
    particular it is not empty. *)
Theorem parsed_scheme_shape (input : string) (u : url_record)
  (Hparse : parse input None = parsed u) :
  scheme_shape (scheme u) = true.
Proof. apply (parse_no_base_ok input u Hparse). Qed.

(** The scheme of [HTTP://Example.ORG/] is lowered. *)
Lemma parsed_scheme_shape_witness :
  parse "HTTP://Example.ORG/" None =
    parsed (mk_url "http" "" "" (Some "example.org") None [""] None None false) /\
  scheme_shape "http" = true.
Proof.
  assert (H : parse "HTTP://Example.ORG/" None =
              parsed (mk_url "http" "" "" (Some "example.org") None [""] None None false))
    by (vm_compute; reflexivity).
  split; [exact H|].
  exact (parsed_scheme_shape "HTTP://Example.ORG/" _ H).
Defined.

(** X5: without a base, a parsed cannot-be-a-base-URL record has exactly
    one path segment, no host, no credentials and no port, and its
    scheme is not special. *)
Theorem parsed_cannot_be_a_base_shape (input : string) (u : url_record)
  (Hparse : parse input None = parsed u)
  (Hopaque : cannot_be_a_base_url u = true) :
  List.length (path u) = 1%nat /\ host u = None /\
  username u = "" /\ password u = "" /\ port u = None /\
  is_special (scheme u) = false.
Proof.
  destruct (parse_no_base_ok input u Hparse) as (_ & H & _ & _).
  destruct (H Hopaque) as (Hl & Hh & (Hu & Hp & Hport) & Hs). auto 10.
Qed.

(** A [mailto] URL. *)
Lemma parsed_cannot_be_a_base_shape_witness :
  parse "mailto:user@example.org?subject=x" None =
    parsed (mk_url "mailto" "" "" None None ["user@example.org"] (Some "subject=x")
                   None true) /\
  List.length ["user@example.org"] = 1%nat.
Proof.
  assert (H : parse "mailto:user@example.org?subject=x" None =
              parsed (mk_url "mailto" "" "" None None ["user@example.org"]
                             (Some "subject=x") None true))
    by (vm_compute; reflexivity).
  split; [exact H|].
  exact (proj1 (parsed_cannot_be_a_base_shape
                  "mailto:user@example.org?subject=x" _ H eq_refl)).
Defined.

(** X6: without a base, a parsed record whose scheme is special and not
    [file] has a host. *)
Theorem parsed_special_has_host (input : string) (u : url_record)
  (Hparse : parse input None = parsed u)
  (Hspecial : is_special (scheme u) = true)
  (Hnot_file : scheme u <> "file") :
  exists h, host u = Some h.
Proof.
  destruct (parse_no_base_ok input u Hparse) as (_ & _ & _ & H).
  specialize (H Hspecial Hnot_file).
  destruct (host u) as [h|]; [eauto | congruence].
Qed.

(** A [ws] URL without slashes after the colon. *)
Lemma parsed_special_has_host_witness :
  parse "ws:example.org" None =
    parsed (mk_url "ws" "" "" (Some "example.org") None [""] None None false) /\
  exists h, Some "example.org" = Some h.
Proof.
  assert (H : parse "ws:example.org" None =
              parsed (mk_url "ws" "" "" (Some "example.org") None [""] None None false))
    by (vm_compute; reflexivity).
  split; [exact H|].
  apply (parsed_special_has_host "ws:example.org" _ H);
    [reflexivity | discriminate].
Defined.

(** X7: without a base, a port that is kept in the parsed record is
    below 65535 and is not the default port of the scheme. *)
Theorem parsed_port_range (input : string) (u : url_record) (p : Z)
  (Hparse : parse input None = parsed u)
  (Hport : port u = Some p) :
  0 <= p < 65535 /\ is_default_port (scheme u) p = false.
Proof.
  destruct (parse_no_base_ok input u Hparse) as (_ & _ & H & _).
  unfold port_ok in H. rewrite Hport in H. exact H.
Qed.

(** The port 8080 of an [http] URL. *)
Lemma parsed_port_range_witness :
  parse "http://example.org:8080/" None =
    parsed (mk_url "http" "" "" (Some "example.org") (Some 8080) [""] None None false) /\
  0 <= 8080 < 65535 /\ is_default_port "http" 8080 = false.
Proof.
  assert (H : parse "http://example.org:8080/" None =
              parsed (mk_url "http" "" "" (Some "example.org") (Some 8080) [""]
                             None None false))
    by (vm_compute; reflexivity).
  split; [exact H|].
  exact (parsed_port_range "http://example.org:8080/" _ 8080 H eq_refl).
Defined.

(** ** The sanitized view *)

Lemma drop_until_front p s :
  drop_until p s <> EmptyString -> p (front (drop_until p s)) = true.
Proof.
  induction s as [|c r IH]; simpl; [congruence|].
  destruct (p c) eqn:Hc; [intros _; exact Hc | exact IH].
Qed.

Lemma drop_until_fixed p s :
  p (front s) = true -> s <> EmptyString -> drop_until p s = s.
Proof. destruct s as [|c r]; simpl; [congruence|]. intros -> _. reflexivity. Qed.

Lemma back_append s c : back (s ++ String c "") = c.
Proof.
  induction s as [|a r IH]; [reflexivity|].
  change ((String a r ++ String c "")%string) with (String a (r ++ String c "")).
  cbn [back]. destruct (r ++ String c "")%string eqn:E; [|exact IH].
  destruct r; discriminate E.
Qed.

Lemma string_of_list_app l1 l2 :
  string_of_list_ascii (l1 ++ l2) =
  (string_of_list_ascii l1 ++ string_of_list_ascii l2)%string.
Proof. induction l1 as [|a r IH]; simpl; [reflexivity | rewrite IH; reflexivity]. Qed.

Lemma reverse_cons c s : reverse (String c s) = (reverse s ++ String c "")%string.
Proof. unfold reverse. simpl. rewrite string_of_list_app. reflexivity. Qed.

Lemma back_reverse s : back (reverse s) = front s.
Proof. destruct s as [|c r]; [reflexivity|]. rewrite reverse_cons. apply back_append. Qed.

Lemma front_reverse s : front (reverse s) = back s.
Proof. rewrite <- (reverse_involutive s) at 2. rewrite back_reverse. reflexivity. Qed.

Lemma reverse_empty s : reverse s = EmptyString -> s = EmptyString.
Proof.
  intros H. pose proof (reverse_length s) as Hl. rewrite H in Hl.
  destruct s; [reflexivity | discriminate Hl].
Qed.

Lemma drop_until_back p s :
  drop_until p s <> EmptyString -> back (drop_until p s) = back s.
Proof.
  induction s as [|c r IH]; simpl; [congruence|].
  destruct (p c); [reflexivity|]. intros H. rewrite (IH H).
  destruct r; [simpl in H; congruence | reflexivity].
Qed.

Lemma remove_if_ends (p q : ascii -> bool) s :
  (forall c, p c = true -> q c = false) ->
  s <> EmptyString -> p (front s) = true -> p (back s) = true ->
  remove_if q s <> EmptyString /\
  front (remove_if q s) = front s /\ back (remove_if q s) = back s.
Proof.
  intros Hpq. destruct s as [|c r]; [congruence|]. intros _ Hf Hb.
  simpl in Hf. cbn [remove_if]. rewrite (Hpq c Hf).
  split; [discriminate|]. split; [reflexivity|].
  clear Hf. revert c Hb. induction r as [|d t IH]; intros c Hb; [reflexivity|].
  change (back (String c (String d t))) with (back (String d t)) in Hb.
  change (back (String c (String d t))) with (back (String d t)).
  cbn [remove_if]. destruct (q d) eqn:Hd.
  - specialize (IH d Hb).
    destruct t as [|e t'].
    + simpl in Hb. rewrite (Hpq d Hb) in Hd. discriminate.
    + change (back (String d (String e t'))) with (back (String e t')) in *.
      destruct (remove_if q (String e t')) eqn:E.
      * exfalso. clear IH.
        assert (Hne : remove_if q (String e t') <> EmptyString).
        { clear E Hd. revert e Hb. induction t' as [|f t'' IH']; intros e Hb.
          - simpl in Hb. simpl. rewrite (Hpq e Hb). discriminate.
          - change (back (String e (String f t''))) with (back (String f t'')) in Hb.
            cbn [remove_if]. destruct (q e); [apply IH'; exact Hb | discriminate]. }
        congruence.
      * cbn [back] in IH |- *. destruct s; exact IH.
  - specialize (IH d Hb).
    change (back (String c (String d (remove_if q t))))
      with (back (String d (remove_if q t))).
    exact IH.
Qed.

Lemma drop_until_same_length p s :
  String.length (drop_until p s) = String.length s -> drop_until p s = s.
Proof.
  destruct s as [|c r]; [reflexivity|]. simpl.
  destruct (p c); [reflexivity|]. intros H.
  pose proof (drop_until_length p r). lia.
Qed.

Lemma remove_if_same_length q s :
  String.length (remove_if q s) = String.length s -> remove_if q s = s.
Proof.
  induction s as [|c r IH]; [reflexivity|]. simpl.
  destruct (q c); simpl; intros H.
  - pose proof (remove_if_length q r). lia.
  - rewrite IH by lia. reflexivity.
Qed.

Lemma remove_if_clean q s : find_if q (remove_if q s) = false.
Proof.
  induction s as [|c r IH]; [reflexivity|]. simpl.
  destruct (q c) eqn:Hc; [exact IH|]. simpl. rewrite Hc, IH. reflexivity.
Qed.

Lemma remove_if_fixed q s : find_if q s = false -> remove_if q s = s.
Proof.
  induction s as [|c r IH]; [reflexivity|]. simpl. intros H.
  apply orb_false_elim in H. destruct H as [Hc Hr]. rewrite Hc, (IH Hr). reflexivity.
Qed.

Lemma tab_or_newline_is_stripped c :
  is_whitespace c = true -> is_tab_or_newline c = false.
Proof.
  destruct c as [b0 b1 b2 b3 b4 b5 b6 b7].
  destruct b0, b1, b2, b3, b4, b5, b6, b7; vm_compute; intros H;
    first [reflexivity | discriminate H].
Qed.

(** The view after the two strips, before the tabs and newlines go. *)
Lemma stripped_ends input :
  let s := fst (remove_trailing_whitespace (fst (remove_leading_whitespace input))) in
  s <> EmptyString -> is_whitespace (front s) = true /\ is_whitespace (back s) = true.
Proof.
  unfold remove_trailing_whitespace, remove_leading_whitespace. cbn [fst].
  set (s1 := drop_until is_whitespace input).
  intros Hne.
  assert (Hd : drop_until is_whitespace (reverse s1) <> EmptyString).
  { intros E. rewrite E in Hne. apply Hne. reflexivity. }
  split.
  - rewrite front_reverse, drop_until_back by exact Hd.
    rewrite back_reverse. apply drop_until_front.
    intros E. fold s1 in E. rewrite E in Hd. apply Hd. reflexivity.
  - rewrite back_reverse. apply drop_until_front. exact Hd.
Qed.

Lemma sanitized_view_ends input :
  sanitize input = EmptyString \/
  (is_whitespace (front (sanitize input)) = true /\
   is_whitespace (back (sanitize input)) = true).
Proof.
  unfold sanitize, remove_tabs_and_newlines. cbn [fst].
  set (s := fst (remove_trailing_whitespace (fst (remove_leading_whitespace input)))).
  destruct s as [|c r] eqn:Hs; [left; reflexivity|]. right.
  pose proof (stripped_ends input) as He. cbv zeta in He. fold s in He.
  rewrite Hs in He. destruct (He ltac:(discriminate)) as [Hf Hb].
  destruct (remove_if_ends is_whitespace is_tab_or_newline (String c r)
              tab_or_newline_is_stripped ltac:(discriminate) Hf Hb)
    as (_ & Hf' & Hb').
  rewrite Hf', Hb'. auto.
Qed.

(** X8: the view the parser works on is not longer than the input, holds
    no tab, carriage return or line feed, and neither begins nor ends
    with a byte that is stripped; the context starts with
    [validation_error] set exactly when the view differs from the
    input. *)
Theorem sanitized_view (input : string) (base url : option url_record)
  (state_override : option url_state.t) :
  let ctx := new_context input base url state_override in
  (String.length (view ctx) <= String.length input)%nat /\
  find_if is_tab_or_newline (view ctx) = false /\
  (view ctx = EmptyString \/
   (stripped_byte (front (view ctx)) = false /\
    stripped_byte (back (view ctx)) = false)) /\
  validation_error ctx = negb (String.eqb (view ctx) input).
Proof.
  cbv zeta. rewrite view_new_context.
  split; [apply sanitize_length|]. split; [apply remove_if_clean|]. split.
  - destruct (sanitized_view_ends input) as [He | [Hf Hb]]; [left; exact He|].
    right. unfold is_whitespace in Hf, Hb. unfold stripped_byte.
    apply negb_true_iff in Hf. apply negb_true_iff in Hb. auto.
  - change (validation_error (new_context input base url state_override))
      with (negb (snd (remove_leading_whitespace input)) ||
            negb (snd (remove_trailing_whitespace (fst (remove_leading_whitespace input)))) ||
            negb (snd (remove_tabs_and_newlines
                         (fst (remove_trailing_whitespace
                                 (fst (remove_leading_whitespace input))))))).
    unfold sanitize, remove_tabs_and_newlines, remove_trailing_whitespace,
      remove_leading_whitespace. cbn [fst snd].
    set (s1 := drop_until is_whitespace input).
    set (s2 := reverse (drop_until is_whitespace (reverse s1))).
    set (s3 := remove_if is_tab_or_newline s2).
    assert (L1 : (String.length s1 <= String.length input)%nat)
      by apply drop_until_length.
    assert (L2 : (String.length s2 <= String.length s1)%nat).
    { unfold s2. rewrite reverse_length.
      rewrite <- (reverse_length s1). apply drop_until_length. }
    assert (L3 : (String.length s3 <= String.length s2)%nat)
      by apply remove_if_length.
    assert (F1 : s1 <> input -> (String.length s1 < String.length input)%nat).
    { intros N. destruct (Nat.eq_dec (String.length s1) (String.length input)) as [E|];
        [|lia]. exfalso. apply N. apply drop_until_same_length. exact E. }
    assert (F2 : s2 <> s1 -> (String.length s2 < String.length s1)%nat).
    { intros N. destruct (Nat.eq_dec (String.length s2) (String.length s1)) as [E|];
        [|lia]. exfalso. apply N. unfold s2 in *. rewrite reverse_length in E.
      rewrite drop_until_same_length by (rewrite reverse_length; exact E).
      apply reverse_involutive. }
    assert (F3 : s3 <> s2 -> (String.length s3 < String.length s2)%nat).
    { intros N. destruct (Nat.eq_dec (String.length s3) (String.length s2)) as [E|];
        [|lia]. exfalso. apply N. apply remove_if_same_length. exact E. }
    destruct (String.eqb_spec s1 input) as [E1 | N1];
      destruct (String.eqb_spec s2 s1) as [E2 | N2];
      destruct (String.eqb_spec s3 s2) as [E3 | N3];
      destruct (String.eqb_spec s3 input) as [E | N]; cbn; try reflexivity;
      exfalso; try congruence;
      try (apply (f_equal String.length) in E);
      try specialize (F1 N1); try specialize (F2 N2); try specialize (F3 N3); lia.
Qed.


(** ** The advisory flag is never read *)

Ltac forget_tac :=
  match goal with
  | |- same_turn (iterate ?ctx) _ =>
      destruct ctx as [st vw i bs u ov bf af sf pf ve];
      destruct u as [sch un pw ho po pa qu fr cb]
  end;
  cbn [state] in *; subst;
  unfold iterate, forget; ctx_simpl;
  match goal with
  | |- context [deref ?v ?i] => destruct (deref v i)
  end; [|exact (eq_refl undefined)]; cbn [parse_funcs].

Ltac forget_finish :=
  unfold same_turn, forget; ctx_simpl; try reflexivity; try exact I.

Lemma forget_scheme_start ctx :
  state ctx = url_state.scheme_start -> same_turn (iterate ctx) (iterate (forget ctx)).
Proof.
  intros Hs. forget_tac. unfold parse_scheme_start, authority_end, is_separator, base_is_file, lookahead.
  ctx_simpl. repeat (break_step; ctx_simpl); forget_finish.
Qed.

Lemma forget_scheme ctx :
  state ctx = url_state.scheme -> same_turn (iterate ctx) (iterate (forget ctx)).
Proof.
  intros Hs. forget_tac. unfold parse_scheme, authority_end, is_separator, base_is_file, lookahead.
  ctx_simpl. repeat (break_step; ctx_simpl); forget_finish.
Qed.

Lemma forget_no_scheme ctx :
  state ctx = url_state.no_scheme -> same_turn (iterate ctx) (iterate (forget ctx)).
Proof.
  intros Hs. forget_tac. unfold parse_no_scheme, authority_end, is_separator, base_is_file, lookahead.
  ctx_simpl. repeat (break_step; ctx_simpl); forget_finish.
Qed.

Lemma forget_special_relative_or_authority ctx :
  state ctx = url_state.special_relative_or_authority -> same_turn (iterate ctx) (iterate (forget ctx)).
Proof.
  intros Hs. forget_tac. unfold parse_special_relative_or_authority, authority_end, is_separator, base_is_file, lookahead.
  ctx_simpl. repeat (break_step; ctx_simpl); forget_finish.
Qed.

Lemma forget_path_or_authority ctx :
  state ctx = url_state.path_or_authority -> same_turn (iterate ctx) (iterate (forget ctx)).
Proof.
  intros Hs. forget_tac. unfold parse_path_or_authority, authority_end, is_separator, base_is_file, lookahead.
  ctx_simpl. repeat (break_step; ctx_simpl); forget_finish.
Qed.

Lemma forget_relative ctx :
  state ctx = url_state.relative -> same_turn (iterate ctx) (iterate (forget ctx)).
Proof.
  intros Hs. forget_tac. unfold parse_relative, authority_end, is_separator, base_is_file, lookahead.
  ctx_simpl. repeat (break_step; ctx_simpl); forget_finish.
Qed.

Lemma forget_relative_slash ctx :
  state ctx = url_state.relative_slash -> same_turn (iterate ctx) (iterate (forget ctx)).
Proof.
  intros Hs. forget_tac. unfold parse_relative_slash, authority_end, is_separator, base_is_file, lookahead.
  ctx_simpl. repeat (break_step; ctx_simpl); forget_finish.
Qed.

Lemma forget_special_authority_slashes ctx :
  state ctx = url_state.special_authority_slashes -> same_turn (iterate ctx) (iterate (forget ctx)).
Proof.
  intros Hs. forget_tac. unfold parse_special_authority_slashes, authority_end, is_separator, base_is_file, lookahead.
  ctx_simpl. repeat (break_step; ctx_simpl); forget_finish.
Qed.

Lemma forget_special_authority_ignore_slashes ctx :
  state ctx = url_state.special_authority_ignore_slashes -> same_turn (iterate ctx) (iterate (forget ctx)).
Proof.
  intros Hs. forget_tac. unfold parse_special_authority_ignore_slashes, authority_end, is_separator, base_is_file, lookahead.
  ctx_simpl. repeat (break_step; ctx_simpl); forget_finish.
Qed.

Lemma forget_authority ctx :
  state ctx = url_state.authority -> same_turn (iterate ctx) (iterate (forget ctx)).
Proof.
  intros Hs. forget_tac. unfold parse_authority, authority_end, is_separator, base_is_file, lookahead.
  ctx_simpl. repeat (break_step; ctx_simpl); forget_finish.
Qed.

Lemma forget_host ctx :
  state ctx = url_state.host -> same_turn (iterate ctx) (iterate (forget ctx)).
Proof.
  intros Hs. forget_tac. unfold parse_hostname, authority_end, is_separator, base_is_file, lookahead.
  ctx_simpl. repeat (break_step; ctx_simpl); forget_finish.
Qed.

Lemma forget_hostname ctx :
  state ctx = url_state.hostname -> same_turn (iterate ctx) (iterate (forget ctx)).
Proof.
  intros Hs. forget_tac. unfold parse_hostname, authority_end, is_separator, base_is_file, lookahead.
  ctx_simpl. repeat (break_step; ctx_simpl); forget_finish.
Qed.

Lemma forget_port ctx :
  state ctx = url_state.port -> same_turn (iterate ctx) (iterate (forget ctx)).
Proof.
  intros Hs. forget_tac. unfold parse_port, authority_end, is_separator, base_is_file, lookahead.
  ctx_simpl. repeat (break_step; ctx_simpl); forget_finish.
Qed.

Lemma forget_file ctx :
  state ctx = url_state.file -> same_turn (iterate ctx) (iterate (forget ctx)).
Proof.
  intros Hs. forget_tac. unfold parse_file, authority_end, is_separator, base_is_file, lookahead.
  ctx_simpl. repeat (break_step; ctx_simpl); forget_finish.
Qed.

Lemma forget_file_slash ctx :
  state ctx = url_state.file_slash -> same_turn (iterate ctx) (iterate (forget ctx)).
Proof.
  intros Hs. forget_tac. unfold parse_file_slash, authority_end, is_separator, base_is_file, lookahead.
  ctx_simpl. repeat (break_step; ctx_simpl); forget_finish.
Qed.

Lemma forget_file_host ctx :
  state ctx = url_state.file_host -> same_turn (iterate ctx) (iterate (forget ctx)).
Proof.
  intros Hs. forget_tac. unfold parse_file_host, authority_end, is_separator, base_is_file, lookahead.
  ctx_simpl. repeat (break_step; ctx_simpl); forget_finish.
Qed.

Lemma forget_path_start ctx :
  state ctx = url_state.path_start -> same_turn (iterate ctx) (iterate (forget ctx)).
Proof.
  intros Hs. forget_tac. unfold parse_path_start, authority_end, is_separator, base_is_file, lookahead.
  ctx_simpl. repeat (break_step; ctx_simpl); forget_finish.
Qed.

Lemma forget_cannot_be_a_base_url_path ctx :
  state ctx = url_state.cannot_be_a_base_url_path -> same_turn (iterate ctx) (iterate (forget ctx)).
Proof.
  intros Hs. forget_tac. unfold parse_cannot_be_a_base_url, authority_end, is_separator, base_is_file, lookahead.
  ctx_simpl. repeat (break_step; ctx_simpl); forget_finish.
Qed.

Lemma forget_query ctx :
  state ctx = url_state.query -> same_turn (iterate ctx) (iterate (forget ctx)).
Proof.
  intros Hs. forget_tac. unfold parse_query, authority_end, is_separator, base_is_file, lookahead.
  ctx_simpl. repeat (break_step; ctx_simpl); forget_finish.
Qed.

Lemma forget_fragment ctx :
  state ctx = url_state.fragment -> same_turn (iterate ctx) (iterate (forget ctx)).
Proof.
  intros Hs. forget_tac. unfold parse_fragment, authority_end, is_separator, base_is_file, lookahead.
  ctx_simpl. repeat (break_step; ctx_simpl); forget_finish.
Qed.

Ltac forget_step_tac ctx unf :=
  destruct ctx as [st vw i bs u ov bf af sf pf ve];
  destruct u as [sch un pw ho po pa qu fr cb];
  unf; unfold forget; ctx_simpl; repeat (break_step; ctx_simpl); reflexivity.

Lemma forget_path_mark ctx c :
  forget (path_mark ctx c) = forget (path_mark (forget ctx) c).
Proof. forget_step_tac ctx ltac:(unfold path_mark). Qed.

Lemma forget_path_segment ctx c :
  forget (path_segment ctx c) = forget (path_segment (forget ctx) c).
Proof. forget_step_tac ctx ltac:(unfold path_segment, is_separator). Qed.

Lemma forget_set_buffer ctx b :
  forget (set_buffer b ctx) = forget (set_buffer b (forget ctx)).
Proof. destruct ctx. reflexivity. Qed.

Lemma forget_path_file_fix ctx c :
  forget (path_file_fix ctx c) = forget (path_file_fix (forget ctx) c).
Proof. forget_step_tac ctx ltac:(unfold path_file_fix). Qed.

Lemma forget_path_query ctx c :
  forget (path_query ctx c) = forget (path_query (forget ctx) c).
Proof. forget_step_tac ctx ltac:(unfold path_query). Qed.

Lemma forget_path_fragment ctx c :
  forget (path_fragment ctx c) = forget (path_fragment (forget ctx) c).
Proof. forget_step_tac ctx ltac:(unfold path_fragment). Qed.

Lemma forget_path_steps ctx c :
  forget (path_fragment (path_query (path_file_fix
            (set_buffer "" (path_segment (path_mark ctx c) c)) c) c) c) =
  forget (path_fragment (path_query (path_file_fix
            (set_buffer "" (path_segment (path_mark (forget ctx) c) c)) c) c) c).
Proof.
  rewrite forget_path_fragment, forget_path_query, forget_path_file_fix,
    forget_set_buffer, forget_path_segment, forget_path_mark.
  rewrite <- forget_path_segment, <- forget_set_buffer, <- forget_path_file_fix,
    <- forget_path_query, <- forget_path_fragment.
  reflexivity.
Qed.

Lemma same_turn_after_increment a b :
  forget a = forget b ->
  same_turn (if is_eof a then leave (parsed (url a)) else next (increment a))
            (if is_eof b then leave (parsed (url b)) else next (increment b)).
Proof.
  destruct a as [st vw i bs u ov bf af sf pf ve].
  destruct b as [st' vw' i' bs' u' ov' bf' af' sf' pf' ve'].
  unfold forget. ctx_simpl. intros H.
  apply (f_equal (fun x => set_validation_error ve' x)) in H. ctx_simpl.
  assert (Hv : vw = vw') by congruence.
  assert (Hi : i = i') by congruence.
  assert (Hu : u = u') by congruence. subst.
  destruct (i' =? size vw'); [reflexivity|].
  unfold same_turn, forget. ctx_simpl. congruence.
Qed.

Lemma forget_path ctx :
  state ctx = url_state.path -> same_turn (iterate ctx) (iterate (forget ctx)).
Proof.
  intros Hs. unfold iterate.
  change (view (forget ctx)) with (view ctx).
  change (it (forget ctx)) with (it ctx).
  change (state (forget ctx)) with (state ctx).
  destruct (deref (view ctx) (it ctx)) as [c|]; [|reflexivity].
  rewrite Hs. cbn [parse_funcs]. rewrite !parse_path_steps.
  change (path_terminator (forget ctx) c) with (path_terminator ctx c).
  destruct (path_terminator ctx c).
  - unfold ret. apply same_turn_after_increment. apply forget_path_steps.
  - unfold ret. apply same_turn_after_increment.
    destruct ctx. reflexivity.
Qed.

Lemma forget_turn ctx : same_turn (iterate ctx) (iterate (forget ctx)).
Proof.
  destruct (state ctx) eqn:Hs;
    [ apply forget_scheme_start | apply forget_scheme | apply forget_no_scheme
    | apply forget_special_relative_or_authority | apply forget_path_or_authority
    | apply forget_relative | apply forget_relative_slash
    | apply forget_special_authority_slashes
    | apply forget_special_authority_ignore_slashes | apply forget_authority
    | apply forget_host | apply forget_hostname | apply forget_port
    | apply forget_file | apply forget_file_slash | apply forget_file_host
    | apply forget_path_start | apply forget_path
    | apply forget_cannot_be_a_base_url_path | apply forget_query
    | apply forget_fragment ]; assumption.
Qed.

Lemma forget_idempotent ctx : forget (forget ctx) = forget ctx.
Proof. destruct ctx. reflexivity. Qed.

Lemma same_turn_related a b :
  forget a = forget b -> same_turn (iterate a) (iterate b).
Proof.
  intros H. pose proof (forget_turn a) as Ha. pose proof (forget_turn b) as Hb.
  rewrite H in Ha. unfold same_turn in *.
  destruct (iterate a) as [x | o], (iterate b) as [y | o'],
    (iterate (forget b)) as [z | o'']; try contradiction; congruence.
Qed.

Lemma drive_forget fuel : forall a b,
  forget a = forget b -> drive fuel a = drive fuel b.
Proof.
  induction fuel as [|fuel IH]; intros a b H; [reflexivity|]. cbn [drive].
  assert (Hv : view a = view b) by (apply (f_equal view) in H; exact H).
  assert (Hi : it a = it b) by (apply (f_equal it) in H; exact H).
  assert (Hs : state a = state b) by (apply (f_equal state) in H; exact H).
  rewrite Hv, Hi, Hs.
  destruct (deref (view b) (it b)); [|reflexivity].
  pose proof (same_turn_related a b H) as Ht. unfold same_turn in Ht.
  destruct (iterate a) as [x | o], (iterate b) as [y | o']; try contradiction.
  - rewrite (IH x y Ht). reflexivity.
  - subst o'. reflexivity.
Qed.

Lemma sanitize_idempotent input : sanitize (sanitize input) = sanitize input.
Proof.
  pose proof (sanitized_view_ends input) as He.
  pose proof (remove_if_clean is_tab_or_newline
                (fst (remove_trailing_whitespace (fst (remove_leading_whitespace input)))))
    as Hc.
  change (remove_if is_tab_or_newline
            (fst (remove_trailing_whitespace (fst (remove_leading_whitespace input)))))
    with (sanitize input) in Hc.
  destruct (sanitize input) as [|c r] eqn:Hs; [reflexivity|].
  destruct He as [He | [Hf Hb]]; [discriminate He|].
  unfold sanitize at 1, remove_tabs_and_newlines, remove_trailing_whitespace,
    remove_leading_whitespace. cbn [fst].
  rewrite (drop_until_fixed is_whitespace (String c r)) by (auto; discriminate).
  rewrite (drop_until_fixed is_whitespace (reverse (String c r))).
  - rewrite reverse_involutive. apply remove_if_fixed. exact Hc.
  - rewrite front_reverse. exact Hb.
  - intros E. apply reverse_empty in E. discriminate E.
Qed.

Lemma forget_new_context_view input base url state_override :
  forget (new_context input base url state_override) =
  mk_context
    (match state_override with Some s => s | None => url_state.scheme_start end)
    (sanitize input) 0 base
    (match url with Some u => u | None => empty_url end)
    state_override EmptyString false false false false.
Proof.
  unfold new_context, sanitize.
  destruct (remove_leading_whitespace input) as [s1 k1]. cbn [fst].
  destruct (remove_trailing_whitespace s1) as [s2 k2]. cbn [fst].
  destruct (remove_tabs_and_newlines s2) as [s3 k3]. reflexivity.
Qed.

Lemma forget_new_context input base url state_override :
  forget (new_context input base url state_override) =
  forget (new_context (sanitize input) base url state_override).
Proof. rewrite !forget_new_context_view, sanitize_idempotent. reflexivity. Qed.

(** X9: white space around the input and tabs and newlines inside it
    never reach the state machine, and the advisory flag they raise is
    never read: parsing an input and parsing what the constructor keeps
    of it give the same result after the same handler calls. *)
Theorem basic_parse_of_sanitized input base url state_override :
  basic_parse_log input base url state_override =
  basic_parse_log (sanitize input) base url state_override.
Proof.
  unfold basic_parse_log. cbv zeta.
  rewrite !view_new_context, sanitize_idempotent.
  apply drive_forget. apply forget_new_context.
Qed.

(** ** Dot segments are never stored *)

Lemma dot_free_empty : dot_free "" = true.
Proof. reflexivity. Qed.

Lemma dotless_nil : dotless [].
Proof. constructor. Qed.

Lemma dotless_snoc p s : dotless p -> dot_free s = true -> dotless (p ++ [s]).
Proof.
  intros Hp Hs. unfold dotless. apply Forall_app. split; [exact Hp|].
  constructor; [exact Hs|constructor].
Qed.

Lemma dotless_removelast p : dotless p -> dotless (removelast p).
Proof.
  unfold dotless. induction p as [|s r IH]; intros H; [exact H|].
  inversion H as [|? ? Hs Hr]; subst. cbn [removelast].
  destruct r; [constructor|]. constructor; [exact Hs|]. apply IH. exact Hr.
Qed.

Lemma dotless_shorten sch p : dotless p -> dotless (shorten_path sch p).
Proof.
  intros H. unfold shorten_path. destruct p; [exact H|].
  destruct (_ && _ && _); [exact H|]. apply dotless_removelast. exact H.
Qed.

Lemma dotless_hd p : dotless p -> dot_free (hd "" p) = true.
Proof. intros H. destruct p; [reflexivity|]. inversion H; assumption. Qed.

Lemma dotless_pop p : dotless p -> dotless (fst (pop_leading_empty p)).
Proof.
  unfold dotless. induction p as [|s r IH]; intros H; [exact H|].
  cbn [pop_leading_empty]. destruct r as [|s' r']; [exact H|].
  destruct (empty s); [|exact H]. cbn [fst]. apply IH.
  inversion H; assumption.
Qed.

Lemma dot_free_buffer b :
  is_single_dot_path_segment b = false -> is_double_dot_path_segment b = false ->
  dot_free b = true.
Proof. intros H1 H2. unfold dot_free. rewrite H1, H2. reflexivity. Qed.

Lemma empty_true b : empty b = true -> b = "".
Proof. destruct b; [reflexivity|discriminate]. Qed.

Lemma alpha_not_dot a :
  isalpha a = true ->
  Ascii.eqb (tolower a) "." = false /\ Ascii.eqb (tolower a) "%" = false.
Proof.
  destruct a as [[] [] [] [] [] [] [] []]; vm_compute; intros H;
    try discriminate H; split; reflexivity.
Qed.

(** A drive letter starts with a letter, and stays a drive letter, not a
    dot segment, when its second byte is overwritten, line 1068. *)
Lemma drive_letter_dot_free b :
  is_windows_drive_letter b = true -> dot_free (set_second b ":") = true.
Proof.
  destruct b as [|a [|x r]]; try (vm_compute; discriminate).
  intros H.
  assert (Ha : isalpha a = true).
  { destruct (isalpha a) eqn:E; [reflexivity|].
    unfold is_windows_drive_letter, is_windows_drive_letter_at in H.
    destruct (size (String a (String x r)) - 0 <? 2); [discriminate H|].
    change (deref (String a (String x r)) 0) with (Some a) in H.
    cbv beta iota in H. rewrite E in H. discriminate H. }
  destruct (alpha_not_dot a Ha) as [H1 H2].
  unfold dot_free, is_single_dot_path_segment, is_double_dot_path_segment, set_second.
  cbn [lower string_map String.eqb]. rewrite H1, H2. reflexivity.
Qed.

#[local] Hint Resolve dot_free_empty dotless_nil dotless_snoc dotless_removelast
  dotless_shorten dotless_hd dotless_pop dot_free_buffer drive_letter_dot_free : url.

Ltac empty_facts :=
  repeat match goal with
         | H : empty ?b = true |- _ => apply empty_true in H; try subst b
         end.

Ltac dots_inv_unf := unfold dots_inv, path_ok, base_dotless in *.

Lemma dots_inv_scheme_start ctx :
  state ctx = url_state.scheme_start -> wf ctx -> dots_inv ctx -> keeps dots_inv path_ok ctx.
Proof.
  inv_start dots_inv_unf; unfold parse_scheme_start, authority_end, is_separator, base_is_file; ctx_simpl;
  repeat (break_step; ctx_simpl); empty_facts; inv_finish dots_inv_unf.
Qed.

Lemma dots_inv_scheme ctx :
  state ctx = url_state.scheme -> wf ctx -> dots_inv ctx -> keeps dots_inv path_ok ctx.
Proof.
  inv_start dots_inv_unf; unfold parse_scheme, authority_end, is_separator, base_is_file; ctx_simpl;
  repeat (break_step; ctx_simpl); empty_facts; inv_finish dots_inv_unf.
Qed.

Lemma dots_inv_no_scheme ctx :
  state ctx = url_state.no_scheme -> wf ctx -> dots_inv ctx -> keeps dots_inv path_ok ctx.
Proof.
  inv_start dots_inv_unf; unfold parse_no_scheme, authority_end, is_separator, base_is_file; ctx_simpl;
  repeat (break_step; ctx_simpl); empty_facts; inv_finish dots_inv_unf.
Qed.

Lemma dots_inv_special_relative_or_authority ctx :
  state ctx = url_state.special_relative_or_authority -> wf ctx -> dots_inv ctx -> keeps dots_inv path_ok ctx.
Proof.
  inv_start dots_inv_unf; unfold parse_special_relative_or_authority, authority_end, is_separator, base_is_file; ctx_simpl;
  repeat (break_step; ctx_simpl); empty_facts; inv_finish dots_inv_unf.
Qed.

Lemma dots_inv_path_or_authority ctx :
  state ctx = url_state.path_or_authority -> wf ctx -> dots_inv ctx -> keeps dots_inv path_ok ctx.
Proof.
  inv_start dots_inv_unf; unfold parse_path_or_authority, authority_end, is_separator, base_is_file; ctx_simpl;
  repeat (break_step; ctx_simpl); empty_facts; inv_finish dots_inv_unf.
Qed.

Lemma dots_inv_relative ctx :
  state ctx = url_state.relative -> wf ctx -> dots_inv ctx -> keeps dots_inv path_ok ctx.
Proof.
  inv_start dots_inv_unf; unfold parse_relative, authority_end, is_separator, base_is_file; ctx_simpl;
  repeat (break_step; ctx_simpl); empty_facts; inv_finish dots_inv_unf.
Qed.

Lemma dots_inv_relative_slash ctx :
  state ctx = url_state.relative_slash -> wf ctx -> dots_inv ctx -> keeps dots_inv path_ok ctx.
Proof.
  inv_start dots_inv_unf; unfold parse_relative_slash, authority_end, is_separator, base_is_file; ctx_simpl;
  repeat (break_step; ctx_simpl); empty_facts; inv_finish dots_inv_unf.
Qed.

Lemma dots_inv_special_authority_slashes ctx :
  state ctx = url_state.special_authority_slashes -> wf ctx -> dots_inv ctx -> keeps dots_inv path_ok ctx.
Proof.
  inv_start dots_inv_unf; unfold parse_special_authority_slashes, authority_end, is_separator, base_is_file; ctx_simpl;
  repeat (break_step; ctx_simpl); empty_facts; inv_finish dots_inv_unf.
Qed.

Lemma dots_inv_special_authority_ignore_slashes ctx :
  state ctx = url_state.special_authority_ignore_slashes -> wf ctx -> dots_inv ctx -> keeps dots_inv path_ok ctx.
Proof.
  inv_start dots_inv_unf; unfold parse_special_authority_ignore_slashes, authority_end, is_separator, base_is_file; ctx_simpl;
  repeat (break_step; ctx_simpl); empty_facts; inv_finish dots_inv_unf.
Qed.

Lemma dots_inv_authority ctx :
  state ctx = url_state.authority -> wf ctx -> dots_inv ctx -> keeps dots_inv path_ok ctx.
Proof.
  inv_start dots_inv_unf; unfold parse_authority, authority_end, is_separator, base_is_file; ctx_simpl;
  repeat (break_step; ctx_simpl); empty_facts; inv_finish dots_inv_unf.
Qed.

Lemma dots_inv_host ctx :
  state ctx = url_state.host -> wf ctx -> dots_inv ctx -> keeps dots_inv path_ok ctx.
Proof.
  inv_start dots_inv_unf; unfold parse_hostname, authority_end, is_separator, base_is_file; ctx_simpl;
  repeat (break_step; ctx_simpl); empty_facts; inv_finish dots_inv_unf.
Qed.

Lemma dots_inv_hostname ctx :
  state ctx = url_state.hostname -> wf ctx -> dots_inv ctx -> keeps dots_inv path_ok ctx.
Proof.
  inv_start dots_inv_unf; unfold parse_hostname, authority_end, is_separator, base_is_file; ctx_simpl;
  repeat (break_step; ctx_simpl); empty_facts; inv_finish dots_inv_unf.
Qed.

Lemma dots_inv_port ctx :
  state ctx = url_state.port -> wf ctx -> dots_inv ctx -> keeps dots_inv path_ok ctx.
Proof.
  inv_start dots_inv_unf; unfold parse_port, authority_end, is_separator, base_is_file; ctx_simpl;
  repeat (break_step; ctx_simpl); empty_facts; inv_finish dots_inv_unf.
Qed.

Lemma dots_inv_file ctx :
  state ctx = url_state.file -> wf ctx -> dots_inv ctx -> keeps dots_inv path_ok ctx.
Proof.
  inv_start dots_inv_unf; unfold parse_file, authority_end, is_separator, base_is_file; ctx_simpl;
  repeat (break_step; ctx_simpl); empty_facts; inv_finish dots_inv_unf.
Qed.

Lemma dots_inv_file_slash ctx :
  state ctx = url_state.file_slash -> wf ctx -> dots_inv ctx -> keeps dots_inv path_ok ctx.
Proof.
  inv_start dots_inv_unf; unfold parse_file_slash, authority_end, is_separator, base_is_file; ctx_simpl;
  repeat (break_step; ctx_simpl); empty_facts; inv_finish dots_inv_unf.
Qed.

Lemma dots_inv_file_host ctx :
  state ctx = url_state.file_host -> wf ctx -> dots_inv ctx -> keeps dots_inv path_ok ctx.
Proof.
  inv_start dots_inv_unf; unfold parse_file_host, authority_end, is_separator, base_is_file; ctx_simpl;
  repeat (break_step; ctx_simpl); empty_facts; inv_finish dots_inv_unf.
Qed.

Lemma dots_inv_path_start ctx :
  state ctx = url_state.path_start -> wf ctx -> dots_inv ctx -> keeps dots_inv path_ok ctx.
Proof.
  inv_start dots_inv_unf; unfold parse_path_start, authority_end, is_separator, base_is_file; ctx_simpl;
  repeat (break_step; ctx_simpl); empty_facts; inv_finish dots_inv_unf.
Qed.

Lemma dots_inv_cannot_be_a_base_url_path ctx :
  state ctx = url_state.cannot_be_a_base_url_path -> wf ctx -> dots_inv ctx -> keeps dots_inv path_ok ctx.
Proof.
  inv_start dots_inv_unf; unfold parse_cannot_be_a_base_url, authority_end, is_separator, base_is_file; ctx_simpl;
  repeat (break_step; ctx_simpl); empty_facts; inv_finish dots_inv_unf.
Qed.

Lemma dots_inv_query ctx :
  state ctx = url_state.query -> wf ctx -> dots_inv ctx -> keeps dots_inv path_ok ctx.
Proof.
  inv_start dots_inv_unf; unfold parse_query, authority_end, is_separator, base_is_file; ctx_simpl;
  repeat (break_step; ctx_simpl); empty_facts; inv_finish dots_inv_unf.
Qed.

Lemma dots_inv_fragment ctx :
  state ctx = url_state.fragment -> wf ctx -> dots_inv ctx -> keeps dots_inv path_ok ctx.
Proof.
  inv_start dots_inv_unf; unfold parse_fragment, authority_end, is_separator, base_is_file; ctx_simpl;
  repeat (break_step; ctx_simpl); empty_facts; inv_finish dots_inv_unf.
Qed.

Lemma path_segment_dotless ctx c :
  path_ok (url ctx) -> path_ok (url (path_segment ctx c)).
Proof.
  destruct ctx as [st vw i bs u ov bf af sf pf ve].
  destruct u as [sch un pw ho po pa qu fr cb].
  unfold path_segment, is_separator, path_ok. ctx_simpl.
  intros [H | H]; [left | right];
    repeat (break_step; ctx_simpl); try assumption;
    repeat match goal with
           | H : negb _ = true |- _ => apply negb_true_iff in H
           | H : negb _ = false |- _ => apply negb_false_iff in H
           | H : _ && _ = true |- _ => apply andb_prop in H; destruct H
           end;
    try congruence; eauto 6 with url.
Qed.

Lemma path_file_fix_dotless ctx c :
  path_ok (url ctx) -> path_ok (url (path_file_fix ctx c)).
Proof.
  destruct ctx as [st vw i bs u ov bf af sf pf ve].
  destruct u as [sch un pw ho po pa qu fr cb].
  unfold path_file_fix, path_ok. ctx_simpl.
  intros [H | H]; [left | right];
    repeat (break_step; ctx_simpl); try assumption.
  all: match goal with
       | E : pop_leading_empty ?p = (?l, _) |- dotless ?l =>
           change l with (fst (l, true)) || idtac;
           pose proof (dotless_pop p H) as Hp; rewrite E in Hp; exact Hp
       end.
Qed.

Lemma path_mark_dotless ctx c :
  path_ok (url ctx) -> path_ok (url (path_mark ctx c)).
Proof. unfold path_mark. destruct (_ && _); intros H; exact H. Qed.

Lemma path_steps_dotless ctx c :
  path_ok (url ctx) ->
  path_ok (url (path_file_fix (set_buffer "" (path_segment (path_mark ctx c) c)) c)).
Proof.
  intros H. apply path_file_fix_dotless.
  change (url (set_buffer "" (path_segment (path_mark ctx c) c)))
    with (url (path_segment (path_mark ctx c) c)).
  apply path_segment_dotless, path_mark_dotless, H.
Qed.

Lemma dots_inv_path ctx :
  state ctx = url_state.path -> wf ctx -> dots_inv ctx -> keeps dots_inv path_ok ctx.
Proof.
  intros Hs [Hov [Hit Hwf]] HP.
  destruct (deref_some _ _ Hit) as [c Hc].
  unfold keeps, iterate. rewrite Hc, Hs. cbn [parse_funcs].
  rewrite parse_path_steps.
  destruct (path_terminator ctx c).
  - destruct (path_steps_keep ctx c) as [Hk Hb].
    pose proof (path_steps_dotless ctx c (proj1 (proj2 HP))) as Hd.
    revert Hk Hb Hd.
    generalize (path_file_fix (set_buffer "" (path_segment (path_mark ctx c) c)) c).
    intros d Hk Hb Hd. unfold keeps_place in Hk.
    destruct ctx as [st vw i bs u ov bf af sf pf ve].
    destruct u as [sch un pw ho po pa qu fr cb].
    destruct d as [st' vw' i' bs' u' ov' bf' af' sf' pf' ve'].
    destruct u' as [sch' un' pw' ho' po' pa' qu' fr' cb'].
    unfold path_query, path_fragment. ctx_simpl.
    repeat match goal with H : _ /\ _ |- _ => destruct H end. subst.
    dots_inv_unf. ctx_simpl.
    repeat (break_step; ctx_simpl); empty_facts; inv_finish dots_inv_unf.
  - destruct ctx as [st vw i bs u ov bf af sf pf ve].
    destruct u as [sch un pw ho po pa qu fr cb]. ctx_simpl. subst.
    dots_inv_unf. ctx_simpl.
    repeat (break_step; ctx_simpl); empty_facts; inv_finish dots_inv_unf.
Qed.

Lemma dots_inv_keeps ctx : wf ctx -> dots_inv ctx -> keeps dots_inv path_ok ctx.
Proof.
  intros H HP. destruct (state ctx) eqn:Hs;
    [ apply dots_inv_scheme_start | apply dots_inv_scheme | apply dots_inv_no_scheme
    | apply dots_inv_special_relative_or_authority | apply dots_inv_path_or_authority
    | apply dots_inv_relative | apply dots_inv_relative_slash
    | apply dots_inv_special_authority_slashes
    | apply dots_inv_special_authority_ignore_slashes | apply dots_inv_authority
    | apply dots_inv_host | apply dots_inv_hostname | apply dots_inv_port
    | apply dots_inv_file | apply dots_inv_file_slash | apply dots_inv_file_host
    | apply dots_inv_path_start | apply dots_inv_path
    | apply dots_inv_cannot_be_a_base_url_path | apply dots_inv_query
    | apply dots_inv_fragment ]; assumption.
Qed.

Lemma new_context_dots_inv input base :
  base_dotless base -> dots_inv (new_context input base None None).
Proof.
  intros H. unfold new_context.
  destruct (remove_leading_whitespace input) as [s1 k1].
  destruct (remove_trailing_whitespace s1) as [s2 k2].
  destruct (remove_tabs_and_newlines s2) as [s3 k3].
  unfold dots_inv, path_ok. cbn. split; [exact H|]. split; [|exact I].
  right. constructor.
Qed.

(** X10: when the path of the base holds no dot segment, the path of a
    parsed record that can be a base holds none either: no segment is a
    single-dot or a double-dot segment, in any of their spellings. *)
Theorem parsed_path_has_no_dot_segment (input : string) (base : option url_record)
  (u : url_record)
  (Hbase : forall b, base = Some b ->
           Forall (fun segment => is_single_dot_path_segment segment = false /\
                                  is_double_dot_path_segment segment = false) (path b))
  (Hparse : parse input base = parsed u)
  (Hflag : cannot_be_a_base_url u = false) :
  Forall (fun segment => is_single_dot_path_segment segment = false /\
                         is_double_dot_path_segment segment = false) (path u).
Proof.
  assert (Hb : base_dotless base).
  { destruct base as [b|]; [|exact I]. cbn. specialize (Hbase b eq_refl).
    unfold dotless. eapply Forall_impl; [|exact Hbase].
    intros s [H1 H2]. apply dot_free_buffer; assumption. }
  pose proof (parse_invariant dots_inv path_ok input base dots_inv_keeps
                (new_context_dots_inv input base Hb) u Hparse) as [H | H].
  - congruence.
  - unfold dotless in H. eapply Forall_impl; [|exact H].
    intros s Hs. unfold dot_free in Hs. apply andb_prop in Hs.
    destruct Hs as [H1 H2]. apply negb_true_iff in H1. apply negb_true_iff in H2.
    auto.
Qed.

(** A reference with dot segments in three spellings against a base with
    three segments. *)
Lemma parsed_path_has_no_dot_segment_witness :
  parse "../c/./%2E%2e/d/.?q"
        (Some (mk_url "http" "" "" (Some "h") None ["a"; "b"; "x"] None None false)) =
    parsed (mk_url "http" "" "" (Some "h") None ["a"; "d"; ""] (Some "q") None false) /\
  Forall (fun segment => is_single_dot_path_segment segment = false /\
                         is_double_dot_path_segment segment = false) ["a"; "d"; ""].
Proof.
  assert (H : parse "../c/./%2E%2e/d/.?q"
                (Some (mk_url "http" "" "" (Some "h") None ["a"; "b"; "x"]
                              None None false)) =
              parsed (mk_url "http" "" "" (Some "h") None ["a"; "d"; ""] (Some "q")
                             None false))
    by (vm_compute; reflexivity).
  split; [exact H|].
  refine (parsed_path_has_no_dot_segment _ _ _ _ H eq_refl).
  intros b Hb. injection Hb as <-. repeat constructor.
Defined.

(** ** The pieces of an IPv6 address *)

Lemma hex_to_dec_range c : isxdigit c = true -> 0 <= hex_to_dec c <= 15.
Proof.
  destruct c as [[] [] [] [] [] [] [] []]; intros H;
    try (vm_compute in H; discriminate H); vm_compute; split; intros E; discriminate E.
Qed.

Lemma digit_range c : isdigit c = true -> 0 <= code c - 48 <= 9.
Proof.
  destruct c as [[] [] [] [] [] [] [] []]; intros H;
    try (vm_compute in H; discriminate H); vm_compute; split; intros E; discriminate E.
Qed.

Lemma read_hex_range view fuel : forall it value length it' value' length',
  0 <= length <= 4 -> 0 <= value < 16 ^ length ->
  read_hex fuel view it value length = (it', value', length') ->
  0 <= length' <= 4 /\ 0 <= value' < 16 ^ length'.
Proof.
  induction fuel as [|fuel IH]; intros it value length it' value' length' Hl Hv H;
    cbn [read_hex] in H.
  - inversion H; subst. auto.
  - destruct ((length <? 4) && isxdigit (peek view it)) eqn:E.
    + apply andb_prop in E. destruct E as [E1 E2]. apply Z.ltb_lt in E1.
      pose proof (hex_to_dec_range _ E2) as Hh.
      apply IH in H; [exact H | lia |].
      rewrite Z.pow_add_r by lia. change (16 ^ 1) with 16. lia.
    + inversion H; subst. auto.
Qed.

Lemma read_ipv4_piece_range view fuel : forall it acc it' p,
  match acc with Some q => 0 <= q <= 255 | None => True end ->
  read_ipv4_piece fuel view it acc = Some (it', Some p) -> 0 <= p <= 255.
Proof.
  induction fuel as [|fuel IH]; intros it acc it' p Ha H; cbn [read_ipv4_piece] in H.
  - inversion H; subst. exact Ha.
  - destruct (isdigit (peek view it)) eqn:E.
    + pose proof (digit_range _ E) as Hd. cbv zeta in H.
      destruct acc as [q|].
      * destruct (q =? 0); [discriminate H|].
        destruct (255 <? q * 10 + (code (peek view it) - 48)) eqn:E2; [discriminate H|].
        apply Z.ltb_ge in E2. apply IH in H; [exact H|]. lia.
      * destruct (255 <? code (peek view it) - 48) eqn:E2; [discriminate H|].
        apply IH in H; [exact H|]. lia.
    + inversion H; subst. exact Ha.
Qed.

Lemma firstn_known {A : Type} (known rest : list A) :
  firstn (List.length known) (known ++ rest) = known.
Proof. induction known as [|k r IH]; [reflexivity|]. cbn. rewrite IH. reflexivity. Qed.

Lemma skipn_known {A : Type} (known : list A) x rest :
  skipn (S (List.length known)) (known ++ x :: rest) = rest.
Proof. induction known as [|k r IH]; [reflexivity | exact IH]. Qed.

Lemma set_piece_at (known : list Z) x rest v :
  set_piece (known ++ x :: rest) (Z.of_nat (List.length known)) v =
  (known ++ v :: rest)%list.
Proof.
  unfold set_piece. rewrite Nat2Z.id, firstn_known, skipn_known. reflexivity.
Qed.

Lemma piece_at (known : list Z) x rest :
  piece (known ++ x :: rest) (Z.of_nat (List.length known)) = x.
Proof.
  unfold piece. rewrite Nat2Z.id.
  induction known as [|k r IH]; [reflexivity | exact IH].
Qed.

Lemma zeros_next (n : nat) :
  (n < 8)%nat -> repeat 0 (8 - n) = 0 :: repeat 0 (7 - n).
Proof.
  intros H. replace (8 - n)%nat with (S (7 - n)) by lia. reflexivity.
Qed.

Lemma snoc_zeros (known : list Z) v :
  (known ++ v :: repeat 0 (7 - List.length known))%list =
  ((known ++ [v]) ++ repeat 0 (8 - List.length (known ++ [v])))%list.
Proof.
  rewrite <- app_assoc. cbn [app]. rewrite length_app. cbn [List.length].
  replace (8 - (List.length known + 1))%nat with (7 - List.length known)%nat by lia.
  reflexivity.
Qed.

Lemma loop_state_push address piece_index v :
  loop_state address piece_index -> piece_index <> 8 -> piece_ok v ->
  loop_state (set_piece address piece_index v) (piece_index + 1).
Proof.
  intros (known & -> & -> & Hl & Hf) Hp Hv.
  assert (Hlt : (List.length known < 8)%nat) by lia.
  rewrite (zeros_next _ Hlt), set_piece_at, snoc_zeros.
  exists (known ++ [v])%list. rewrite length_app. cbn [List.length].
  repeat split; [lia | lia |].
  apply Forall_app. split; [exact Hf | constructor; [exact Hv | constructor]].
Qed.

Lemma loop_state_skip address piece_index :
  loop_state address piece_index -> piece_index <> 8 ->
  loop_state address (piece_index + 1).
Proof.
  intros (known & -> & -> & Hl & Hf) Hp.
  assert (Hlt : (List.length known < 8)%nat) by lia.
  rewrite (zeros_next _ Hlt), snoc_zeros.
  exists (known ++ [0])%list. rewrite length_app. cbn [List.length].
  repeat split; [lia | lia |].
  apply Forall_app. split; [exact Hf | constructor; [unfold piece_ok; lia | constructor]].
Qed.

Lemma ipv4_state_number address piece_index numbers_seen p :
  ipv4_state address piece_index numbers_seen -> numbers_seen < 4 -> 0 <= p <= 255 ->
  ipv4_state
    (set_piece address piece_index (piece address piece_index * 256 + p))
    (if (numbers_seen + 1 =? 2) || (numbers_seen + 1 =? 4)
     then piece_index + 1 else piece_index)
    (numbers_seen + 1).
Proof.
  intros (known & -> & Hf & Hb & [[Hn ->] | [Hn (x & Hx & ->)]]) Hlt Hp.
  - assert (Hk : (List.length known < 8)%nat) by lia.
    rewrite (zeros_next _ Hk), set_piece_at, piece_at.
    exists known.
    replace ((numbers_seen + 1 =? 2) || (numbers_seen + 1 =? 4)) with false
      by (destruct Hn as [-> | [-> | ->]]; try reflexivity; lia).
    repeat split; [exact Hf | lia |]. right. split; [lia|].
    exists (0 * 256 + p). split; [lia|].
    replace (7 - List.length known)%nat with (7 - List.length known)%nat by lia.
    reflexivity.
  - assert (Hk : (List.length known < 8)%nat) by lia.
    rewrite set_piece_at, piece_at, snoc_zeros.
    exists (known ++ [x * 256 + p])%list.
    replace ((numbers_seen + 1 =? 2) || (numbers_seen + 1 =? 4)) with true
      by (destruct Hn as [-> | ->]; reflexivity).
    rewrite length_app. cbn [List.length].
    repeat split; [lia | | lia |].
    + apply Forall_app. split; [exact Hf|].
      constructor; [unfold piece_ok; lia | constructor].
    + left. split; [lia | reflexivity].
Qed.

Lemma read_ipv4_in_ipv6_pieces view fuel :
  forall it address piece_index numbers_seen address' piece_index' numbers_seen',
  ipv4_state address piece_index numbers_seen ->
  read_ipv4_in_ipv6 fuel view it address piece_index numbers_seen =
    Some (address', piece_index', numbers_seen') ->
  ipv4_state address' piece_index' numbers_seen' /\ piece_index <= piece_index'.
Proof.
  induction fuel as [|fuel IH];
    intros it address piece_index numbers_seen address' piece_index' numbers_seen' Hs H;
    cbn [read_ipv4_in_ipv6] in H.
  - inversion H; subst. split; [exact Hs | lia].
  - destruct (it =? size view); [inversion H; subst; split; [exact Hs | lia]|].
    assert (Hlt : forall it0,
      (if 0 <? numbers_seen
       then (if eqc (peek view it) "." && (numbers_seen <? 4)
             then Some (it + 1) else None)
       else Some it) = Some it0 -> numbers_seen < 4).
    { intros it0 E. destruct (0 <? numbers_seen) eqn:E0.
      - destruct (eqc (peek view it) "." && (numbers_seen <? 4)) eqn:E1;
          [|discriminate E].
        apply andb_prop in E1. destruct E1 as [_ E1]. apply Z.ltb_lt in E1. exact E1.
      - apply Z.ltb_ge in E0. lia. }
    destruct (if 0 <? numbers_seen then _ else _) as [it0|]; [|discriminate H].
    specialize (Hlt it0 eq_refl).
    destruct (negb (isdigit (peek view it0))); [discriminate H|].
    destruct (read_ipv4_piece _ view it0 None) as [[it1 [p|]]|] eqn:Ep;
      try discriminate H.
    pose proof (read_ipv4_piece_range _ _ _ None _ _ I Ep) as Hp.
    cbv zeta in H. apply IH in H.
    + destruct H as [H1 H2]. split; [exact H1|].
      destruct ((numbers_seen + 1 =? 2) || (numbers_seen + 1 =? 4)); lia.
    + apply ipv4_state_number; assumption.
Qed.

Lemma ipv6_loop_pieces view fuel :
  forall it address piece_index compress address' piece_index' compress',
  loop_state address piece_index ->
  (forall c, compress = Some c -> 1 <= c <= piece_index) ->
  ipv6_loop fuel view it address piece_index compress =
    Some (address', piece_index', compress') ->
  loop_state address' piece_index' /\
  (forall c, compress' = Some c -> 1 <= c <= piece_index').
Proof.
  induction fuel as [|fuel IH];
    intros it address piece_index compress address' piece_index' compress' Hs Hc H;
    cbn [ipv6_loop] in H; [discriminate H|].
  destruct (it =? size view); [inversion H; subst; auto|].
  destruct (piece_index =? 8) eqn:E8; [discriminate H|]. apply Z.eqb_neq in E8.
  assert (Hge : 0 <= piece_index).
  { destruct Hs as (known & _ & -> & _). lia. }
  destruct (eqc (peek view it) ":").
  - destruct compress as [c|]; [discriminate H|].
    apply IH in H; [exact H | apply loop_state_skip; assumption |].
    intros c E. inversion E; subst. lia.
  - destruct (read_hex 4 view it 0 0) as [[it1 value] length] eqn:Eh.
    destruct (read_hex_range view 4 it 0 0 it1 value length ltac:(lia) ltac:(cbn; lia) Eh)
      as [Hl Hv].
    assert (Hp : piece_ok value).
    { unfold piece_ok. split; [lia|].
      assert (16 ^ length <= 16 ^ 4) by (apply Z.pow_le_mono_r; lia).
      change (16 ^ 4) with 65536 in *. lia. }
    destruct (eqc (peek view it1) ".").
    + destruct (length =? 0); [discriminate H|].
      cbv zeta in H. destruct (6 <? piece_index) eqn:E6; [discriminate H|].
      apply Z.ltb_ge in E6.
      destruct (read_ipv4_in_ipv6 _ view (it1 - length) address piece_index 0)
        as [[[a1 p1] n1]|] eqn:E4; [|discriminate H].
      destruct (negb (n1 =? 4)) eqn:En; [discriminate H|].
      apply negb_false_iff, Z.eqb_eq in En. subst n1.
      inversion H; subst. clear H.
      apply read_ipv4_in_ipv6_pieces in E4.
      * destruct E4 as [(known & -> & Hf & Hb & [[_ ->] | [Hn _]]) Hle];
          [|lia].
        split; [|intros c E; specialize (Hc c E); lia].
        exists known. repeat split; [lia | exact Hf].
      * destruct Hs as (known & -> & -> & Hk & Hf).
        exists known. repeat split; [exact Hf | lia |]. left. auto.
    + destruct (eqc (peek view it1) ":").
      * destruct (it1 + 1 =? size view); [discriminate H|].
        apply IH in H; [exact H | apply loop_state_push; assumption |].
        intros c E. specialize (Hc c E). lia.
      * destruct (negb (it1 =? size view)); [discriminate H|].
        apply IH in H; [exact H | apply loop_state_push; assumption |].
        intros c E. specialize (Hc c E). lia.
Qed.

Lemma piece_range address i : Forall piece_ok address -> piece_ok (piece address i).
Proof.
  intros H. unfold piece.
  destruct (nth_in_or_default (Z.to_nat i) address 0) as [Hin | ->].
  - rewrite Forall_forall in H. apply H. exact Hin.
  - unfold piece_ok. lia.
Qed.

Lemma pieces_firstn n : forall address,
  Forall piece_ok address -> Forall piece_ok (firstn n address).
Proof.
  induction n as [|n IH]; intros address H; [constructor|].
  destruct address as [|a r]; [constructor|]. inversion H; subst.
  cbn [firstn]. constructor; [assumption | apply IH; assumption].
Qed.

Lemma pieces_skipn n : forall address,
  Forall piece_ok address -> Forall piece_ok (skipn n address).
Proof.
  induction n as [|n IH]; intros address H; [exact H|].
  destruct address as [|a r]; [constructor|]. inversion H; subst.
  cbn [skipn]. apply IH. assumption.
Qed.

Lemma set_piece_range address i v :
  List.length address = 8%nat -> 0 <= i < 8 -> Forall piece_ok address -> piece_ok v ->
  List.length (set_piece address i v) = 8%nat /\ Forall piece_ok (set_piece address i v).
Proof.
  intros Hl Hi Hf Hv. unfold set_piece. split.
  - rewrite !length_app, length_firstn, length_skipn. cbn [List.length]. lia.
  - apply Forall_app. split; [apply pieces_firstn; exact Hf|].
    apply Forall_app. split; [constructor; [exact Hv | constructor]|].
    apply pieces_skipn. exact Hf.
Qed.

Lemma ipv6_swaps_pieces fuel : forall address piece_index swaps c,
  List.length address = 8%nat -> Forall piece_ok address ->
  0 <= piece_index <= 7 -> 1 <= c -> c + swaps <= 8 ->
  List.length (ipv6_swaps fuel address piece_index swaps c) = 8%nat /\
  Forall piece_ok (ipv6_swaps fuel address piece_index swaps c).
Proof.
  induction fuel as [|fuel IH]; intros address piece_index swaps c Hl Hf Hp Hc Hs;
    cbn [ipv6_swaps]; [auto|].
  destruct (negb (piece_index =? 0) && (0 <? swaps)) eqn:E; [|auto].
  apply andb_prop in E. destruct E as [E1 E2].
  apply negb_true_iff, Z.eqb_neq in E1. apply Z.ltb_lt in E2. cbv zeta.
  destruct (set_piece_range address piece_index (piece address (c + swaps - 1))
              Hl ltac:(lia) Hf (piece_range _ _ Hf)) as [Hl1 Hf1].
  destruct (set_piece_range _ (c + swaps - 1) (piece address piece_index)
              Hl1 ltac:(lia) Hf1 (piece_range _ _ Hf)) as [Hl2 Hf2].
  apply IH; try assumption; lia.
Qed.

Lemma loop_state_pieces address piece_index :
  loop_state address piece_index ->
  List.length address = 8%nat /\ Forall piece_ok address /\ 0 <= piece_index <= 8.
Proof.
  intros (known & -> & -> & Hk & Hf). rewrite length_app, repeat_length.
  repeat split; try lia.
  apply Forall_app. split; [exact Hf|].
  apply Forall_forall. intros x Hx. apply repeat_spec in Hx. subst x.
  unfold piece_ok. lia.
Qed.

(** X11: an address that [parse_ipv6_address] returns has eight pieces,
    each of them within 16 bits: no piece is written outside of the
    array, and none is truncated when it is stored. *)
Theorem parse_ipv6_address_pieces (input : string) (address : list Z) :
  parse_ipv6_address input = Some address ->
  List.length address = 8%nat /\ Forall (fun p => 0 <= p < 65536) address.
Proof.
  unfold parse_ipv6_address. cbv zeta. intros H.
  assert (Hstart : forall it piece_index compress,
    (if eqc (peek input 0) ":"
     then match remaining_starts_with (fun i => Some (peek input i)) 0 (size input) ":" with
          | Some true => Some (2, 1, Some 1)
          | _ => None
          end
     else Some (0, 0, None)) = Some (it, piece_index, compress) ->
    loop_state (repeat 0 8) piece_index /\
    (forall c, compress = Some c -> 1 <= c <= piece_index)).
  { intros it piece_index compress E.
    destruct (eqc (peek input 0) ":").
    - destruct (remaining_starts_with _ 0 (size input) ":") as [[|]|];
        try discriminate E.
      inversion E; subst. split.
      + exists [0]. repeat split; [cbn; lia|].
        constructor; [unfold piece_ok; lia | constructor].
      + intros c Ec. inversion Ec; subst. lia.
    - inversion E; subst. split.
      + exists []. repeat split; [cbn; lia | constructor].
      + intros c Ec. discriminate Ec. }
  destruct (if eqc (peek input 0) ":" then _ else _) as [[[it piece_index] compress]|];
    [|discriminate H].
  destruct (Hstart it piece_index compress eq_refl) as [Hs Hc].
  destruct (ipv6_loop _ input it (repeat 0 8) piece_index compress)
    as [[[a1 p1] c1]|] eqn:El; [|discriminate H].
  destruct (ipv6_loop_pieces _ _ _ _ _ _ _ _ _ Hs Hc El) as [Hs1 Hc1].
  destruct (loop_state_pieces _ _ Hs1) as (Hl & Hf & Hp).
  destruct c1 as [c|].
  - specialize (Hc1 c eq_refl).
    assert (E : address = ipv6_swaps 8 a1 7 (p1 - c) c) by congruence.
    rewrite E. apply ipv6_swaps_pieces; try assumption; lia.
  - destruct (negb (p1 =? 8)); [discriminate H|].
    assert (E : address = a1) by congruence. rewrite E. auto.
Qed.

(** A compressed address that ends in dotted decimals. *)
Lemma parse_ipv6_address_pieces_witness :
  parse_ipv6_address "1:2::ffff:1.2.3.4" = Some [1; 2; 0; 0; 0; 65535; 258; 772] /\
  List.length [1; 2; 0; 0; 0; 65535; 258; 772] = 8%nat /\
  Forall (fun p => 0 <= p < 65536) [1; 2; 0; 0; 0; 65535; 258; 772].
Proof.
  assert (H : parse_ipv6_address "1:2::ffff:1.2.3.4" =
              Some [1; 2; 0; 0; 0; 65535; 258; 772])
    by (vm_compute; reflexivity).
  split; [exact H|].
  exact (parse_ipv6_address_pieces "1:2::ffff:1.2.3.4" _ H).
Defined.

(** ** Where the scheme comes from *)

Ltac negb_facts :=
  repeat match goal with
         | H : negb _ = true |- _ => apply negb_true_iff in H
         | H : negb _ = false |- _ => apply negb_false_iff in H
         end.

Ltac origin_close :=
  repeat match goal with
         | H : exists _, _ |- _ => destruct H
         | H : _ /\ _ |- _ => destruct H
         | H : _ \/ _ |- _ => destruct H
         end;
  subst;
  repeat match goal with |- _ /\ _ => split end;
  try reflexivity; try exact I; try assumption;
  try solve [left; assumption];
  try solve [right; eexists; split; reflexivity];
  try solve [right; eexists; split; [eassumption | congruence]].

Ltac origin_inv_unf := unfold origin_inv, origin in *.

Lemma origin_inv_no_scheme v0 b0 ctx :
  state ctx = url_state.no_scheme -> wf ctx -> (origin_inv v0 b0) ctx -> keeps (origin_inv v0 b0) (origin v0 b0) ctx.
Proof.
  inv_start origin_inv_unf; unfold parse_no_scheme, authority_end, is_separator, base_is_file; ctx_simpl;
  repeat (break_step; ctx_simpl); negb_facts; inv_finish origin_inv_unf; origin_close.
Qed.

Lemma origin_inv_special_relative_or_authority v0 b0 ctx :
  state ctx = url_state.special_relative_or_authority -> wf ctx -> (origin_inv v0 b0) ctx -> keeps (origin_inv v0 b0) (origin v0 b0) ctx.
Proof.
  inv_start origin_inv_unf; unfold parse_special_relative_or_authority, authority_end, is_separator, base_is_file; ctx_simpl;
  repeat (break_step; ctx_simpl); negb_facts; inv_finish origin_inv_unf; origin_close.
Qed.

Lemma origin_inv_path_or_authority v0 b0 ctx :
  state ctx = url_state.path_or_authority -> wf ctx -> (origin_inv v0 b0) ctx -> keeps (origin_inv v0 b0) (origin v0 b0) ctx.
Proof.
  inv_start origin_inv_unf; unfold parse_path_or_authority, authority_end, is_separator, base_is_file; ctx_simpl;
  repeat (break_step; ctx_simpl); negb_facts; inv_finish origin_inv_unf; origin_close.
Qed.

Lemma origin_inv_relative v0 b0 ctx :
  state ctx = url_state.relative -> wf ctx -> (origin_inv v0 b0) ctx -> keeps (origin_inv v0 b0) (origin v0 b0) ctx.
Proof.
  inv_start origin_inv_unf; unfold parse_relative, authority_end, is_separator, base_is_file; ctx_simpl;
  repeat (break_step; ctx_simpl); negb_facts; inv_finish origin_inv_unf; origin_close.
Qed.

Lemma origin_inv_relative_slash v0 b0 ctx :
  state ctx = url_state.relative_slash -> wf ctx -> (origin_inv v0 b0) ctx -> keeps (origin_inv v0 b0) (origin v0 b0) ctx.
Proof.
  inv_start origin_inv_unf; unfold parse_relative_slash, authority_end, is_separator, base_is_file; ctx_simpl;
  repeat (break_step; ctx_simpl); negb_facts; inv_finish origin_inv_unf; origin_close.
Qed.

Lemma origin_inv_special_authority_slashes v0 b0 ctx :
  state ctx = url_state.special_authority_slashes -> wf ctx -> (origin_inv v0 b0) ctx -> keeps (origin_inv v0 b0) (origin v0 b0) ctx.
Proof.
  inv_start origin_inv_unf; unfold parse_special_authority_slashes, authority_end, is_separator, base_is_file; ctx_simpl;
  repeat (break_step; ctx_simpl); negb_facts; inv_finish origin_inv_unf; origin_close.
Qed.

Lemma origin_inv_special_authority_ignore_slashes v0 b0 ctx :
  state ctx = url_state.special_authority_ignore_slashes -> wf ctx -> (origin_inv v0 b0) ctx -> keeps (origin_inv v0 b0) (origin v0 b0) ctx.
Proof.
  inv_start origin_inv_unf; unfold parse_special_authority_ignore_slashes, authority_end, is_separator, base_is_file; ctx_simpl;
  repeat (break_step; ctx_simpl); negb_facts; inv_finish origin_inv_unf; origin_close.
Qed.

Lemma origin_inv_authority v0 b0 ctx :
  state ctx = url_state.authority -> wf ctx -> (origin_inv v0 b0) ctx -> keeps (origin_inv v0 b0) (origin v0 b0) ctx.
Proof.
  inv_start origin_inv_unf; unfold parse_authority, authority_end, is_separator, base_is_file; ctx_simpl;
  repeat (break_step; ctx_simpl); negb_facts; inv_finish origin_inv_unf; origin_close.
Qed.

Lemma origin_inv_host v0 b0 ctx :
  state ctx = url_state.host -> wf ctx -> (origin_inv v0 b0) ctx -> keeps (origin_inv v0 b0) (origin v0 b0) ctx.
Proof.
  inv_start origin_inv_unf; unfold parse_hostname, authority_end, is_separator, base_is_file; ctx_simpl;
  repeat (break_step; ctx_simpl); negb_facts; inv_finish origin_inv_unf; origin_close.
Qed.

Lemma origin_inv_hostname v0 b0 ctx :
  state ctx = url_state.hostname -> wf ctx -> (origin_inv v0 b0) ctx -> keeps (origin_inv v0 b0) (origin v0 b0) ctx.
Proof.
  inv_start origin_inv_unf; unfold parse_hostname, authority_end, is_separator, base_is_file; ctx_simpl;
  repeat (break_step; ctx_simpl); negb_facts; inv_finish origin_inv_unf; origin_close.
Qed.

Lemma origin_inv_port v0 b0 ctx :
  state ctx = url_state.port -> wf ctx -> (origin_inv v0 b0) ctx -> keeps (origin_inv v0 b0) (origin v0 b0) ctx.
Proof.
  inv_start origin_inv_unf; unfold parse_port, authority_end, is_separator, base_is_file; ctx_simpl;
  repeat (break_step; ctx_simpl); negb_facts; inv_finish origin_inv_unf; origin_close.
Qed.

Lemma origin_inv_file v0 b0 ctx :
  state ctx = url_state.file -> wf ctx -> (origin_inv v0 b0) ctx -> keeps (origin_inv v0 b0) (origin v0 b0) ctx.
Proof.
  inv_start origin_inv_unf; unfold parse_file, authority_end, is_separator, base_is_file; ctx_simpl;
  repeat (break_step; ctx_simpl); negb_facts; inv_finish origin_inv_unf; origin_close.
Qed.

Lemma origin_inv_file_slash v0 b0 ctx :
  state ctx = url_state.file_slash -> wf ctx -> (origin_inv v0 b0) ctx -> keeps (origin_inv v0 b0) (origin v0 b0) ctx.
Proof.
  inv_start origin_inv_unf; unfold parse_file_slash, authority_end, is_separator, base_is_file; ctx_simpl;
  repeat (break_step; ctx_simpl); negb_facts; inv_finish origin_inv_unf; origin_close.
Qed.

Lemma origin_inv_file_host v0 b0 ctx :
  state ctx = url_state.file_host -> wf ctx -> (origin_inv v0 b0) ctx -> keeps (origin_inv v0 b0) (origin v0 b0) ctx.
Proof.
  inv_start origin_inv_unf; unfold parse_file_host, authority_end, is_separator, base_is_file; ctx_simpl;
  repeat (break_step; ctx_simpl); negb_facts; inv_finish origin_inv_unf; origin_close.
Qed.

Lemma origin_inv_path_start v0 b0 ctx :
  state ctx = url_state.path_start -> wf ctx -> (origin_inv v0 b0) ctx -> keeps (origin_inv v0 b0) (origin v0 b0) ctx.
Proof.
  inv_start origin_inv_unf; unfold parse_path_start, authority_end, is_separator, base_is_file; ctx_simpl;
  repeat (break_step; ctx_simpl); negb_facts; inv_finish origin_inv_unf; origin_close.
Qed.

Lemma origin_inv_cannot_be_a_base_url_path v0 b0 ctx :
  state ctx = url_state.cannot_be_a_base_url_path -> wf ctx -> (origin_inv v0 b0) ctx -> keeps (origin_inv v0 b0) (origin v0 b0) ctx.
Proof.
  inv_start origin_inv_unf; unfold parse_cannot_be_a_base_url, authority_end, is_separator, base_is_file; ctx_simpl;
  repeat (break_step; ctx_simpl); negb_facts; inv_finish origin_inv_unf; origin_close.
Qed.

Lemma origin_inv_query v0 b0 ctx :
  state ctx = url_state.query -> wf ctx -> (origin_inv v0 b0) ctx -> keeps (origin_inv v0 b0) (origin v0 b0) ctx.
Proof.
  inv_start origin_inv_unf; unfold parse_query, authority_end, is_separator, base_is_file; ctx_simpl;
  repeat (break_step; ctx_simpl); negb_facts; inv_finish origin_inv_unf; origin_close.
Qed.

Lemma origin_inv_fragment v0 b0 ctx :
  state ctx = url_state.fragment -> wf ctx -> (origin_inv v0 b0) ctx -> keeps (origin_inv v0 b0) (origin v0 b0) ctx.
Proof.
  inv_start origin_inv_unf; unfold parse_fragment, authority_end, is_separator, base_is_file; ctx_simpl;
  repeat (break_step; ctx_simpl); negb_facts; inv_finish origin_inv_unf; origin_close.
Qed.

Lemma origin_inv_path v0 b0 ctx :
  state ctx = url_state.path -> wf ctx -> (origin_inv v0 b0) ctx -> keeps (origin_inv v0 b0) (origin v0 b0) ctx.
Proof.
  intros Hs [Hov [Hit Hwf]] HP.
  destruct (deref_some _ _ Hit) as [c Hc].
  unfold keeps, iterate. rewrite Hc, Hs. cbn [parse_funcs].
  rewrite parse_path_steps.
  destruct (path_terminator ctx c).
  - destruct (path_steps_keep ctx c) as [Hk Hb].
    revert Hk Hb.
    generalize (path_file_fix (set_buffer "" (path_segment (path_mark ctx c) c)) c).
    intros d Hk Hb. unfold keeps_place in Hk.
    destruct ctx as [st vw i bs u ov bf af sf pf ve].
    destruct u as [sch un pw ho po pa qu fr cb].
    destruct d as [st' vw' i' bs' u' ov' bf' af' sf' pf' ve'].
    destruct u' as [sch' un' pw' ho' po' pa' qu' fr' cb'].
    unfold path_query, path_fragment. ctx_simpl.
    repeat match goal with H : _ /\ _ |- _ => destruct H end. subst.
    origin_inv_unf. ctx_simpl.
    repeat (break_step; ctx_simpl); negb_facts; inv_finish origin_inv_unf; origin_close.
  - destruct ctx as [st vw i bs u ov bf af sf pf ve].
    destruct u as [sch un pw ho po pa qu fr cb]. ctx_simpl. subst.
    origin_inv_unf. ctx_simpl.
    repeat (break_step; ctx_simpl); negb_facts; inv_finish origin_inv_unf; origin_close.
Qed.

Lemma deref_after pre rest c :
  deref (pre ++ rest) (size pre) = Some c -> size pre < size (pre ++ rest) ->
  exists rest', rest = String c rest'.
Proof.
  unfold deref, size. intros H Hlt. rewrite append_length in Hlt.
  destruct rest as [|d rest']; [cbn in Hlt; lia|]. exists rest'.
  revert H. destruct (_ <? 0) eqn:E; [apply Z.ltb_lt in E; lia|].
  rewrite Nat2Z.id.
  assert (Hg : String.get (String.length pre) (pre ++ String d rest') = Some d).
  { clear. induction pre as [|a r IH]; [reflexivity | exact IH]. }
  rewrite Hg. intros H. congruence.
Qed.

Lemma lower_push pre c :
  lower (pre ++ String c "") = push_back (lower pre) (tolower c).
Proof.
  unfold lower, push_back. induction pre as [|a r IH]; [reflexivity|].
  cbn. rewrite IH. reflexivity.
Qed.

Lemma append_push pre c rest :
  (pre ++ String c rest = (pre ++ String c "") ++ rest)%string.
Proof. induction pre as [|a r IH]; [reflexivity|]. cbn. rewrite IH. reflexivity. Qed.

Lemma size_push pre c : size (pre ++ String c "") = size pre + 1.
Proof. unfold size. rewrite append_length. cbn. lia. Qed.

Ltac prefix_close :=
  unfold origin, scheme_prefix;
  try match goal with
      | E : size ?p = size ?v, Hc : deref ?v (size ?p) = _ |- _ => rewrite E in Hc
      end;
  nul_facts;
  try match goal with
      | H : is_in NUL _ = true |- _ => exfalso; vm_compute in H; discriminate H
      end;
  storage_facts;
  try match goal with
      | Hc : deref (?pre ++ ?rest)%string (size ?pre) = Some ?c |- _ =>
          let rest' := fresh "rest" in
          let E := fresh "E" in
          destruct (deref_after pre rest c Hc ltac:(lia)) as [rest' E];
          rewrite E in *;
          repeat match goal with |- _ /\ _ => split end;
          try reflexivity; try exact I;
          try solve [exists (pre ++ String c "")%string, rest';
                     rewrite lower_push, size_push, <- append_push;
                     try match goal with
                         | H : _ = lower pre |- _ => rewrite <- H
                         end; auto];
          try solve [left; exists pre, rest'; split; [reflexivity | auto]]
      end;
  repeat match goal with |- _ /\ _ => split end;
  try reflexivity; try exact I.

Lemma origin_inv_scheme_start v0 b0 ctx :
  state ctx = url_state.scheme_start -> wf ctx -> (origin_inv v0 b0) ctx -> keeps (origin_inv v0 b0) (origin v0 b0) ctx.
Proof.
  inv_start origin_inv_unf; unfold parse_scheme_start; ctx_simpl;
  destruct HP as (Hv & Hbs & pre & rest & Hpre & Hbf & Hi); subst;
  repeat (break_step; ctx_simpl); negb_facts; bool_to_prop; nul_facts;
  try exact I; string_facts; subst; prefix_close.
Qed.

Lemma origin_inv_scheme v0 b0 ctx :
  state ctx = url_state.scheme -> wf ctx -> (origin_inv v0 b0) ctx -> keeps (origin_inv v0 b0) (origin v0 b0) ctx.
Proof.
  inv_start origin_inv_unf; unfold parse_scheme; ctx_simpl;
  destruct HP as (Hv & Hbs & pre & rest & Hpre & Hbf & Hi); subst;
  repeat (break_step; ctx_simpl); negb_facts; bool_to_prop; nul_facts;
  try exact I; string_facts; subst; prefix_close.
Qed.

Lemma origin_inv_keeps v0 b0 ctx : wf ctx -> (origin_inv v0 b0) ctx -> keeps (origin_inv v0 b0) (origin v0 b0) ctx.
Proof.
  intros H HP. destruct (state ctx) eqn:Hs;
    [ apply origin_inv_scheme_start | apply origin_inv_scheme | apply origin_inv_no_scheme
    | apply origin_inv_special_relative_or_authority | apply origin_inv_path_or_authority
    | apply origin_inv_relative | apply origin_inv_relative_slash
    | apply origin_inv_special_authority_slashes
    | apply origin_inv_special_authority_ignore_slashes | apply origin_inv_authority
    | apply origin_inv_host | apply origin_inv_hostname | apply origin_inv_port
    | apply origin_inv_file | apply origin_inv_file_slash | apply origin_inv_file_host
    | apply origin_inv_path_start | apply origin_inv_path
    | apply origin_inv_cannot_be_a_base_url_path | apply origin_inv_query
    | apply origin_inv_fragment ]; assumption.
Qed.

Lemma new_context_origin_inv input base :
  origin_inv (sanitize input) base (new_context input base None None).
Proof.
  unfold origin_inv. rewrite view_new_context.
  split; [reflexivity|].
  unfold new_context.
  destruct (remove_leading_whitespace input) as [s1 k1].
  destruct (remove_trailing_whitespace s1) as [s2 k2].
  destruct (remove_tabs_and_newlines s2) as [s3 k3].
  split; [reflexivity|]. cbn [state buffer it].
  exists "", (sanitize input). repeat split.
Qed.

(** X12: the scheme of a parsed record is spelled in the input or is the
    scheme of the base: either what the constructor keeps of the input
    begins with the scheme, in any case of the letters, and a colon, or
    there is a base and the record has its scheme. *)
Theorem parsed_scheme_origin (input : string) (base : option url_record)
  (u : url_record)
  (Hparse : parse input base = parsed u) :
  (exists pre rest, sanitize input = pre ++ String ":" rest /\ scheme u = lower pre) \/
  (exists b, base = Some b /\ scheme u = scheme b).
Proof.
  exact (parse_invariant (origin_inv (sanitize input) base) (origin (sanitize input) base)
           input base (origin_inv_keeps (sanitize input) base)
           (new_context_origin_inv input base) u Hparse).
Qed.

(** The scheme of [HTTP://Example.ORG/] parsed against a base of another
    scheme. *)
Lemma parsed_scheme_origin_witness :
  parse " HTTP://Example.ORG/"
        (Some (mk_url "ws" "" "" (Some "h") None [""] None None false)) =
    parsed (mk_url "http" "" "" (Some "example.org") None [""] None None false) /\
  ((exists pre rest,
      sanitize " HTTP://Example.ORG/" = pre ++ String ":" rest /\ "http" = lower pre) \/
   (exists b, Some (mk_url "ws" "" "" (Some "h") None [""] None None false) = Some b /\
              "http" = scheme b)).
Proof.
  assert (H : parse " HTTP://Example.ORG/"
                (Some (mk_url "ws" "" "" (Some "h") None [""] None None false)) =
              parsed (mk_url "http" "" "" (Some "example.org") None [""] None None false))
    by (vm_compute; reflexivity).
  split; [exact H|].
  exact (parsed_scheme_origin " HTTP://Example.ORG/" _ _ H).
Defined.
